(** * Conditional character-level RNN (conditional_rnn/conditional-char-rnn.ipynb)

    A shallow embedding of the notebook's example encoder, recurrent cell,
    training step and sampler, with the properties of its specification.

    Conventions.
    - Python exceptions are values of [exn]; fallible code lives in the
      error monad [result].
    - Tensor entries range over an arbitrary scalar structure [Scalar T]
      (the operations torch applies to floats); nothing is assumed about
      them, so every theorem stated over [T] holds for whatever arithmetic
      the library performs.  Concrete runs are evaluated over the reals,
      or over the reals with a not-a-number value where a run turns on it.
    - A tensor of shape 1 x n is a [list T]; a tensor of shape L x 1 x n is a
      list of L such rows.
    - torch's random generator is a state [G] threaded explicitly.
    - A character is a byte ([ascii]).  The notebook only ever asks whether
      a character occurs in [all_letters] and where, so a character beyond
      Latin-1 behaves as any byte outside the alphabet. *)

From Stdlib Require Import List String Ascii ZArith Arith Bool Lia.
From Stdlib Require Import Reals Lra.
Import ListNotations.

(* ------------------------------------------------------------------ *)
(** ** Python faults and the error monad *)

Inductive exn : Set :=
| ValueError      (* list.index on a missing element *)
| IndexError      (* subscript out of range *)
| RuntimeError    (* raised by torch: size mismatch, bad NLL target,
                     weights multinomial rejects *)
| AttributeError. (* int has no attribute backward *)

Definition result (A : Type) : Type := (exn + A)%type.

Definition ret {A : Type} (a : A) : result A := inr a.
Definition raise {A : Type} (e : exn) : result A := inl e.
Definition bind {A B : Type} (m : result A) (k : A -> result B) : result B :=
  match m with
  | inl e => inl e
  | inr a => k a
  end.

Notation "x <- m ;; k" := (bind m (fun x => k))
  (at level 61, m at next level, right associativity).
Notation "' pat <- m ;; k" := (bind m (fun x => match x with pat => k end))
  (at level 61, pat pattern, m at next level, right associativity).

Fixpoint mapM {A B : Type} (f : A -> result B) (l : list A) : result (list B) :=
  match l with
  | [] => ret []
  | a :: l' => b <- f a ;; bs <- mapM f l' ;; ret (b :: bs)
  end.

Definition faults {A : Type} (m : result A) : Prop := exists e, m = inl e.

Definition result_map {A B : Type} (f : A -> B) (m : result A) : result B :=
  x <- m ;; ret (f x).

(* ------------------------------------------------------------------ *)
(** ** Python strings, lists and subscripts *)

Fixpoint chars (s : string) : list ascii :=
  match s with
  | EmptyString => []
  | String c s' => c :: chars s'
  end.

(** [s[i]] for a non-negative [i]. *)
Definition str_getitem (s : string) (i : nat) : result ascii :=
  match String.get i s with
  | Some c => ret c
  | None => raise IndexError
  end.

(** [s.find(c)] for a one-character needle: lowest index, or -1. *)
Fixpoint str_find_from (s : string) (c : ascii) (i : Z) : Z :=
  match s with
  | EmptyString => (-1)%Z
  | String d s' => if Ascii.eqb d c then i else str_find_from s' c (i + 1)%Z
  end.

Definition str_find (s : string) (c : ascii) : Z := str_find_from s c 0%Z.

(** [c in s] for a one-character needle. *)
Fixpoint str_contains (s : string) (c : ascii) : bool :=
  match s with
  | EmptyString => false
  | String d s' => Ascii.eqb d c || str_contains s' c
  end.

(** [l.index(x)] on a list of strings: first position, or ValueError. *)
Fixpoint list_index (l : list string) (x : string) : result nat :=
  match l with
  | [] => raise ValueError
  | y :: l' => if String.eqb y x then ret 0
               else i <- list_index l' x ;; ret (S i)
  end.

Fixpoint update_nth {A : Type} (l : list A) (i : nat) (x : A) : list A :=
  match l, i with
  | [], _ => []
  | _ :: l', O => x :: l'
  | a :: l', S i' => a :: update_nth l' i' x
  end.

(** Subscript normalisation shared by Python sequences and torch tensors:
    [i] in [0, n) is itself, [i] in [-n, 0) counts from the end, anything
    else is an IndexError. *)
Definition py_index (n : nat) (i : Z) : result nat :=
  let zn := Z.of_nat n in
  if ((0 <=? i) && (i <? zn))%Z then ret (Z.to_nat i)
  else if ((- zn <=? i) && (i <? 0))%Z then ret (Z.to_nat (zn + i))
  else raise IndexError.

(** [t[i]] *)
Definition tensor_getitem {A : Type} (t : list A) (i : Z) : result A :=
  k <- py_index (List.length t) i ;;
  match nth_error t k with
  | Some a => ret a
  | None => raise IndexError
  end.

(** [t[i] = x] *)
Definition tensor_setitem {A : Type} (t : list A) (i : Z) (x : A) : result (list A) :=
  k <- py_index (List.length t) i ;;
  ret (update_nth t k x).

(* ------------------------------------------------------------------ *)
(** ** Scalars and the torch runtime *)

Class Scalar (T : Type) : Type := {
  zero : T;
  one : T;
  add : T -> T -> T;
  sub : T -> T -> T;
  mul : T -> T -> T;
  div : T -> T -> T;
  neg : T -> T;
  exp : T -> T;
  log : T -> T;
  ltb : T -> T -> bool;
  of_nat : nat -> T
}.

Set Implicit Arguments.

(** The parameters of the three affine maps, as [rnn.parameters()] yields
    them: a weight of shape out x in and a bias of length out for each. *)
Record Params (T : Type) : Type := {
  W_i2h : nat -> nat -> T;  b_i2h : nat -> T;
  W_i2o : nat -> nat -> T;  b_i2o : nat -> T;
  W_o2o : nat -> nat -> T;  b_o2o : nat -> T
}.

Unset Implicit Arguments.

(** What the notebook takes from torch without defining it.  The random
    generator is a state [G]: [bernoulli p] draws one keep-bit of a dropout
    mask (true with probability 1 - p), [multinomial] draws an index from a
    vector of weights, or is [None] where [torch.multinomial] raises its
    RuntimeError: it rejects weights that hold a nan, an inf or a negative
    entry, or that sum to zero. *)
Class Random (T G : Type) : Type := {
  bernoulli : T -> G -> bool * G;
  multinomial : list T -> G -> option (nat * G)
}.

(** Autograd with the Adam optimizer: [adam_step] stands for
    [loss.backward(); optimizer.step()], a function of the optimizer state,
    the parameters and the whole computation that produced the loss (the
    example and the generator state it started from). *)
Class Optimizer (T G Opt : Type) : Type := {
  adam_step : Opt -> Params T -> list T -> list (list T) -> list Z -> G -> Opt * Params T
}.

(** The category list, read from the data directory when the notebook
    starts. *)
Class Dataset : Type := {
  all_categories : list string
}.

(* ------------------------------------------------------------------ *)
(** ** Vocabulary *)

Definition ascii_letters : string :=
  "abcdefghijklmnopqrstuvwxyzABCDEFGHIJKLMNOPQRSTUVWXYZ"%string.

Definition all_letters : string := (ascii_letters ++ " .,;'-")%string.

Definition n_letters : nat := String.length all_letters + 1.

Definition EOS : nat := n_letters - 1.

Definition in_alphabet (c : ascii) : bool := str_contains all_letters c.

Definition alphabet_string (line : string) : bool := forallb in_alphabet (chars line).

Definition n_categories `{Dataset} : nat := List.length all_categories.

(* ------------------------------------------------------------------ *)
(** ** Example encoder *)

Section Encoder.
Context {T : Type} `{Scalar T} `{Dataset}.

(** [torch.zeros(1, n)] *)
Definition zeros (n : nat) : list T := repeat zero n.

(** The row with a single [one] at index [k]. *)
Definition one_hot (n k : nat) : list T := update_nth (zeros n) k one.

Definition categoryTensor (category : string) : result (list T) :=
  li <- list_index all_categories category ;;
  let tensor := zeros n_categories in
  tensor_setitem tensor (Z.of_nat li) one.

(** The loop [for li in range(len(line))] over the remaining indices. *)
Fixpoint inputTensor_loop (line : string) (lis : list nat)
         (tensor : list (list T)) : result (list (list T)) :=
  match lis with
  | [] => ret tensor
  | li :: lis' =>
      letter <- str_getitem line li ;;
      row <- tensor_getitem tensor (Z.of_nat li) ;;
      row' <- tensor_setitem row (str_find all_letters letter) one ;;
      tensor' <- tensor_setitem tensor (Z.of_nat li) row' ;;
      inputTensor_loop line lis' tensor'
  end.

Definition inputTensor (line : string) : result (list (list T)) :=
  let tensor := repeat (zeros n_letters) (String.length line) in
  inputTensor_loop line (seq 0 (String.length line)) tensor.

Definition targetTensor (line : string) : result (list Z) :=
  letter_indexes <-
    mapM (fun li => c <- str_getitem line li ;; ret (str_find all_letters c))
         (seq 1 (String.length line - 1)) ;;
  ret (letter_indexes ++ [Z.of_nat n_letters - 1]%Z).

(** The slot of a symbol in an input row: its alphabet index, or the last
    slot when [find] answers -1. *)
Definition letter_slot (c : ascii) : nat :=
  if in_alphabet c then Z.to_nat (str_find all_letters c) else n_letters - 1.

End Encoder.

(* ------------------------------------------------------------------ *)
(** ** Recurrent cell *)

Set Implicit Arguments.

(** [nn.Linear(in_features, out_features)] *)
Record Linear (T : Type) : Type := {
  in_features : nat;
  out_features : nat;
  weight : nat -> nat -> T;
  bias : nat -> T
}.

(** [class RNN(nn.Module)].  [training] is the flag every [nn.Module]
    carries; [nn.Module.__init__] sets it and only [eval()] or
    [train(False)] clear it. *)
Record RNN (T : Type) : Type := {
  cat_size : nat;
  input_size : nat;
  hidden_size : nat;
  output_size : nat;
  i2h : Linear T;
  i2o : Linear T;
  o2o : Linear T;
  dropout : T;
  training : bool
}.

Unset Implicit Arguments.

Section Cell.
Context {T G : Type} `{Scalar T} `{Random T G}.

Definition sum_list (l : list T) : T := fold_left add l zero.

(** Row [w] of a weight matrix against the input [x]. *)
Definition dot (n : nat) (w : nat -> T) (x : list T) : T :=
  sum_list (map (fun i => mul (nth i x zero) (w i)) (seq 0 n)).

(** [F.linear(x, weight, bias)]; torch raises on a size mismatch. *)
Definition Linear_forward (l : Linear T) (x : list T) : result (list T) :=
  if List.length x =? in_features l
  then ret (map (fun j => add (dot (in_features l) (weight l j) x) (bias l j))
                (seq 0 (out_features l)))
  else raise RuntimeError.

(** A dropout mask of [n] keep-bits drawn from the generator. *)
Fixpoint bernoulli_mask (p : T) (n : nat) (g : G) : list bool * G :=
  match n with
  | O => ([], g)
  | S n' => let '(b, g1) := bernoulli p g in
            let '(bs, g2) := bernoulli_mask p n' g1 in
            (b :: bs, g2)
  end.

(** The noise tensor of [F.dropout]: [bernoulli(1 - p) / (1 - p)]. *)
Definition noise (p : T) (keep : bool) : T :=
  div (if keep then one else zero) (sub one p).

Definition apply_mask (p : T) (x : list T) (mask : list bool) : list T :=
  map (fun xb => mul (fst xb) (noise p (snd xb))) (combine x mask).

(** [nn.Dropout(p)] for a rate strictly between 0 and 1 (the notebook keeps
    the default 0.1): the identity unless the module is in training mode. *)
Definition Dropout (p : T) (train_mode : bool) (x : list T) (g : G) : list T * G :=
  if train_mode
  then let '(mask, g') := bernoulli_mask p (List.length x) g in (apply_mask p x mask, g')
  else (x, g).

(** [nn.LogSoftmax(dim=-1)]: each entry minus the log of the summed
    exponentials. *)
Definition LogSoftmax (x : list T) : list T :=
  let lse := log (sum_list (map exp x)) in
  map (fun xi => sub xi lse) x.

Definition RNN_init (cat_sz input_sz hidden_sz output_sz : nat) (p : T)
           (theta : Params T) : RNN T :=
  {| cat_size := cat_sz;
     input_size := input_sz;
     hidden_size := hidden_sz;
     output_size := output_sz;
     i2h := {| in_features := cat_sz + input_sz + hidden_sz; out_features := hidden_sz;
               weight := W_i2h theta; bias := b_i2h theta |};
     i2o := {| in_features := cat_sz + input_sz + hidden_sz; out_features := output_sz;
               weight := W_i2o theta; bias := b_i2o theta |};
     o2o := {| in_features := output_sz + hidden_sz; out_features := output_sz;
               weight := W_o2o theta; bias := b_o2o theta |};
     dropout := p;
     training := true |}.

Definition forward (rnn : RNN T) (cat input hidden : list T) (g : G)
  : result (list T * list T * G) :=
  let input_combined := cat ++ input ++ hidden in
  hidden' <- Linear_forward (i2h rnn) input_combined ;;
  output <- Linear_forward (i2o rnn) input_combined ;;
  let output_combined := output ++ hidden' in
  output <- Linear_forward (o2o rnn) output_combined ;;
  let '(output, g') := Dropout (dropout rnn) (training rnn) output g in
  let output := LogSoftmax output in
  ret (output, hidden', g').

Definition init_hidden (rnn : RNN T) : list T := zeros (hidden_size rnn).

(** [rnn.eval()], which switches dropout off; the notebook never calls it. *)
Definition eval_mode (rnn : RNN T) : RNN T :=
  {| cat_size := cat_size rnn;
     input_size := input_size rnn;
     hidden_size := hidden_size rnn;
     output_size := output_size rnn;
     i2h := i2h rnn;
     i2o := i2o rnn;
     o2o := o2o rnn;
     dropout := dropout rnn;
     training := false |}.

(** [out] is what one call of the cell returned as log-probabilities. *)
Definition cell_call (rnn : RNN T) (cat : list T) (out : list T) : Prop :=
  exists input hidden g hidden' g',
    List.length input = input_size rnn /\
    List.length hidden = hidden_size rnn /\
    forward rnn cat input hidden g = ret (out, hidden', g').

(** [rnn.parameters()] and the optimizer's in-place update of them. *)
Definition parameters (rnn : RNN T) : Params T :=
  {| W_i2h := weight (i2h rnn); b_i2h := bias (i2h rnn);
     W_i2o := weight (i2o rnn); b_i2o := bias (i2o rnn);
     W_o2o := weight (o2o rnn); b_o2o := bias (o2o rnn) |}.

Definition set_weights (l : Linear T) (w : nat -> nat -> T) (b : nat -> T) : Linear T :=
  {| in_features := in_features l; out_features := out_features l;
     weight := w; bias := b |}.

Definition load_parameters (rnn : RNN T) (theta : Params T) : RNN T :=
  {| cat_size := cat_size rnn;
     input_size := input_size rnn;
     hidden_size := hidden_size rnn;
     output_size := output_size rnn;
     i2h := set_weights (i2h rnn) (W_i2h theta) (b_i2h theta);
     i2o := set_weights (i2o rnn) (W_i2o theta) (b_i2o theta);
     o2o := set_weights (o2o rnn) (W_o2o theta) (b_o2o theta);
     dropout := dropout rnn;
     training := training rnn |}.

(** The affine part of one step, as the specification writes it:
    [z = concat(c, x, h)], the pair [(o2o(concat(i2o z, i2h z)), i2h z)]. *)
Definition cell_affine (rnn : RNN T) (c x h : list T) : result (list T * list T) :=
  let z := c ++ x ++ h in
  hz <- Linear_forward (i2h rnn) z ;;
  oz <- Linear_forward (i2o rnn) z ;;
  o <- Linear_forward (o2o rnn) (oz ++ hz) ;;
  ret (o, hz).

(** The layer sizes [RNN.__init__] gives the three maps. *)
Definition shaped (rnn : RNN T) : Prop :=
  in_features (i2h rnn) = cat_size rnn + input_size rnn + hidden_size rnn /\
  out_features (i2h rnn) = hidden_size rnn /\
  in_features (i2o rnn) = cat_size rnn + input_size rnn + hidden_size rnn /\
  out_features (i2o rnn) = output_size rnn /\
  in_features (o2o rnn) = output_size rnn + hidden_size rnn /\
  out_features (o2o rnn) = output_size rnn.

End Cell.

(* ------------------------------------------------------------------ *)
(** ** Trainer and sampler *)

Section Notebook.
Context {T G Opt : Type} `{Scalar T} `{Random T G} `{Optimizer T G Opt} `{Dataset}.

(** The negative log-likelihood of class [k] under log-probabilities
    [output]. *)
Definition nll (output : list T) (k : nat) : T := neg (nth k output zero).

(** [nn.NLLLoss()] on a 1 x A input and a one-entry target: torch asserts
    the target is a class index unless it is [ignore_index] (-100). *)
Definition NLLLoss (output : list T) (target : Z) : result T :=
  if (target =? -100)%Z then ret zero
  else if ((0 <=? target) && (target <? Z.of_nat (List.length output)))%Z
       then ret (nll output (Z.to_nat target))
       else raise RuntimeError.

(** The notebook's global state: the model, its optimizer, torch's random
    generator. *)
Record notebook : Type := {
  rnn : RNN T;
  optimizer : Opt;
  gen : G
}.

(** The local variables of [train]; [t_output] is unbound before the first
    iteration. *)
Record train_vars : Type := {
  t_output : option (list T);
  t_hidden : list T;
  t_loss : T;
  t_gen : G
}.

(** [for i in range(target_t.size()[0])] over the remaining indices. *)
Fixpoint train_loop (net : RNN T) (cat_t : list T) (input_t : list (list T))
         (target_t : list Z) (indices : list nat) (v : train_vars) : result train_vars :=
  match indices with
  | [] => ret v
  | i :: rest =>
      row <- tensor_getitem input_t (Z.of_nat i) ;;
      ' (output, hidden, g) <- forward net cat_t row (t_hidden v) (t_gen v) ;;
      target <- tensor_getitem target_t (Z.of_nat i) ;;
      l <- NLLLoss output target ;;
      train_loop net cat_t input_t target_t rest
        {| t_output := Some output; t_hidden := hidden;
           t_loss := add (t_loss v) l; t_gen := g |}
  end.

Definition train (nb : notebook) (cat_t : list T) (input_t : list (list T))
           (target_t : list Z) : result (list T * T * notebook) :=
  let hidden := init_hidden (rnn nb) in
  let n := List.length target_t in
  v <- train_loop (rnn nb) cat_t input_t target_t (seq 0 n)
         {| t_output := None; t_hidden := hidden; t_loss := zero; t_gen := gen nb |} ;;
  match t_output v with
  | None => raise AttributeError   (* loss is still the int 0 *)
  | Some output =>
      let '(opt', theta') :=
        adam_step (optimizer nb) (parameters (rnn nb)) cat_t input_t target_t (gen nb) in
      ret (output, div (t_loss v) (of_nat n),
           {| rnn := load_parameters (rnn nb) theta'; optimizer := opt'; gen := t_gen v |})
  end.

(** [random_training_example] once the random (category, line) pair is
    drawn. *)
Definition training_example (category line : string)
  : result (list T * list (list T) * list Z) :=
  category_tensor <- categoryTensor category ;;
  input_line_tensor <- inputTensor line ;;
  target_line_tensor <- targetTensor line ;;
  ret (category_tensor, input_line_tensor, target_line_tensor).

(** One pass of the main loop: [train( *random_training_example())]. *)
Definition train_step (nb : notebook) (category line : string)
  : result (list T * T * notebook) :=
  ' (cat_t, input_t, target_t) <- training_example category line ;;
  train nb cat_t input_t target_t.


(** The model the notebook builds: [RNN(n_categories, n_letters, 128,
    n_letters)], dropout left at its default 0.1. *)
Definition notebook_rnn (theta : Params T) : RNN T :=
  RNN_init n_categories n_letters 128 n_letters (div one (of_nat 10)) theta.

(** The sizes of the notebook's model: what [notebook_rnn] builds and the
    optimizer's updates keep. *)
Definition notebook_model (net : RNN T) : Prop :=
  shaped net /\
  cat_size net = n_categories /\
  input_size net = n_letters /\
  output_size net = n_letters.

(** *** Specification side of the training step *)

(** The cell's outputs along the input rows, hidden state and generator
    threaded from one position to the next. *)
Fixpoint unroll (net : RNN T) (cat_t : list T) (rows : list (list T))
         (hidden : list T) (g : G) : result (list (list T) * list T * G) :=
  match rows with
  | [] => ret ([], hidden, g)
  | row :: rows' =>
      ' (output, hidden', g') <- forward net cat_t row hidden g ;;
      ' (outputs, hidden'', g'') <- unroll net cat_t rows' hidden' g' ;;
      ret (output :: outputs, hidden'', g'')
  end.

Definition summed_nll (outputs : list (list T)) (targets : list Z) : T :=
  sum_list (map (fun ot => nll (fst ot) (Z.to_nat (snd ot))) (combine outputs targets)).

Definition mean_nll (outputs : list (list T)) (targets : list Z) : T :=
  div (summed_nll outputs targets) (of_nat (List.length targets)).

(** *** Sampler *)

Definition max_length : nat := 20.

(** The two ways the notebook picks the next index: the multinomial draw,
    or the commented alternative [output.data.topk(1)]. *)
Inductive decoding : Set := Stochastic | Greedy.

Fixpoint argmax_from (l : list T) (i best : nat) (best_v : T) : nat :=
  match l with
  | [] => best
  | x :: l' => if ltb best_v x then argmax_from l' (S i) i x
               else argmax_from l' (S i) best best_v
  end.

(** The index [topk(1)] returns.  Among several equal maxima torch does
    not say which one it returns; this is the first of them. *)
Definition topk1 (l : list T) : result nat :=
  match l with
  | [] => raise RuntimeError
  | x :: l' => ret (argmax_from l' 1 0 x)
  end.

Definition draw (pol : decoding) (output : list T) (g : G) : result (nat * G) :=
  match pol with
  | Stochastic => let output_dist := map exp output in
                  match multinomial output_dist g with
                  | Some drawn => ret drawn
                  | None => raise RuntimeError
                  end
  | Greedy => topi <- topk1 output ;; ret (topi, g)
  end.

(** The local variables of [sample]; [s_trace] is a ghost record of every
    cell call made so far: the log-probabilities it returned and the index
    drawn from them. *)
Record sample_vars : Type := {
  s_input : list (list T);
  s_hidden : list T;
  s_name : string;
  s_gen : G;
  s_trace : list (list T * nat)
}.

(** [for i in range(max_length)] with [n] iterations left. *)
Fixpoint sample_loop (pol : decoding) (net : RNN T) (category_tensor : list T)
         (n : nat) (v : sample_vars) : result sample_vars :=
  match n with
  | O => ret v
  | S n' =>
      row <- tensor_getitem (s_input v) 0 ;;
      ' (output, hidden, g) <- forward net category_tensor row (s_hidden v) (s_gen v) ;;
      ' (topi, g') <- draw pol output g ;;
      let trace := s_trace v ++ [(output, topi)] in
      if topi =? n_letters - 1
      then ret {| s_input := s_input v; s_hidden := hidden; s_name := s_name v;
                  s_gen := g'; s_trace := trace |}
      else
        letter <- str_getitem all_letters topi ;;
        let output_name := (s_name v ++ String letter EmptyString)%string in
        input <- inputTensor (String letter EmptyString) ;;
        sample_loop pol net category_tensor n'
          {| s_input := input; s_hidden := hidden; s_name := output_name;
             s_gen := g'; s_trace := trace |}
  end.

Definition sample_run (pol : decoding) (net : RNN T) (g : G)
           (category start_letter : string) : result sample_vars :=
  category_tensor <- categoryTensor category ;;
  input <- inputTensor start_letter ;;
  let hidden := init_hidden net in
  sample_loop pol net category_tensor max_length
    {| s_input := input; s_hidden := hidden; s_name := start_letter;
       s_gen := g; s_trace := [] |}.

Definition sample (pol : decoding) (net : RNN T) (g : G)
           (category start_letter : string) : result (string * G) :=
  v <- sample_run pol net g category start_letter ;;
  ret (s_name v, s_gen v).

(** *** Specification side of the sampler *)

(** The cell steps of one sampling run as the specification words them: at
    most [n] of them, the first on the row of the start symbol and the
    initial hidden state, each later one on the one-hot row of the index
    drawn before and on the hidden state the step before returned; the run
    ends with the first draw of the end marker.  The result is the list of
    steps, each with the log-probabilities the cell returned and the index
    drawn from them.  An index beyond the end marker has no letter. *)
Fixpoint sample_calls (pol : decoding) (net : RNN T) (category_tensor : list T)
         (n : nat) (row hidden : list T) (g : G)
  : result (list (list T * nat) * G) :=
  match n with
  | O => ret ([], g)
  | S n' =>
      ' (output, hidden', g1) <- forward net category_tensor row hidden g ;;
      ' (topi, g2) <- draw pol output g1 ;;
      if topi =? EOS then ret ([(output, topi)], g2)
      else if topi <? EOS
      then
        ' (calls, g3) <- sample_calls pol net category_tensor n'
                           (one_hot n_letters topi) hidden' g2 ;;
        ret ((output, topi) :: calls, g3)
      else raise IndexError
  end.

(** The string built from alphabet indices. *)
Fixpoint letters_of (idxs : list nat) : string :=
  match idxs with
  | [] => EmptyString
  | i :: rest =>
      match String.get i all_letters with
      | Some c => String c (letters_of rest)
      | None => letters_of rest
      end
  end.

End Notebook.

(* ------------------------------------------------------------------ *)
(** ** A concrete run-time: real scalars, a tape generator, the name data *)

Definition R_ltb (a b : R) : bool := if Rlt_dec a b then true else false.

Definition R_scalar : Scalar R :=
  {| zero := 0%R; one := 1%R;
     add := Rplus; sub := Rminus; mul := Rmult; div := Rdiv; neg := Ropp;
     exp := Rtrigo_def.exp; log := ln;
     ltb := R_ltb; of_nat := INR |}.

(** A generator that replays a tape: keep-bits for the dropout masks (every
    bit after the tape's end keeps), and raw draws for [multinomial], each
    reduced into the range of the distribution (the last index after the
    tape's end).  It rejects the empty distribution; over the reals the
    weights it is handed are exponentials, so there is no nan, inf or
    negative entry to reject. *)
Definition tape : Type := (list bool * list nat)%type.

Definition tape_bernoulli (p : R) (g : tape) : bool * tape :=
  match fst g with
  | [] => (true, g)
  | b :: bs => (b, (bs, snd g))
  end.

Definition tape_draw {A : Type} (d : list A) (g : tape) : nat * tape :=
  match snd g with
  | [] => (List.length d - 1, g)
  | k :: ks => (k mod List.length d, (fst g, ks))
  end.

Definition tape_multinomial (d : list R) (g : tape) : option (nat * tape) :=
  match d with
  | [] => None
  | _ :: _ => Some (tape_draw d g)
  end.

Definition tape_random : Random R tape :=
  {| bernoulli := tape_bernoulli; multinomial := tape_multinomial |}.

(** An optimizer that leaves the parameters where they are. *)
Definition still_optimizer : Optimizer R tape unit :=
  {| adam_step := fun opt theta _ _ _ _ => (opt, theta) |}.

(** The categories the notebook printed when it ran. *)
Definition names_dataset : Dataset :=
  {| all_categories :=
       [ "Czech"; "German"; "Arabic"; "Japanese"; "Chinese"; "Vietnamese";
         "Russian"; "French"; "Irish"; "English"; "Spanish"; "Greek";
         "Italian"; "Portuguese"; "Scottish"; "Dutch"; "Korean"; "Polish" ]%string |}.

(** Parameters with all weights zero: the projected output is the bias of
    [o2o], here 1 at the slot of the letter a, 1/2 at the end marker. *)
Definition bias_theta : Params R :=
  {| W_i2h := fun _ _ => 0%R;  b_i2h := fun _ => 0%R;
     W_i2o := fun _ _ => 0%R;  b_i2o := fun _ => 0%R;
     W_o2o := fun _ _ => 0%R;
     b_o2o := fun j => if j =? 0 then 1%R else if j =? EOS then (1/2)%R else 0%R |}.

Definition bias_rnn : RNN R :=
  @notebook_rnn R R_scalar names_dataset bias_theta.

(** Two generator states: one keeps every activation, the other drops the
    first activation of the first mask. *)
Definition keep_all : tape := ([], []).
Definition drop_first : tape := ([false], []).

(** The projected output of [bias_rnn] before dropout, whatever the input. *)
Definition bias_logits : list R := map (b_o2o bias_theta) (seq 0 n_letters).

(** The hidden vector [bias_rnn] returns, whatever the input. *)
Definition bias_hidden : list R := map (b_i2h bias_theta) (seq 0 128).

(** Example inputs of the cell: the category Russian, the letter A, the
    initial hidden state. *)
Definition russian_t : list R := @one_hot R R_scalar 18 6.
Definition letter_A_t : list R := @one_hot R R_scalar n_letters 26.
Definition hidden0 : list R := @zeros R R_scalar 128.

Definition bias_notebook (g : tape) : @notebook R tape unit :=
  {| rnn := bias_rnn; optimizer := tt; gen := g |}.

(** *** Scalars with a not-a-number value *)

(** The reals with one more value, [None], for the nan of floating point:
    every operation on a nan gives nan, every comparison with a nan is
    false, and so are a division by zero and the logarithm of a number
    that is not positive. *)
Definition nan_op2 (f : R -> R -> R) (a b : option R) : option R :=
  match a, b with
  | Some x, Some y => Some (f x y)
  | _, _ => None
  end.

Definition nan_div (a b : option R) : option R :=
  match a, b with
  | Some x, Some y => if Req_EM_T y 0 then None else Some (x / y)%R
  | _, _ => None
  end.

Definition nan_log (a : option R) : option R :=
  match a with
  | Some x => if Rlt_dec 0 x then Some (ln x) else None
  | None => None
  end.

Definition nan_ltb (a b : option R) : bool :=
  match a, b with
  | Some x, Some y => R_ltb x y
  | _, _ => false
  end.

Definition nan_scalar : Scalar (option R) :=
  {| zero := Some 0%R; one := Some 1%R;
     add := nan_op2 Rplus; sub := nan_op2 Rminus; mul := nan_op2 Rmult;
     div := nan_div; neg := option_map Ropp;
     exp := option_map Rtrigo_def.exp; log := nan_log;
     ltb := nan_ltb; of_nat := fun n => Some (INR n) |}.

Definition is_number (a : option R) : bool :=
  match a with
  | Some _ => true
  | None => false
  end.

(** The tape generator on these scalars: [multinomial] rejects weights
    that hold a nan or a negative entry, as torch does. *)
Definition nan_multinomial (d : list (option R)) (g : tape) : option (nat * tape) :=
  match d with
  | [] => None
  | _ :: _ =>
      if forallb (fun w => is_number w && negb (nan_ltb w (Some 0%R))) d
      then Some (tape_draw d g)
      else None
  end.

Definition nan_random : Random (option R) tape :=
  {| bernoulli := fun _ g => tape_bernoulli 0%R g; multinomial := nan_multinomial |}.

(** The parameters of a model whose training diverged: every one is nan. *)
Definition nan_theta : Params (option R) :=
  {| W_i2h := fun _ _ => None;  b_i2h := fun _ => None;
     W_i2o := fun _ _ => None;  b_i2o := fun _ => None;
     W_o2o := fun _ _ => None;  b_o2o := fun _ => None |}.

Definition nan_rnn : RNN (option R) :=
  @notebook_rnn (option R) nan_scalar names_dataset nan_theta.

(* ------------------------------------------------------------------ *)
(** ** Loading the data, drawing examples, the main loop *)

(** The set-up code and the main loop can fail in more ways than the code
    above: on a missing dictionary key, on a zero modulus, and on a file
    that cannot be opened ([OSError], which stands for its subclasses too:
    FileNotFoundError, IsADirectoryError, PermissionError) or whose bytes
    the locale's codec cannot decode. *)
Inductive py_fault : Set :=
| Raised (e : exn)
| KeyError
| ZeroDivisionError
| OSError
| UnicodeDecodeError.

Definition outcome (A : Type) : Type := (py_fault + A)%type.

Definition done {A : Type} (a : A) : outcome A := inr a.
Definition throw {A : Type} (f : py_fault) : outcome A := inl f.

Definition lift {A : Type} (m : result A) : outcome A :=
  match m with
  | inl e => inl (Raised e)
  | inr a => inr a
  end.

Definition and_then {A B : Type} (m : outcome A) (k : A -> outcome B) : outcome B :=
  match m with
  | inl f => inl f
  | inr a => k a
  end.

Notation "x <~ m ;; k" := (and_then m (fun x => k))
  (at level 61, m at next level, right associativity).
Notation "' pat <~ m ;; k" := (and_then m (fun x => match x with pat => k end))
  (at level 61, pat pattern, m at next level, right associativity).

(** *** More of Python's strings *)

(** [''.join(cs)] *)
Fixpoint unchars (cs : list ascii) : string :=
  match cs with
  | [] => EmptyString
  | c :: cs' => String c (unchars cs')
  end.

(** [c.isspace()], for the characters a byte can hold. *)
Definition py_isspace (c : ascii) : bool :=
  let n := nat_of_ascii c in
  ((9 <=? n) && (n <=? 13)) || ((28 <=? n) && (n <=? 32)) || (n =? 133) || (n =? 160).

Fixpoint str_lstrip (s : string) : string :=
  match s with
  | EmptyString => EmptyString
  | String c s' => if py_isspace c then str_lstrip s' else s
  end.

Fixpoint str_rstrip (s : string) : string :=
  match s with
  | EmptyString => EmptyString
  | String c s' =>
      match str_rstrip s' with
      | EmptyString => if py_isspace c then EmptyString else String c EmptyString
      | r => String c r
      end
  end.

(** [s.strip()] *)
Definition str_strip (s : string) : string := str_rstrip (str_lstrip s).

(** [s.split(sep)] for a one-character separator: never an empty list. *)
Fixpoint str_split (sep : ascii) (s : string) : list string :=
  match s with
  | EmptyString => [EmptyString]
  | String c s' =>
      if Ascii.eqb c sep then EmptyString :: str_split sep s'
      else match str_split sep s' with
           | [] => [String c EmptyString]
           | w :: ws => String c w :: ws
           end
  end.

Definition newline : ascii := "010"%char.

(** What the notebook takes from [unicodedata]: the NFD normal form of a
    string, and whether a character is a non-spacing mark. *)
Class Unicode : Type := {
  normalize_NFD : string -> string;
  is_Mn : ascii -> bool
}.

(** The data directory: the names [glob.glob] returns, and for each name
    what [open(filename).read()] does, which is to return the decoded text
    or to raise. *)
Class Files : Type := {
  glob_names : list string;
  file_text : string -> outcome string
}.

(** A Python dict from category to lines, in insertion order. *)
Definition dict : Type := list (string * list string).

(** [d[k] = v] *)
Fixpoint dict_set (d : dict) (k : string) (v : list string) : dict :=
  match d with
  | [] => [(k, v)]
  | (k', v') :: d' => if String.eqb k' k then (k, v) :: d'
                      else (k', v') :: dict_set d' k v
  end.

(** [d[k]] *)
Fixpoint dict_get (d : dict) (k : string) : outcome (list string) :=
  match d with
  | [] => throw KeyError
  | (k', v') :: d' => if String.eqb k' k then done v' else dict_get d' k
  end.

(** The two globals the loading cell builds. *)
Record corpus : Type := {
  category_lines : dict;
  corpus_categories : list string
}.

Definition corpus_dataset (st : corpus) : Dataset :=
  {| all_categories := corpus_categories st |}.

(** What the training code needs of the two globals: every listed category
    has its entry in the dictionary, and every entry is a non-empty list of
    lines over the alphabet. *)
Definition well_loaded (st : corpus) : Prop :=
  (forall category, In category (corpus_categories st) ->
     exists lines, dict_get (category_lines st) category = done lines) /\
  (forall category lines, dict_get (category_lines st) category = done lines ->
     lines <> [] /\ Forall (fun line => alphabet_string line = true) lines).

(** How often [sep] occurs in [s]. *)
Definition str_count (sep : ascii) (s : string) : nat :=
  List.length (filter (Ascii.eqb sep) (chars s)).

Section Loading.
Context `{Unicode} `{Files}.

Definition unicode_to_ascii (s : string) : string :=
  unchars (filter (fun c => negb (is_Mn c) && in_alphabet c) (chars (normalize_NFD s))).

Definition read_lines (filename : string) : outcome (list string) :=
  text <~ file_text filename ;;
  let lines := str_split newline (str_strip text) in
  done (map unicode_to_ascii lines).

(** [filename.split('/')[-1].split('.')[0]] *)
Definition category_of (filename : string) : result string :=
  base <- tensor_getitem (str_split "/" filename) (-1) ;;
  tensor_getitem (str_split "." base) 0.

(** [for filename in glob.glob(...)] over the remaining names. *)
Fixpoint load_loop (filenames : list string) (st : corpus) : outcome corpus :=
  match filenames with
  | [] => done st
  | filename :: rest =>
      category <~ lift (category_of filename) ;;
      let categories := corpus_categories st ++ [category] in
      lines <~ read_lines filename ;;
      load_loop rest {| category_lines := dict_set (category_lines st) category lines;
                        corpus_categories := categories |}
  end.

Definition load_corpus : outcome corpus :=
  load_loop glob_names {| category_lines := []; corpus_categories := [] |}.

End Loading.

(** Python's own random generator, a state [P]: [randbelow n] draws an
    index below [n]. *)
Class PyRandom (P : Type) : Type := {
  randbelow : nat -> P -> nat * P
}.

(** The three settings of the main loop. *)
Class Settings : Type := {
  n_steps : nat;
  print_every : nat;
  plot_every : nat
}.

Section MainLoop.
Context {T G Opt P : Type} `{Scalar T} `{Random T G} `{Optimizer T G Opt}
        `{PyRandom P} `{Settings}.

(** [random.choice(seq)] *)
Definition choice {A : Type} (l : list A) (p : P) : result (A * P) :=
  match l with
  | [] => raise IndexError
  | _ :: _ =>
      let '(i, p') := randbelow (List.length l) p in
      x <- tensor_getitem l (Z.of_nat i) ;;
      ret (x, p')
  end.

Definition random_training_pair (st : corpus) (p : P) : outcome (string * string * P) :=
  ' (category, p1) <~ lift (choice (corpus_categories st) p) ;;
  lines <~ dict_get (category_lines st) category ;;
  ' (line, p2) <~ lift (choice lines p1) ;;
  done (category, line, p2).

Definition random_training_example (st : corpus) (p : P)
  : outcome (list T * list (list T) * list Z * P) :=
  ' (category, line, p') <~ random_training_pair st p ;;
  category_tensor <~ lift (@categoryTensor T _ (corpus_dataset st) category) ;;
  input_line_tensor <~ lift (inputTensor line) ;;
  target_line_tensor <~ lift (targetTensor line) ;;
  done (category_tensor, input_line_tensor, target_line_tensor, p').

(** [a % b] on non-negative integers. *)
Definition py_mod (a b : nat) : outcome nat :=
  if b =? 0 then throw ZeroDivisionError else done (a mod b).

(** The variables of the main loop.  [l_printed] stands for the lines
    printed, each by its step and loss (the elapsed time and the percentage
    in front come from the clock and the step); [l_losses] is a ghost
    record of the loss every step reported. *)
Record loop_vars : Type := {
  l_nb : @notebook T G Opt;
  l_py : P;
  l_loss_avg : T;
  l_all_losses : list T;
  l_printed : list (nat * T);
  l_losses : list T
}.

(** [for step in range(1, n_steps + 1)] over the remaining steps. *)
Fixpoint training_loop (st : corpus) (steps : list nat) (v : loop_vars)
  : outcome loop_vars :=
  match steps with
  | [] => done v
  | step :: rest =>
      ' (cat_t, input_t, target_t, py) <~ random_training_example st (l_py v) ;;
      ' (output, loss, nb) <~ lift (train (l_nb v) cat_t input_t target_t) ;;
      let loss_avg := add (l_loss_avg v) loss in
      r <~ py_mod step print_every ;;
      let printed := if r =? 0 then l_printed v ++ [(step, loss)] else l_printed v in
      r' <~ py_mod step plot_every ;;
      let all_losses := if r' =? 0
                        then l_all_losses v ++ [div loss_avg (of_nat plot_every)]
                        else l_all_losses v in
      let loss_avg := if r' =? 0 then zero else loss_avg in
      training_loop st rest
        {| l_nb := nb; l_py := py; l_loss_avg := loss_avg;
           l_all_losses := all_losses; l_printed := printed;
           l_losses := l_losses v ++ [loss] |}
  end.

Definition run_training (st : corpus) (nb : @notebook T G Opt) (p : P)
  : outcome loop_vars :=
  training_loop st (seq 1 n_steps)
    {| l_nb := nb; l_py := p; l_loss_avg := zero; l_all_losses := [];
       l_printed := []; l_losses := [] |}.

(** The losses of the [k]-th stretch of [p] steps. *)
Definition window (k p : nat) (losses : list T) : list T :=
  firstn p (skipn (k * p) losses).

(** The mean the loop appends for the [k]-th stretch. *)
Definition window_mean (losses : list T) (k : nat) : T :=
  div (sum_list (window k plot_every losses)) (of_nat plot_every).

(** What the bookkeeping of the main loop holds after [k] steps. *)
Definition loop_invariant (k : nat) (v : loop_vars) : Prop :=
  List.length (l_losses v) = k /\
  l_all_losses v = map (window_mean (l_losses v)) (seq 0 (k / plot_every)) /\
  l_loss_avg v = sum_list (skipn (k / plot_every * plot_every) (l_losses v)) /\
  map fst (l_printed v) = filter (fun s => s mod print_every =? 0) (seq 1 k).

End MainLoop.

(** The values the notebook gives the settings. *)
Definition notebook_settings : Settings :=
  {| n_steps := 100 * 100; print_every := 500; plot_every := 500 |}.

Section Samples.
Context {T G : Type} `{Scalar T} `{Random T G} `{Dataset}.

(** [for start_letter in start_letters: print(sample(category,
    start_letter))], the printed names collected in order. *)
Fixpoint samples_loop (pol : decoding) (net : RNN T) (category : string)
         (letters : list ascii) (g : G) (printed : list string)
  : result (list string * G) :=
  match letters with
  | [] => ret (printed, g)
  | c :: rest =>
      ' (name, g') <- sample pol net g category (String c EmptyString) ;;
      samples_loop pol net category rest g' (printed ++ [name])
  end.

Definition samples (pol : decoding) (net : RNN T) (g : G)
           (category start_letters : string) : result (list string * G) :=
  samples_loop pol net category (chars start_letters) g [].

(** What a sampled name looks like: a start symbol and at most
    [max_length] letters of indices below the end marker. *)
Definition sampled_from (c : ascii) (name : string) : Prop :=
  exists pre : list nat,
    Forall (fun i => i < EOS) pre /\
    List.length pre <= max_length /\
    name = String c (letters_of pre).

End Samples.

(** *** A small data directory to run the set-up code on *)

(** No normalisation and no marks: enough for plain ASCII names. *)
Definition ascii_unicode : Unicode :=
  {| normalize_NFD := fun s => s; is_Mn := fun _ => false |}.

Definition two_files : Files :=
  {| glob_names := ["../data/names/Russian.txt"; "../data/names/Irish.txt"]%string;
     file_text := fun filename =>
       if String.eqb filename "../data/names/Russian.txt"
       then done (String "A" (String "n" (String "n" (String newline
                   (String "I" (String "v" (String "a" (String "n" (String newline
                      EmptyString)))))))))
       else if String.eqb filename "../data/names/Irish.txt"
       then done (String "O" (String "'" (String "N" (String "e" (String "a"
                   (String "l" (String newline EmptyString)))))))
       else throw OSError |}.

(** The same directory when the bytes of the second file cannot be
    decoded, as under a C locale for a file with accented names. *)
Definition undecodable_files : Files :=
  {| glob_names := ["../data/names/Russian.txt"; "../data/names/Irish.txt"]%string;
     file_text := fun filename =>
       if String.eqb filename "../data/names/Russian.txt"
       then file_text (Files := two_files) filename
       else throw UnicodeDecodeError |}.

Definition two_corpus : corpus :=
  {| category_lines := [("Russian", ["Ann"; "Ivan"]); ("Irish", ["O'Neal"])]%string;
     corpus_categories := ["Russian"; "Irish"]%string |}.

(** A Python generator that replays a tape of raw draws, each reduced below
    the bound (0 after the tape's end). *)
Definition tape_randbelow (n : nat) (p : list nat) : nat * list nat :=
  match p with
  | [] => (0, [])
  | k :: ks => (k mod n, ks)
  end.

Definition tape_pyrandom : PyRandom (list nat) :=
  {| randbelow := tape_randbelow |}.

Definition small_settings : Settings :=
  {| n_steps := 4; print_every := 2; plot_every := 2 |}.

Definition two_rnn : RNN R :=
  @notebook_rnn R R_scalar (corpus_dataset two_corpus) bias_theta.

Definition two_notebook (g : tape) : @notebook R tape unit :=
  {| rnn := two_rnn; optimizer := tt; gen := g |}.

(* ------------------------------------------------------------------ *)
(** ** Facts about the error monad and Python subscripts *)

Lemma bind_inr_inv (A B : Type) (m : result A) (k : A -> result B) (b : B) :
  bind m k = inr b -> exists a, m = inr a /\ k a = inr b.
Proof.
  destruct m as [e | a]; simpl; intros E; [discriminate | eauto].
Qed.

Lemma mapM_total (A B : Type) (f : A -> result B) (g : A -> B) (l : list A) :
  (forall a, In a l -> f a = ret (g a)) -> mapM f l = ret (map g l).
Proof.
  induction l as [| a l IH]; intros Hf; simpl; [reflexivity |].
  rewrite (Hf a (or_introl eq_refl)). simpl.
  rewrite IH by (intros; apply Hf; now right). reflexivity.
Qed.

Lemma py_index_nat (n i : nat) : i < n -> py_index n (Z.of_nat i) = ret i.
Proof.
  intros Hi. unfold py_index.
  destruct (Z.leb_spec 0 (Z.of_nat i)); [| lia].
  destruct (Z.ltb_spec (Z.of_nat i) (Z.of_nat n)); [| lia].
  simpl. now rewrite Nat2Z.id.
Qed.

Lemma py_index_minus_one (n : nat) : 0 < n -> py_index n (-1) = ret (n - 1).
Proof.
  intros Hn. unfold py_index.
  destruct (Z.leb_spec 0 (-1)); [lia |].
  destruct (Z.leb_spec (- Z.of_nat n) (-1)); [| lia].
  simpl. f_equal. lia.
Qed.

Lemma update_nth_length (A : Type) (l : list A) (i : nat) (x : A) :
  List.length (update_nth l i x) = List.length l.
Proof.
  revert i; induction l as [| a l IH]; intros [| i]; simpl; auto.
Qed.

Lemma nth_update_nth (A : Type) (l : list A) (i j : nat) (x d : A) :
  i < List.length l ->
  nth j (update_nth l i x) d = if j =? i then x else nth j l d.
Proof.
  revert i j; induction l as [| a l IH]; intros i j Hi; simpl in Hi; [lia |].
  destruct i as [| i], j as [| j]; simpl; auto.
  apply IH; lia.
Qed.

Lemma update_nth_middle (A : Type) (l1 l2 : list A) (a x : A) :
  update_nth (l1 ++ a :: l2) (List.length l1) x = l1 ++ x :: l2.
Proof.
  induction l1 as [| b l1 IH]; simpl; [reflexivity | now rewrite IH].
Qed.

Lemma tensor_getitem_nat (A : Type) (t : list A) (i : nat) (a : A) :
  nth_error t i = Some a -> tensor_getitem t (Z.of_nat i) = ret a.
Proof.
  intros E. unfold tensor_getitem.
  rewrite py_index_nat by (apply nth_error_Some; congruence).
  simpl. now rewrite E.
Qed.

Lemma chars_length (s : string) : List.length (chars s) = String.length s.
Proof. induction s; simpl; auto. Qed.

Lemma get_chars (s : string) (i : nat) : String.get i s = nth_error (chars s) i.
Proof.
  revert i; induction s as [| c s IH]; intros [| i]; simpl; auto.
Qed.

Lemma str_getitem_chars (s : string) (i : nat) (c : ascii) :
  nth_error (chars s) i = Some c -> str_getitem s i = ret c.
Proof. intros E. unfold str_getitem. now rewrite get_chars, E. Qed.

Lemma str_find_from_absent (s : string) (c : ascii) (i : Z) :
  str_contains s c = false -> str_find_from s c i = (-1)%Z.
Proof.
  revert i; induction s as [| d s IH]; intros i; simpl; [reflexivity |].
  destruct (Ascii.eqb d c); simpl; [discriminate | auto].
Qed.

Lemma str_find_from_present (s : string) (c : ascii) (i : Z) :
  str_contains s c = true ->
  (i <= str_find_from s c i < i + Z.of_nat (String.length s))%Z /\
  String.get (Z.to_nat (str_find_from s c i - i)) s = Some c.
Proof.
  revert i; induction s as [| d s IH]; intros i; simpl; [discriminate |].
  destruct (Ascii.eqb_spec d c) as [-> | Hne]; simpl.
  - intros _. split; [lia |]. now rewrite Z.sub_diag.
  - intros Hc. destruct (IH (i + 1)%Z Hc) as [Hr Hg]. split; [lia |].
    replace (Z.to_nat (str_find_from s c (i + 1) - i))
      with (S (Z.to_nat (str_find_from s c (i + 1) - (i + 1)))) by lia.
    exact Hg.
Qed.

Lemma n_letters_eq : n_letters = 59.
Proof. reflexivity. Qed.

Lemma EOS_eq : EOS = 58.
Proof. reflexivity. Qed.

Lemma find_in_alphabet (c : ascii) :
  in_alphabet c = true ->
  (0 <= str_find all_letters c < Z.of_nat n_letters - 1)%Z /\
  String.get (Z.to_nat (str_find all_letters c)) all_letters = Some c.
Proof.
  intros Hc. destruct (str_find_from_present all_letters c 0 Hc) as [Hr Hg].
  unfold str_find. rewrite Z.sub_0_r in Hg. split; [| exact Hg].
  rewrite n_letters_eq. change (String.length all_letters) with 58 in Hr. lia.
Qed.

Lemma find_not_in_alphabet (c : ascii) :
  in_alphabet c = false -> str_find all_letters c = (-1)%Z.
Proof. apply str_find_from_absent. Qed.

(* ------------------------------------------------------------------ *)
(** ** The encoder *)

Section EncoderFacts.
Context {T : Type} `{Scalar T}.

Lemma zeros_length (n : nat) : List.length (zeros (T:=T) n) = n.
Proof. apply repeat_length. Qed.

Lemma nth_zeros (n j : nat) : nth j (zeros (T:=T) n) zero = zero.
Proof.
  unfold zeros. revert j; induction n as [| n IH]; intros [| j]; simpl; auto.
Qed.

Lemma one_hot_length (n k : nat) : List.length (one_hot (T:=T) n k) = n.
Proof. unfold one_hot. now rewrite update_nth_length, zeros_length. Qed.

Lemma nth_one_hot (n k j : nat) :
  k < n -> nth j (one_hot (T:=T) n k) zero = if j =? k then one else zero.
Proof.
  intros Hk. unfold one_hot.
  rewrite nth_update_nth by now rewrite zeros_length.
  now rewrite nth_zeros.
Qed.

Lemma set_letter_slot (c : ascii) :
  tensor_setitem (zeros (T:=T) n_letters) (str_find all_letters c) one
  = ret (one_hot n_letters (letter_slot c)).
Proof.
  unfold tensor_setitem, letter_slot, one_hot. rewrite zeros_length.
  destruct (in_alphabet c) eqn:Hc.
  - destruct (find_in_alphabet c Hc) as [Hr _].
    rewrite <- (Z2Nat.id (str_find all_letters c)) at 1 by lia.
    rewrite py_index_nat by lia. reflexivity.
  - rewrite (find_not_in_alphabet c Hc).
    rewrite py_index_minus_one by (rewrite n_letters_eq; lia). reflexivity.
Qed.

Lemma firstn_snoc (A : Type) (l : list A) (k : nat) (a : A) :
  nth_error l k = Some a -> firstn (S k) l = firstn k l ++ [a].
Proof.
  revert k; induction l as [| b l IH]; intros [| k] E; simpl in *; try discriminate.
  - now inversion E.
  - now rewrite (IH k E).
Qed.

Lemma inputTensor_loop_spec (line : string) (m : nat) :
  forall k, k + m = String.length line ->
  inputTensor_loop (T:=T) line (seq k m)
    (map (fun c => one_hot n_letters (letter_slot c)) (firstn k (chars line))
       ++ repeat (zeros n_letters) m)
  = ret (map (fun c => one_hot n_letters (letter_slot c)) (chars line)).
Proof.
  induction m as [| m IH]; intros k Hk.
  - simpl. rewrite app_nil_r, firstn_all2; [reflexivity |].
    rewrite chars_length; lia.
  - assert (Hlt : k < List.length (chars line)) by (rewrite chars_length; lia).
    destruct (nth_error (chars line) k) as [c |] eqn:Ec;
      [| apply nth_error_None in Ec; lia].
    set (row := fun c0 : ascii => one_hot (T:=T) n_letters (letter_slot c0)) in *.
    assert (Hpre : List.length (map row (firstn k (chars line))) = k).
    { rewrite length_map, firstn_length_le; lia. }
    cbn [seq inputTensor_loop repeat].
    rewrite (str_getitem_chars line k c Ec). cbn [bind ret].
    rewrite (tensor_getitem_nat _ _ k (zeros n_letters)).
    2:{ rewrite nth_error_app2 by lia. rewrite Hpre, Nat.sub_diag. reflexivity. }
    cbn [bind ret]. rewrite set_letter_slot. cbn [bind ret].
    unfold tensor_setitem. rewrite py_index_nat.
    2:{ rewrite length_app, Hpre. simpl. lia. }
    cbn [bind ret]. rewrite <- Hpre at 3. rewrite update_nth_middle.
    specialize (IH (S k)). rewrite (firstn_snoc _ _ _ _ Ec) in IH.
    rewrite map_app, <- app_assoc in IH. apply IH. lia.
Qed.

Lemma inputTensor_spec (line : string) :
  inputTensor (T:=T) line
  = ret (map (fun c => one_hot n_letters (letter_slot c)) (chars line)).
Proof.
  unfold inputTensor. apply (inputTensor_loop_spec line (String.length line) 0).
  reflexivity.
Qed.

Lemma map_nth_seq (A B : Type) (f : A -> B) (d : A) (l : list A) :
  map (fun i => f (nth i l d)) (seq 0 (List.length l)) = map f l.
Proof.
  induction l as [| a l IH]; [reflexivity |].
  cbn [List.length seq map nth]. f_equal.
  rewrite <- seq_shift, map_map. exact IH.
Qed.

Lemma map_nth_from_one (A B : Type) (f : A -> B) (a d : A) (l : list A) :
  map (fun i => f (nth i (a :: l) d)) (seq 1 (List.length l)) = map f l.
Proof.
  rewrite <- seq_shift, map_map. apply map_nth_seq.
Qed.

Lemma targetTensor_spec (line : string) :
  targetTensor line
  = ret (map (str_find all_letters) (tl (chars line)) ++ [Z.of_nat n_letters - 1]%Z).
Proof.
  unfold targetTensor.
  rewrite (mapM_total _ _ _
             (fun li => str_find all_letters (nth li (chars line) Ascii.zero))).
  - cbn [bind ret]. do 2 f_equal.
    rewrite <- chars_length. destruct (chars line) as [| c cs]; [reflexivity |].
    cbn [List.length tl].
    replace (S (List.length cs) - 1) with (List.length cs) by lia.
    apply (map_nth_from_one _ _ (str_find all_letters)).
  - intros li Hin. apply in_seq in Hin.
    assert (Hlt : li < List.length (chars line)) by (rewrite chars_length; lia).
    rewrite (str_getitem_chars line li (nth li (chars line) Ascii.zero)).
    + reflexivity.
    + now apply nth_error_nth'.
Qed.

Lemma alphabet_string_tail (line : string) :
  alphabet_string line = true -> forallb in_alphabet (tl (chars line)) = true.
Proof.
  unfold alphabet_string. destruct (chars line) as [| c cs]; [reflexivity |].
  cbn [forallb tl]. intros Hall. apply andb_true_iff in Hall. tauto.
Qed.

Lemma valid_targets (cs : list ascii) :
  forallb in_alphabet cs = true ->
  Forall (fun t => (0 <= t < Z.of_nat n_letters)%Z) (map (str_find all_letters) cs).
Proof.
  intros Hall. rewrite forallb_forall in Hall.
  apply Forall_forall. intros t Ht. apply in_map_iff in Ht.
  destruct Ht as (c & <- & Hc).
  destruct (find_in_alphabet c (Hall c Hc)) as [Hr _]. lia.
Qed.

Lemma first_foreign (cs : list ascii) :
  forallb in_alphabet cs = false ->
  exists l1 x l2,
    cs = l1 ++ x :: l2 /\ forallb in_alphabet l1 = true /\ in_alphabet x = false.
Proof.
  induction cs as [| c cs IH]; simpl; intros Hb; [discriminate |].
  destruct (in_alphabet c) eqn:Ec; simpl in Hb.
  - destruct (IH Hb) as (l1 & x & l2 & -> & H1 & Hx).
    exists (c :: l1), x, l2. simpl. rewrite Ec. auto.
  - exists [], c, cs. auto.
Qed.

End EncoderFacts.

Lemma list_index_In (l : list string) (x : string) :
  In x l ->
  exists li, list_index l x = ret li /\ nth_error l li = Some x /\
             forall j, j < li -> nth_error l j <> Some x.
Proof.
  induction l as [| y l IH]; intros Hin; [inversion Hin |].
  simpl. destruct (String.eqb_spec y x) as [-> | Hne].
  - exists 0. repeat split; auto. intros j Hj; lia.
  - destruct Hin as [-> | Hin]; [congruence |].
    destruct (IH Hin) as (li & E & Hn & Hfirst). exists (S li).
    rewrite E. repeat split; auto.
    intros [| j] Hj; simpl; [congruence | apply Hfirst; lia].
Qed.

Lemma list_index_not_In (l : list string) (x : string) :
  ~ In x l -> list_index l x = raise ValueError.
Proof.
  induction l as [| y l IH]; intros Hnin; [reflexivity |].
  simpl. destruct (String.eqb_spec y x) as [-> | Hne].
  - exfalso. apply Hnin. now left.
  - rewrite IH; [reflexivity |]. intros Hin. apply Hnin. now right.
Qed.

Section EncoderClaims.
Context {T : Type} `{Scalar T} `{Dataset}.

(** C5. For a category [c] of the ordered category list, [categoryTensor c]
    returns a vector of length [n_categories] whose entry at the (first)
    position of [c] in the list is 1 and whose other entries are 0, so that
    exactly one entry equals 1; for a category outside the list it fails
    (with the ValueError of [list.index]). *)
Theorem categoryTensor_one_hot (category : string) :
  (In category all_categories ->
   exists li v,
     nth_error all_categories li = Some category /\
     (forall j, j < li -> nth_error all_categories j <> Some category) /\
     categoryTensor (T:=T) category = ret v /\
     List.length v = n_categories /\
     (forall j, j < n_categories -> nth j v zero = if j =? li then one else zero) /\
     (one <> zero :> T ->
      forall j, j < n_categories -> (nth j v zero = one <-> j = li)))
  /\
  (~ In category all_categories ->
   categoryTensor (T:=T) category = raise ValueError).
Proof.
  split.
  - intros Hin. destruct (list_index_In _ _ Hin) as (li & E & Hn & Hfirst).
    assert (Hlt : li < n_categories).
    { unfold n_categories. apply nth_error_Some. congruence. }
    assert (Hnth : forall j, nth j (one_hot (T:=T) n_categories li) zero
                             = if j =? li then one else zero).
    { intros j. now apply nth_one_hot. }
    exists li, (one_hot n_categories li). repeat split; auto.
    + unfold categoryTensor. rewrite E. cbn [bind ret].
      unfold tensor_setitem. rewrite zeros_length, py_index_nat by exact Hlt.
      reflexivity.
    + apply one_hot_length.
    + rewrite Hnth. destruct (Nat.eqb_spec j li); [auto | congruence].
    + intros ->. rewrite Hnth, Nat.eqb_refl. reflexivity.
  - intros Hnin. unfold categoryTensor. now rewrite list_index_not_In.
Qed.

(** C10. [inputTensor] is total: for every string it returns one row per
    character, without raising.  A character of the alphabet sets the slot
    [find] returns; for a character outside it [find] returns -1, the
    subscript -1 resolves to the last slot of the row, and the row is the
    one-hot row of the end-of-sequence index. *)
Theorem inputTensor_total (line : string) :
  exists rows : list (list T),
    inputTensor line = ret rows /\
    List.length rows = String.length line /\
    forall li c, nth_error (chars line) li = Some c ->
      (in_alphabet c = true ->
       (0 <= str_find all_letters c < Z.of_nat EOS)%Z /\
       nth_error rows li
       = Some (one_hot n_letters (Z.to_nat (str_find all_letters c)))) /\
      (in_alphabet c = false ->
       str_find all_letters c = (-1)%Z /\
       py_index n_letters (-1) = ret EOS /\
       nth_error rows li = Some (one_hot n_letters EOS)).
Proof.
  exists (map (fun c => one_hot n_letters (letter_slot c)) (chars line)).
  split; [apply inputTensor_spec |].
  split; [now rewrite length_map, chars_length |].
  intros li c Ec.
  assert (Erow : nth_error (map (fun c0 => one_hot (T:=T) n_letters (letter_slot c0))
                                (chars line)) li
                 = Some (one_hot n_letters (letter_slot c))).
  { now rewrite nth_error_map, Ec. }
  unfold letter_slot in Erow. split; intros Hc; rewrite Hc in Erow.
  - split; [| exact Erow]. destruct (find_in_alphabet c Hc) as [Hr _].
    unfold EOS. lia.
  - split; [now apply find_not_in_alphabet |]. split; [| exact Erow].
    reflexivity.
Qed.

(** C1 (amended). For every non-empty string over the alphabet the target
    sequence has as many entries as the input matrix has rows; for every
    string over the alphabet, empty or not, the target's entries are class
    indices and its final entry is the end-of-sequence index; for the empty
    string the target is the single end marker while the input matrix has
    no row. *)
Theorem target_matches_input (line : string) :
  alphabet_string line = true ->
  exists (rows : list (list T)) (targets : list Z),
    inputTensor line = ret rows /\
    targetTensor line = ret targets /\
    last targets 0%Z = Z.of_nat EOS /\
    Forall (fun t => (0 <= t < Z.of_nat n_letters)%Z) targets /\
    (line <> EmptyString -> List.length targets = List.length rows) /\
    (line = EmptyString -> rows = [] /\ targets = [Z.of_nat EOS]).
Proof.
  intros Hall.
  exists (map (fun c => one_hot n_letters (letter_slot c)) (chars line)),
         (map (str_find all_letters) (tl (chars line)) ++ [Z.of_nat n_letters - 1]%Z).
  split; [apply inputTensor_spec |]. split; [apply targetTensor_spec |].
  split; [now rewrite last_last |]. split; [| split].
  - apply Forall_app. split.
    + apply valid_targets. now apply alphabet_string_tail.
    + constructor; [| constructor]. rewrite n_letters_eq. lia.
  - intros Hne. rewrite length_app, !length_map. simpl.
    destruct line; [congruence | simpl; lia].
  - intros ->. split; reflexivity.
Qed.

(** How a string with a symbol outside the alphabet is encoded: one row
    and one target per character, the one-hot row of the end-of-sequence
    slot for each foreign symbol and, from the second position on, the
    target index -1. *)
Lemma foreign_symbol_rows (line : string) :
  alphabet_string line = false ->
  exists (rows : list (list T)) (targets : list Z),
    inputTensor line = ret rows /\
    targetTensor line = ret targets /\
    List.length rows = String.length line /\
    List.length targets = String.length line /\
    (exists li c, nth_error (chars line) li = Some c /\ in_alphabet c = false) /\
    forall li c, nth_error (chars line) li = Some c -> in_alphabet c = false ->
      nth_error rows li = Some (one_hot n_letters EOS) /\
      forall k, li = S k -> nth_error targets k = Some (-1)%Z.
Proof.
  intros Hbad.
  assert (Hex : exists li c, nth_error (chars line) li = Some c /\ in_alphabet c = false).
  { revert Hbad. unfold alphabet_string. generalize (chars line) as cs.
    induction cs as [| c cs IH]; simpl; intros Hbad; [discriminate |].
    destruct (in_alphabet c) eqn:Ec; simpl in Hbad.
    - destruct (IH Hbad) as (li & c' & E & Hc'). exists (S li), c'. auto.
    - exists 0, c. auto. }
  exists (map (fun c => one_hot n_letters (letter_slot c)) (chars line)),
         (map (str_find all_letters) (tl (chars line)) ++ [Z.of_nat n_letters - 1]%Z).
  split; [apply inputTensor_spec |]. split; [apply targetTensor_spec |].
  split; [now rewrite length_map, chars_length |].
  split.
  { rewrite length_app, length_map, <- chars_length. simpl.
    destruct Hex as (li & c & E & _). destruct (chars line); simpl; [| lia].
    destruct li; discriminate. }
  split; [exact Hex |].
  intros li c Ec Hc. split.
  - rewrite nth_error_map, Ec. simpl. unfold letter_slot. now rewrite Hc.
  - intros k ->. destruct (chars line) as [| c0 cs]; [discriminate |].
    simpl in Ec. simpl tl.
    rewrite nth_error_app1.
    + rewrite nth_error_map, Ec. simpl. now rewrite find_not_in_alphabet.
    + rewrite length_map. apply nth_error_Some. congruence.
Qed.

End EncoderClaims.

(* ------------------------------------------------------------------ *)
(** ** The recurrent cell *)

Section CellFacts.
Context {T G : Type} `{Scalar T} `{Random T G}.

Lemma Linear_forward_ok (l : Linear T) (x : list T) :
  List.length x = in_features l ->
  exists y, Linear_forward l x = ret y /\ List.length y = out_features l.
Proof.
  intros Hx. unfold Linear_forward. rewrite Hx, Nat.eqb_refl.
  eexists. split; [reflexivity |]. now rewrite length_map, length_seq.
Qed.

Lemma bernoulli_mask_length (p : T) (n : nat) (g : G) :
  List.length (fst (bernoulli_mask p n g)) = n.
Proof.
  revert g; induction n as [| n IH]; intros g; simpl; [reflexivity |].
  destruct (bernoulli p g) as [b g1]. specialize (IH g1).
  destruct (bernoulli_mask p n g1) as [bs g2]. simpl in *. now rewrite IH.
Qed.

Lemma apply_mask_length (p : T) (x : list T) (mask : list bool) :
  List.length mask = List.length x -> List.length (apply_mask p x mask) = List.length x.
Proof.
  intros Hm. unfold apply_mask. rewrite length_map, length_combine. lia.
Qed.

Lemma Dropout_training (p : T) (x : list T) (g : G) :
  Dropout p true x g
  = (apply_mask p x (fst (bernoulli_mask p (List.length x) g)),
     snd (bernoulli_mask p (List.length x) g)).
Proof.
  unfold Dropout. now destruct (bernoulli_mask p (List.length x) g).
Qed.

Lemma Dropout_length (p : T) (b : bool) (x : list T) (g : G) :
  List.length (fst (Dropout p b x g)) = List.length x.
Proof.
  destruct b; [| reflexivity]. rewrite Dropout_training. simpl.
  apply apply_mask_length, bernoulli_mask_length.
Qed.

Lemma LogSoftmax_length (x : list T) : List.length (LogSoftmax x) = List.length x.
Proof. unfold LogSoftmax. apply length_map. Qed.

Lemma forward_cell_affine (net : RNN T) (c x h : list T) (g : G) :
  forward net c x h g
  = (oh <- cell_affine net c x h ;;
     ret (LogSoftmax (fst (Dropout (dropout net) (training net) (fst oh) g)),
          snd oh,
          snd (Dropout (dropout net) (training net) (fst oh) g))).
Proof.
  unfold forward, cell_affine.
  destruct (Linear_forward (i2h net) (c ++ x ++ h)) as [e | hz]; [reflexivity |].
  cbn [bind ret].
  destruct (Linear_forward (i2o net) (c ++ x ++ h)) as [e | oz]; [reflexivity |].
  cbn [bind ret].
  destruct (Linear_forward (o2o net) (oz ++ hz)) as [e | o]; [reflexivity |].
  cbn [bind ret fst snd].
  now destruct (Dropout (dropout net) (training net) o g).
Qed.

Lemma cell_affine_ok (net : RNN T) (c x h : list T) :
  shaped net ->
  List.length c = cat_size net ->
  List.length x = input_size net ->
  List.length h = hidden_size net ->
  exists hz oz o,
    Linear_forward (i2h net) (c ++ x ++ h) = ret hz /\
    Linear_forward (i2o net) (c ++ x ++ h) = ret oz /\
    Linear_forward (o2o net) (oz ++ hz) = ret o /\
    cell_affine net c x h = ret (o, hz) /\
    List.length o = output_size net /\
    List.length hz = hidden_size net.
Proof.
  intros (Hih & Hoh & Hio & Hoo & Hi2 & Ho2) Hc Hx Hh.
  assert (Hz : List.length (c ++ x ++ h)
               = cat_size net + input_size net + hidden_size net).
  { rewrite !length_app. lia. }
  destruct (Linear_forward_ok (i2h net) (c ++ x ++ h)) as (hz & Ehz & Lhz);
    [congruence |].
  destruct (Linear_forward_ok (i2o net) (c ++ x ++ h)) as (oz & Eoz & Loz);
    [congruence |].
  destruct (Linear_forward_ok (o2o net) (oz ++ hz)) as (o & Eo & Lo).
  { rewrite length_app. lia. }
  exists hz, oz, o. unfold cell_affine. rewrite Ehz, Eoz. cbn [bind ret].
  rewrite Eo. repeat split; auto; congruence.
Qed.

Lemma forward_ok (net : RNN T) (c x h : list T) (g : G) :
  shaped net ->
  List.length c = cat_size net ->
  List.length x = input_size net ->
  List.length h = hidden_size net ->
  exists out hz g',
    forward net c x h g = ret (out, hz, g') /\
    List.length out = output_size net /\
    List.length hz = hidden_size net.
Proof.
  intros Hs Hc Hx Hh.
  destruct (cell_affine_ok net c x h Hs Hc Hx Hh) as (hz & oz & o & _ & _ & _ & E & Lo & Lhz).
  rewrite forward_cell_affine, E. cbn [bind ret fst snd].
  eexists _, hz, _. split; [reflexivity |]. split; [| exact Lhz].
  now rewrite LogSoftmax_length, Dropout_length.
Qed.

(** C2 (amended). For inputs of the sizes the model was built with, one
    step returns exactly the pair
    [(log_softmax(dropout(o2o(concat(i2o z, i2h z)))), i2h z)] with
    [z = concat(c, x, h)].  The new hidden vector is a function of the
    inputs and the weights alone.  The log-probabilities are so only in
    evaluation mode: in training mode, the mode [RNN.__init__] leaves the
    module in, dropout multiplies the projected output by a mask of
    [output_size] keep-bits drawn from torch's generator, and the step
    returns the generator advanced by these draws. *)
Theorem forward_step (net : RNN T) (c x h : list T) :
  shaped net ->
  List.length c = cat_size net ->
  List.length x = input_size net ->
  List.length h = hidden_size net ->
  exists hz oz o,
    let z := c ++ x ++ h in
    Linear_forward (i2h net) z = ret hz /\
    Linear_forward (i2o net) z = ret oz /\
    Linear_forward (o2o net) (oz ++ hz) = ret o /\
    List.length o = output_size net /\
    (forall g,
       forward net c x h g
       = ret (LogSoftmax (fst (Dropout (dropout net) (training net) o g)), hz,
              snd (Dropout (dropout net) (training net) o g))) /\
    (training net = false ->
     forall g, forward net c x h g = ret (LogSoftmax o, hz, g)) /\
    (training net = true ->
     forall g,
       forward net c x h g
       = ret (LogSoftmax
                (apply_mask (dropout net) o
                   (fst (bernoulli_mask (dropout net) (output_size net) g))),
              hz,
              snd (bernoulli_mask (dropout net) (output_size net) g))).
Proof.
  intros Hs Hc Hx Hh.
  destruct (cell_affine_ok net c x h Hs Hc Hx Hh)
    as (hz & oz & o & Ehz & Eoz & Eo & E & Lo & Lhz).
  exists hz, oz, o. cbv zeta.
  assert (Hfw : forall g,
             forward net c x h g
             = ret (LogSoftmax (fst (Dropout (dropout net) (training net) o g)), hz,
                    snd (Dropout (dropout net) (training net) o g))).
  { intros g. rewrite forward_cell_affine, E. reflexivity. }
  repeat split; auto.
  - intros Hev g. rewrite Hfw, Hev. reflexivity.
  - intros Htr g. rewrite Hfw, Htr, Dropout_training, Lo. reflexivity.
Qed.

End CellFacts.

(* ------------------------------------------------------------------ *)
(** ** The training step *)

Section TrainerFacts.
Context {T G Opt : Type} `{Scalar T} `{Random T G} `{Optimizer T G Opt} `{Dataset}.

Lemma train_loop_app (net : RNN T) (cat_t : list T) (input_t : list (list T))
      (target_t : list Z) (l1 l2 : list nat) (v : train_vars) :
  train_loop net cat_t input_t target_t (l1 ++ l2) v
  = (v' <- train_loop net cat_t input_t target_t l1 v ;;
     train_loop net cat_t input_t target_t l2 v').
Proof.
  revert v; induction l1 as [| i l1 IH]; intros v; [reflexivity |].
  cbn [app train_loop].
  destruct (tensor_getitem input_t (Z.of_nat i)) as [e | row]; [reflexivity |].
  cbn [bind ret].
  destruct (forward net cat_t row (t_hidden v) (t_gen v)) as [e | [[out hz] g']];
    [reflexivity |].
  cbn [bind ret].
  destruct (tensor_getitem target_t (Z.of_nat i)) as [e | t]; [reflexivity |].
  cbn [bind ret].
  destruct (NLLLoss out t) as [e | l]; [reflexivity |].
  cbn [bind ret]. apply IH.
Qed.

Lemma NLLLoss_valid (output : list T) (t : Z) :
  (0 <= t < Z.of_nat (List.length output))%Z ->
  NLLLoss output t = ret (nll output (Z.to_nat t)).
Proof.
  intros Ht. unfold NLLLoss.
  destruct (Z.eqb_spec t (-100)); [lia |].
  destruct (Z.leb_spec 0 t); [| lia].
  destruct (Z.ltb_spec t (Z.of_nat (List.length output))); [| lia].
  reflexivity.
Qed.

Lemma nth_error_middle (A : Type) (l1 l2 : list A) (a : A) :
  nth_error (l1 ++ a :: l2) (List.length l1) = Some a.
Proof.
  rewrite nth_error_app2 by lia. now rewrite Nat.sub_diag.
Qed.

(** The loop invariant of [train]: over a stretch of positions whose
    targets are class indices, the loop makes the cell calls of [unroll]
    and adds their losses to the running sum. *)
Lemma train_loop_valid (net : RNN T) (cat_t : list T) :
  shaped net ->
  List.length cat_t = cat_size net ->
  forall (rows : list (list T)) (targets : list Z)
         (pre_i post_i : list (list T)) (pre_t post_t : list Z) (v : train_vars),
    List.length pre_i = List.length pre_t ->
    List.length rows = List.length targets ->
    Forall (fun r => List.length r = input_size net) rows ->
    Forall (fun t => (0 <= t < Z.of_nat (output_size net))%Z) targets ->
    List.length (t_hidden v) = hidden_size net ->
    exists outs hfin gfin,
      unroll net cat_t rows (t_hidden v) (t_gen v) = ret (outs, hfin, gfin) /\
      List.length outs = List.length rows /\
      List.length hfin = hidden_size net /\
      train_loop net cat_t (pre_i ++ rows ++ post_i) (pre_t ++ targets ++ post_t)
                 (seq (List.length pre_i) (List.length rows)) v
      = ret {| t_output := match outs with
                           | [] => t_output v
                           | _ :: _ => Some (last outs [])
                           end;
               t_hidden := hfin;
               t_loss := fold_left add
                           (map (fun ot => nll (fst ot) (Z.to_nat (snd ot)))
                                (combine outs targets))
                           (t_loss v);
               t_gen := gfin |}.
Proof.
  intros Hs Hc rows.
  induction rows as [| row rows IH];
    intros targets pre_i post_i pre_t post_t v Hpre Hlen Hrows Htargets Hh.
  - exists [], (t_hidden v), (t_gen v). destruct v. repeat split; auto.
  - destruct targets as [| t targets]; [discriminate |].
    inversion Hrows as [| ? ? Hrow Hrows']; subst.
    inversion Htargets as [| ? ? Ht Htargets']; subst.
    destruct (forward_ok net cat_t row (t_hidden v) (t_gen v) Hs Hc Hrow Hh)
      as (out & hz & g' & Efw & Lout & Lhz).
    set (v' := {| t_output := Some out; t_hidden := hz;
                  t_loss := add (t_loss v) (nll out (Z.to_nat t)); t_gen := g' |}).
    destruct (IH targets (pre_i ++ [row]) post_i (pre_t ++ [t]) post_t v')
      as (outs & hfin & gfin & Eun & Louts & Lhfin & Eloop); auto.
    { rewrite !length_app. simpl. lia. }
    exists (out :: outs), hfin, gfin.
    split. { cbn [unroll]. rewrite Efw. cbn [bind ret]. simpl in Eun. now rewrite Eun. }
    split. { simpl. now rewrite Louts. }
    split; [exact Lhfin |].
    cbn [List.length seq train_loop app].
    rewrite (tensor_getitem_nat _ _ _ row) by apply (nth_error_middle _ pre_i).
    cbn [bind ret]. rewrite Efw. cbn [bind ret].
    rewrite (tensor_getitem_nat _ _ _ t) by now rewrite Hpre; apply (nth_error_middle _ pre_t).
    cbn [bind ret]. rewrite NLLLoss_valid by (rewrite Lout; exact Ht).
    cbn [bind ret]. fold v'.
    rewrite length_app, Nat.add_1_r in Eloop.
    rewrite <- !app_assoc in Eloop. cbn [app] in Eloop. rewrite Eloop.
    f_equal. unfold v'. cbn [t_output t_loss combine map fold_left fst snd].
    f_equal. destruct outs; reflexivity.
Qed.

Lemma categoryTensor_known (category : string) :
  In category all_categories ->
  exists li, li < n_categories /\
             categoryTensor (T:=T) category = ret (one_hot n_categories li).
Proof.
  intros Hin. destruct (list_index_In _ _ Hin) as (li & E & Hn & _).
  assert (Hlt : li < n_categories).
  { unfold n_categories. apply nth_error_Some. congruence. }
  exists li. split; [exact Hlt |].
  unfold categoryTensor. rewrite E. cbn [bind ret].
  unfold tensor_setitem. rewrite zeros_length, py_index_nat by exact Hlt.
  reflexivity.
Qed.

Lemma input_rows_length (cs : list ascii) :
  Forall (fun r : list T => List.length r = n_letters)
         (map (fun c => one_hot n_letters (letter_slot c)) cs).
Proof.
  apply Forall_forall. intros r Hr. apply in_map_iff in Hr.
  destruct Hr as (c & <- & _). apply one_hot_length.
Qed.

Lemma alphabet_targets_valid (line : string) :
  forallb in_alphabet (tl (chars line)) = true ->
  Forall (fun t => (0 <= t < Z.of_nat n_letters)%Z)
         (map (str_find all_letters) (tl (chars line)) ++ [Z.of_nat n_letters - 1]%Z).
Proof.
  intros Hall. apply Forall_app. split.
  - now apply valid_targets.
  - constructor; [| constructor]. rewrite n_letters_eq. lia.
Qed.

Lemma training_example_known (category line : string) :
  In category all_categories ->
  exists li, li < n_categories /\
    training_example (T:=T) category line
    = ret (one_hot n_categories li,
           map (fun c => one_hot n_letters (letter_slot c)) (chars line),
           map (str_find all_letters) (tl (chars line)) ++ [Z.of_nat n_letters - 1]%Z).
Proof.
  intros Hin. destruct (categoryTensor_known category Hin) as (li & Hlt & E).
  exists li. split; [exact Hlt |]. unfold training_example.
  rewrite E, inputTensor_spec, targetTensor_spec. reflexivity.
Qed.

(** On a known category and a non-empty line whose symbols, from the second
    on, are in the alphabet, the training step returns, with the mean loss
    of the unrolled cell. *)
Lemma train_step_valid (nb : notebook) (category line : string) :
  notebook_model (rnn nb) ->
  In category all_categories ->
  line <> EmptyString ->
  forallb in_alphabet (tl (chars line)) = true ->
  exists cat_t rows targets outs hfin gfin nb',
    training_example category line = ret (cat_t, rows, targets) /\
    unroll (rnn nb) cat_t rows (init_hidden (rnn nb)) (gen nb) = ret (outs, hfin, gfin) /\
    List.length outs = List.length targets /\
    List.length targets = String.length line /\
    train_step nb category line = ret (last outs [], mean_nll outs targets, nb') /\
    mean_nll outs targets
    = div (fold_left add
             (map (fun ot => nll (fst ot) (Z.to_nat (snd ot))) (combine outs targets))
             zero)
          (of_nat (List.length targets)) /\
    gen nb' = gfin.
Proof.
  intros (Hs & Hcs & His & Hos) Hin Hne Hall.
  destruct (training_example_known category line Hin) as (li & Hlt & Eex).
  set (cat_t := one_hot (T:=T) n_categories li) in *.
  set (rows := map (fun c => one_hot (T:=T) n_letters (letter_slot c)) (chars line)) in *.
  set (targets := map (str_find all_letters) (tl (chars line))
                    ++ [Z.of_nat n_letters - 1]%Z) in *.
  assert (Hlen : List.length rows = List.length targets).
  { unfold rows, targets. rewrite length_app, !length_map. simpl.
    destruct line; [congruence | simpl; lia]. }
  assert (Hrl : List.length rows = String.length line).
  { unfold rows. now rewrite length_map, chars_length. }
  set (v0 := {| t_output := None; t_hidden := init_hidden (rnn nb);
                t_loss := zero; t_gen := gen nb |}).
  destruct (train_loop_valid (rnn nb) cat_t Hs) with
    (rows := rows) (targets := targets) (pre_i := @nil (list T)) (post_i := @nil (list T))
    (pre_t := @nil Z) (post_t := @nil Z) (v := v0)
    as (outs & hfin & gfin & Eun & Louts & Lhfin & Eloop); auto.
  { unfold cat_t. now rewrite one_hot_length. }
  { rewrite His. apply input_rows_length. }
  { rewrite Hos. now apply alphabet_targets_valid. }
  { apply zeros_length. }
  cbn [app List.length] in Eloop. rewrite !app_nil_r in Eloop.
  destruct (adam_step (optimizer nb) (parameters (rnn nb)) cat_t rows targets (gen nb))
    as [opt' theta'] eqn:Eadam.
  exists cat_t, rows, targets, outs, hfin, gfin,
    {| rnn := load_parameters (rnn nb) theta'; optimizer := opt'; gen := gfin |}.
  split; [exact Eex |]. split; [exact Eun |].
  split; [congruence |]. split; [congruence |].
  split; [| split; reflexivity].
  unfold train_step. rewrite Eex. cbn [bind ret]. unfold train. cbv zeta.
  rewrite <- Hlen. fold v0. rewrite Eloop. cbn [bind ret t_output t_loss t_gen].
  destruct outs as [| o outs].
  { assert (Hz : String.length line = 0) by (rewrite <- Hrl, <- Louts; reflexivity).
    destruct line; [congruence | discriminate]. }
  rewrite Eadam. unfold mean_nll, summed_nll, sum_list. rewrite Hlen. reflexivity.
Qed.

Lemma str_find_lower (s : string) (c : ascii) : (-1 <= str_find s c)%Z.
Proof.
  unfold str_find. destruct (str_contains s c) eqn:Hc.
  - destruct (str_find_from_present s c 0 Hc) as [Hr _]. lia.
  - rewrite (str_find_from_absent s c 0 Hc). lia.
Qed.

(** The converse reading of the loop: if it completes a stretch of
    positions (none of whose targets is [ignore_index]), it made the cell
    calls of [unroll] and added exactly their losses. *)
Lemma train_loop_inv (net : RNN T) (cat_t : list T) :
  forall (rows : list (list T)) (targets : list Z)
         (pre_i post_i : list (list T)) (pre_t post_t : list Z) (v v' : train_vars),
    List.length pre_i = List.length pre_t ->
    List.length rows = List.length targets ->
    Forall (fun t => t <> (-100)%Z) targets ->
    train_loop net cat_t (pre_i ++ rows ++ post_i) (pre_t ++ targets ++ post_t)
               (seq (List.length pre_i) (List.length rows)) v = ret v' ->
    exists outs hfin gfin,
      unroll net cat_t rows (t_hidden v) (t_gen v) = ret (outs, hfin, gfin) /\
      List.length outs = List.length rows /\
      v' = {| t_output := match outs with
                          | [] => t_output v
                          | _ :: _ => Some (last outs [])
                          end;
              t_hidden := hfin;
              t_loss := fold_left add
                          (map (fun ot => nll (fst ot) (Z.to_nat (snd ot)))
                               (combine outs targets))
                          (t_loss v);
              t_gen := gfin |}.
Proof.
  intros rows.
  induction rows as [| row rows IH];
    intros targets pre_i post_i pre_t post_t v v' Hpre Hlen Hign Eloop.
  - exists [], (t_hidden v), (t_gen v). cbn in Eloop. inversion Eloop.
    destruct v'. repeat split.
  - destruct targets as [| t targets]; [discriminate |].
    inversion Hign as [| ? ? Ht Hign']; subst.
    cbn [List.length seq train_loop app] in Eloop.
    rewrite (tensor_getitem_nat _ _ _ row) in Eloop by apply (nth_error_middle _ pre_i).
    cbn [bind ret] in Eloop.
    destruct (forward net cat_t row (t_hidden v) (t_gen v)) as [e | [[out hz] g']] eqn:Efw;
      [discriminate |].
    cbn [bind ret] in Eloop.
    rewrite (tensor_getitem_nat _ _ _ t) in Eloop
      by now rewrite Hpre; apply (nth_error_middle _ pre_t).
    cbn [bind ret] in Eloop.
    assert (El : NLLLoss out t = ret (nll out (Z.to_nat t))
                 \/ NLLLoss out t = raise RuntimeError).
    { unfold NLLLoss. destruct (Z.eqb_spec t (-100)); [contradiction |].
      destruct ((0 <=? t)%Z && (t <? Z.of_nat (List.length out))%Z); auto. }
    destruct El as [El | El]; rewrite El in Eloop; [| discriminate].
    cbn [bind ret] in Eloop.
    set (v1 := {| t_output := Some out; t_hidden := hz;
                  t_loss := add (t_loss v) (nll out (Z.to_nat t)); t_gen := g' |}) in *.
    destruct (IH targets (pre_i ++ [row]) post_i (pre_t ++ [t]) post_t v1 v')
      as (outs & hfin & gfin & Eun & Louts & Ev'); auto.
    { rewrite !length_app. simpl. lia. }
    { rewrite length_app, Nat.add_1_r, <- !app_assoc. exact Eloop. }
    exists (out :: outs), hfin, gfin.
    split. { cbn [unroll]. rewrite Efw. cbn [bind ret]. simpl in Eun. now rewrite Eun. }
    split. { simpl. now rewrite Louts. }
    rewrite Ev'. unfold v1. cbn [t_output t_loss combine map fold_left fst snd].
    f_equal. destruct outs; reflexivity.
Qed.

(** Whenever the training step returns, on any category and line, what it
    reports is the mean loss of the unrolled cell. *)
Lemma train_step_reported (nb nb' : notebook) (category line : string)
      (out : list T) (loss : T) :
  train_step nb category line = ret (out, loss, nb') ->
  exists cat_t rows targets outs hfin gfin,
    training_example category line = ret (cat_t, rows, targets) /\
    unroll (rnn nb) cat_t rows (init_hidden (rnn nb)) (gen nb) = ret (outs, hfin, gfin) /\
    List.length outs = List.length targets /\
    out = last outs [] /\
    loss = mean_nll outs targets.
Proof.
  intros E. unfold train_step in E. apply bind_inr_inv in E.
  destruct E as ([[cat_t rows] targets] & Eex & Etrain).
  exists cat_t, rows, targets.
  assert (Erows : rows = map (fun c => one_hot n_letters (letter_slot c)) (chars line)
                  /\ targets = map (str_find all_letters) (tl (chars line))
                                 ++ [Z.of_nat n_letters - 1]%Z).
  { unfold training_example in Eex.
    destruct (categoryTensor category) as [e | c0]; [discriminate |].
    rewrite inputTensor_spec, targetTensor_spec in Eex. cbn [bind ret] in Eex.
    inversion Eex. auto. }
  destruct Erows as [Er Et].
  assert (Hign : Forall (fun t => t <> (-100)%Z) targets).
  { rewrite Et. apply Forall_app. split.
    - apply Forall_forall. intros t Ht. apply in_map_iff in Ht.
      destruct Ht as (c & <- & _). pose proof (str_find_lower all_letters c). lia.
    - constructor; [| constructor]. rewrite n_letters_eq. lia. }
  unfold train in Etrain. cbv zeta in Etrain.
  apply bind_inr_inv in Etrain. destruct Etrain as (v' & Eloop & Efin).
  destruct (chars line) as [| c cs] eqn:Ecs.
  { exfalso. rewrite Er, Et in Eloop. cbn in Eloop. discriminate. }
  assert (Hlen : List.length rows = List.length targets).
  { rewrite Er, Et. rewrite length_app, !length_map. simpl. lia. }
  rewrite <- Hlen in Eloop.
  pose proof (train_loop_inv (rnn nb) cat_t rows targets [] [] [] []) as Hinv.
  cbn [app List.length] in Hinv. rewrite !app_nil_r in Hinv.
  destruct (Hinv _ v' eq_refl Hlen Hign Eloop)
    as (outs & hfin & gfin & Eun & Louts & Ev').
  exists outs, hfin, gfin. split; [exact Eex |]. split; [exact Eun |].
  split; [congruence |].
  rewrite Ev' in Efin. cbn [t_output t_loss t_gen] in Efin.
  destruct outs as [| o outs].
  { simpl in Louts. rewrite Er in Louts. discriminate. }
  destruct (adam_step _ _ _ _ _ _) as [opt' theta'].
  inversion Efin. split; reflexivity.
Qed.

(** C3. For every category and line, the loss one training step reports is
    the sum, over every position of the target sequence, of the negative
    log-likelihood of the target index under the cell's log-probabilities
    at that position, divided by the number of targets; the cell outputs
    are those of the unrolled cell, started from the zero hidden state.
    And on a training example, a known category with a non-empty line over
    the alphabet, the step does report a loss. *)
Theorem train_reports_mean_loss (nb : notebook) (category line : string) :
  (forall out loss nb',
     train_step nb category line = ret (out, loss, nb') ->
     exists cat_t rows targets outs hfin gfin,
       training_example category line = ret (cat_t, rows, targets) /\
       unroll (rnn nb) cat_t rows (init_hidden (rnn nb)) (gen nb)
       = ret (outs, hfin, gfin) /\
       List.length outs = List.length targets /\
       loss = div (fold_left add
                     (map (fun ot => nll (fst ot) (Z.to_nat (snd ot)))
                          (combine outs targets))
                     zero)
                  (of_nat (List.length targets))) /\
  (notebook_model (rnn nb) ->
   In category all_categories ->
   line <> EmptyString ->
   alphabet_string line = true ->
   exists out loss nb', train_step nb category line = ret (out, loss, nb')).
Proof.
  split.
  - intros out loss nb' E.
    destruct (train_step_reported nb nb' category line out loss E)
      as (cat_t & rows & targets & outs & hfin & gfin & Eex & Eun & Lo & _ & El).
    exists cat_t, rows, targets, outs, hfin, gfin. rewrite El. auto.
  - intros Hm Hin Hne Hall.
    destruct (train_step_valid nb category line Hm Hin Hne (alphabet_string_tail line Hall))
      as (cat_t & rows & targets & outs & hfin & gfin & nb' & _ & _ & _ & _ & E & _).
    eauto.
Qed.

(** A symbol outside the alphabet at the second position or later reaches
    the loss as the target -1, which [NLLLoss] rejects. *)
Lemma train_step_foreign_fault (nb : notebook) (category line : string) :
  notebook_model (rnn nb) ->
  In category all_categories ->
  forallb in_alphabet (tl (chars line)) = false ->
  train_step nb category line = raise RuntimeError.
Proof.
  intros (Hs & Hcs & His & Hos) Hin Hbad.
  destruct (training_example_known category line Hin) as (li & Hlt & Eex).
  unfold train_step. rewrite Eex. cbn [bind ret]. clear Eex.
  destruct (chars line) as [| c0 cs]; [discriminate |]. cbn [tl] in *.
  destruct (first_foreign cs Hbad) as (l1 & x & l2 & -> & Hl1 & Hx).
  destruct (exists_last (l := c0 :: l1)) as (rl & lst & Erl); [discriminate |].
  assert (Lrl : List.length rl = List.length l1).
  { apply (f_equal (@List.length ascii)) in Erl.
    rewrite length_app in Erl. simpl in Erl. lia. }
  change (c0 :: l1 ++ x :: l2) with ((c0 :: l1) ++ x :: l2). rewrite Erl.
  rewrite <- app_assoc. cbn [app].
  rewrite !map_app. cbn [map]. rewrite (find_not_in_alphabet x Hx).
  rewrite <- app_assoc. cbn [app].
  set (row := fun c => one_hot (T:=T) n_letters (letter_slot c)).
  set (cat_t := one_hot (T:=T) n_categories li).
  set (post_i := one_hot (T:=T) n_letters (letter_slot lst)
                   :: one_hot n_letters (letter_slot x) :: map row l2).
  set (post_t := ((-1)%Z :: map (str_find all_letters) l2 ++ [Z.of_nat n_letters - 1]%Z)).
  unfold train. cbv zeta.
  set (v0 := {| t_output := None; t_hidden := init_hidden (rnn nb);
                t_loss := zero; t_gen := gen nb |}).
  assert (Hk : List.length (map row rl) = List.length (map (str_find all_letters) l1)).
  { now rewrite !length_map. }
  rewrite length_app. unfold post_t at 2. cbn [List.length].
  rewrite <- Hk, seq_app, train_loop_app. cbn [Nat.add].
  destruct (train_loop_valid (rnn nb) cat_t Hs) with
    (rows := map row rl) (targets := map (str_find all_letters) l1)
    (pre_i := @nil (list T)) (post_i := post_i)
    (pre_t := @nil Z) (post_t := post_t) (v := v0)
    as (outs & hfin & gfin & _ & _ & Lhfin & Eloop); auto.
  { unfold cat_t. now rewrite one_hot_length. }
  { rewrite His. apply input_rows_length. }
  { rewrite Hos. now apply valid_targets. }
  { apply zeros_length. }
  cbn [app List.length] in Eloop. rewrite Eloop. cbn [bind ret].
  cbn [seq train_loop t_hidden t_gen].
  unfold post_i. rewrite (tensor_getitem_nat _ _ _ (row lst)) by apply nth_error_middle.
  cbn [bind ret].
  destruct (forward_ok (rnn nb) cat_t (row lst) hfin gfin Hs) as (out & hz & g' & Efw & _).
  { unfold cat_t. now rewrite one_hot_length. }
  { unfold row. now rewrite one_hot_length. }
  { exact Lhfin. }
  rewrite Efw. cbn [bind ret]. rewrite Hk. unfold post_t.
  rewrite (tensor_getitem_nat _ _ _ (-1)%Z) by apply nth_error_middle.
  reflexivity.
Qed.

(** C8 (amended). A string with a symbol outside the alphabet is encoded
    without any fault: [inputTensor] returns one row per character and
    [targetTensor] one index per character; each foreign symbol gets the
    one-hot row of the end-of-sequence slot, and, from the second position
    on, the target index -1.  A fault arises only afterwards, in the
    training step, when the loss is given the target -1: the step faults
    when a foreign symbol stands at the second position or later, and
    returns normally when the first symbol is the only foreign one. *)
Theorem foreign_symbol_encoded (nb : notebook) (category line : string) :
  alphabet_string line = false ->
  (exists (rows : list (list T)) (targets : list Z),
     inputTensor line = ret rows /\
     targetTensor line = ret targets /\
     List.length rows = String.length line /\
     List.length targets = String.length line /\
     forall li c, nth_error (chars line) li = Some c -> in_alphabet c = false ->
       nth_error rows li = Some (one_hot n_letters EOS) /\
       forall k, li = S k -> nth_error targets k = Some (-1)%Z) /\
  (notebook_model (rnn nb) ->
   In category all_categories ->
   (forallb in_alphabet (tl (chars line)) = false ->
    train_step nb category line = raise RuntimeError) /\
   (forallb in_alphabet (tl (chars line)) = true ->
    exists out loss nb', train_step nb category line = ret (out, loss, nb'))).
Proof.
  intros Hbad. split.
  - destruct (foreign_symbol_rows (T:=T) line Hbad)
      as (rows & targets & E1 & E2 & L1 & L2 & _ & Hsym).
    exists rows, targets. auto.
  - intros Hm Hin. split.
    + now apply train_step_foreign_fault.
    + intros Htl.
      assert (Hne : line <> EmptyString) by (intros ->; discriminate).
      destruct (train_step_valid nb category line Hm Hin Hne Htl)
        as (cat_t & rows & targets & outs & hfin & gfin & nb' & _ & _ & _ & _ & E & _).
      eauto.
Qed.

(** C9. The empty training string is encoded as no input row and the single
    end-marker target; the training step then asks for the first row of an
    input with none, and the IndexError of that subscript leaves [train]
    uncaught, whatever the category vector and the model.  The notebook's
    call [train( *random_training_example())] faults for every category. *)
Theorem train_empty_line_faults (nb : notebook) :
  (exists (rows : list (list T)) (targets : list Z),
     inputTensor EmptyString = ret rows /\
     targetTensor EmptyString = ret targets /\
     rows = [] /\
     targets = [Z.of_nat EOS] /\
     forall cat_t, train nb cat_t rows targets = raise IndexError) /\
  (forall category,
     train_step nb category EmptyString
     = raise (match list_index all_categories category with
              | inl e => e
              | inr _ => IndexError
              end)).
Proof.
  split.
  - exists [], [Z.of_nat EOS]. repeat split.
  - intros category. unfold train_step, training_example, categoryTensor.
    destruct (list_index all_categories category) as [e | li] eqn:E;
      [reflexivity |].
    cbn [bind ret].
    destruct (tensor_setitem (zeros n_categories) (Z.of_nat li) one) as [e | cat_t] eqn:Es.
    + exfalso. unfold tensor_setitem in Es. rewrite zeros_length in Es.
      assert (Hlt : li < n_categories).
      { clear Es. unfold n_categories.
        revert li E. induction all_categories as [| y l IH]; intros li E; simpl in E.
        - discriminate.
        - destruct (String.eqb y category).
          + inversion E. simpl. lia.
          + destruct (list_index l category) as [e' | i] eqn:Ei; [discriminate |].
            inversion E. simpl. specialize (IH i eq_refl). lia. }
      rewrite py_index_nat in Es by exact Hlt. discriminate.
    + reflexivity.
Qed.

End TrainerFacts.

(* ------------------------------------------------------------------ *)
(** ** The sampler *)

Lemma append_empty_r (s : string) : (s ++ EmptyString)%string = s.
Proof. induction s as [| c s IH]; simpl; [reflexivity | now rewrite IH]. Qed.

Lemma append_snoc (a b : string) (c : ascii) :
  ((a ++ String c EmptyString) ++ b)%string = (a ++ String c b)%string.
Proof. induction a as [| d a IH]; simpl; [reflexivity | now rewrite IH]. Qed.

Lemma get_contains (s : string) (i : nat) (c : ascii) :
  String.get i s = Some c -> str_contains s c = true.
Proof.
  revert i; induction s as [| d s IH]; intros [| i] E; simpl in *; try discriminate.
  - inversion E. now rewrite Ascii.eqb_refl.
  - rewrite (IH i E). apply orb_true_r.
Qed.

Lemma get_letter (i : nat) :
  i < EOS -> exists c, String.get i all_letters = Some c /\ in_alphabet c = true.
Proof.
  intros Hi. destruct (String.get i all_letters) as [c |] eqn:E.
  - exists c. split; [reflexivity |]. exact (get_contains _ _ _ E).
  - exfalso. rewrite get_chars in E. apply nth_error_None in E.
    rewrite chars_length in E. change (String.length all_letters) with 58 in E.
    rewrite EOS_eq in Hi. lia.
Qed.

Lemma letters_of_alphabet (idxs : list nat) :
  alphabet_string (letters_of idxs) = true.
Proof.
  unfold alphabet_string. induction idxs as [| i idxs IH]; [reflexivity |].
  cbn [letters_of]. destruct (String.get i all_letters) as [c |] eqn:E; [| exact IH].
  cbn [chars forallb]. rewrite IH.
  unfold in_alphabet. now rewrite (get_contains _ _ _ E).
Qed.

Lemma letters_of_length (idxs : list nat) :
  Forall (fun i => i < EOS) idxs -> String.length (letters_of idxs) = List.length idxs.
Proof.
  induction 1 as [| i idxs Hi _ IH]; [reflexivity |].
  cbn [letters_of]. destruct (get_letter i Hi) as (c & E & _). rewrite E.
  simpl. now rewrite IH.
Qed.

(** No symbol occurs twice in the alphabet: [find] undoes subscription. *)
Lemma alphabet_distinct :
  forallb (fun i => match String.get i all_letters with
                    | Some c => (str_find all_letters c =? Z.of_nat i)%Z
                    | None => false
                    end) (seq 0 EOS) = true.
Proof. vm_compute. reflexivity. Qed.

Lemma find_get (i : nat) (c : ascii) :
  String.get i all_letters = Some c -> str_find all_letters c = Z.of_nat i.
Proof.
  intros E. assert (Hi : i < EOS).
  { rewrite get_chars in E.
    assert (Hn : nth_error (chars all_letters) i <> None) by congruence.
    apply nth_error_Some in Hn. rewrite chars_length in Hn. exact Hn. }
  pose proof alphabet_distinct as Hall. rewrite forallb_forall in Hall.
  specialize (Hall i). rewrite E in Hall. apply Z.eqb_eq. apply Hall.
  apply in_seq. lia.
Qed.

Lemma letter_slot_alphabet (c : ascii) :
  in_alphabet c = true -> letter_slot c = Z.to_nat (str_find all_letters c).
Proof. intros Hc. unfold letter_slot. now rewrite Hc. Qed.

Lemma getitem_beyond (i : nat) :
  EOS <= i -> str_getitem all_letters i = raise IndexError.
Proof.
  intros Hi. unfold str_getitem.
  destruct (String.get i all_letters) as [c |] eqn:E; [| reflexivity].
  exfalso. rewrite get_chars in E.
  assert (Hn : nth_error (chars all_letters) i <> None) by congruence.
  apply nth_error_Some in Hn. rewrite chars_length in Hn.
  change (String.length all_letters) with EOS in Hn. lia.
Qed.

Section SamplerFacts.
Context {T G : Type} `{Scalar T} `{Random T G} `{Dataset}.

Lemma argmax_from_range (l : list T) :
  forall i best best_v, best < i -> argmax_from l i best best_v < i + List.length l.
Proof.
  induction l as [| x l IH]; intros i best best_v Hb; simpl; [lia |].
  destruct (ltb best_v x).
  - specialize (IH (S i) i x). lia.
  - specialize (IH (S i) best best_v). lia.
Qed.

(** A drawn index is fed back as its own one-hot row. *)
Lemma fed_back_row (i : nat) :
  i < EOS ->
  exists letter,
    str_getitem all_letters i = ret letter /\
    letters_of [i] = String letter EmptyString /\
    inputTensor (T:=T) (String letter EmptyString) = ret [one_hot n_letters i].
Proof.
  intros Hi. destruct (get_letter i Hi) as (c & Eget & Hc).
  exists c. unfold str_getitem. rewrite Eget. split; [reflexivity |]. split.
  - cbn [letters_of]. now rewrite Eget.
  - rewrite inputTensor_spec. cbn [chars map].
    rewrite (letter_slot_alphabet c Hc), (find_get i c Eget), Nat2Z.id. reflexivity.
Qed.

Lemma draw_accepted (pol : decoding) (output : list T) (g : G) :
  (exists i g1, multinomial (map exp output) g = Some (i, g1) /\ i < List.length output) ->
  0 < List.length output ->
  exists topi g', draw pol output g = ret (topi, g') /\ topi < List.length output /\
                  (pol = Greedy -> g' = g).
Proof.
  intros (i & g1 & E & Hi) Hlen. destruct pol; cbn [draw].
  - rewrite E. exists i, g1. split; [reflexivity |]. split; [exact Hi | discriminate].
  - destruct output as [| x l]; [simpl in Hlen; lia |].
    exists (argmax_from l 1 0 x), g. split; [reflexivity |]. split; [| reflexivity].
    pose proof (argmax_from_range l 1 0 x). simpl. lia.
Qed.

Lemma draw_in_range (pol : decoding) (output : list T) (g : G) :
  (forall d g0, d <> [] ->
     exists i g1, multinomial d g0 = Some (i, g1) /\ i < List.length d) ->
  0 < List.length output ->
  exists topi g', draw pol output g = ret (topi, g') /\ topi < List.length output /\
                  (pol = Greedy -> g' = g).
Proof.
  intros Hmulti Hlen. apply draw_accepted; [| exact Hlen].
  destruct (Hmulti (map exp output) g) as (i & g1 & E & Hi).
  { destruct output; [simpl in Hlen; lia | discriminate]. }
  rewrite length_map in Hi. eauto.
Qed.

Lemma draw_fault (pol : decoding) (output : list T) (g : G) (e : exn) :
  draw pol output g = raise e -> e = RuntimeError.
Proof.
  destruct pol; cbn [draw].
  - destruct (multinomial (map exp output) g) as [drawn |]; intros E;
      [discriminate | now inversion E].
  - destruct output as [| x l]; intros E; [now inversion E | discriminate].
Qed.

Lemma Linear_forward_fault (l : Linear T) (x : list T) (e : exn) :
  Linear_forward l x = raise e -> e = RuntimeError.
Proof.
  unfold Linear_forward. destruct (List.length x =? in_features l); intros E;
    [discriminate | now inversion E].
Qed.

Lemma forward_fault (net : RNN T) (c x h : list T) (g : G) (e : exn) :
  forward net c x h g = raise e -> e = RuntimeError.
Proof.
  rewrite forward_cell_affine. unfold cell_affine.
  destruct (Linear_forward (i2h net) (c ++ x ++ h)) as [e1 | hz] eqn:E1;
    cbn [bind ret]; [intros E; inversion E; subst; exact (Linear_forward_fault _ _ _ E1) |].
  destruct (Linear_forward (i2o net) (c ++ x ++ h)) as [e2 | oz] eqn:E2;
    cbn [bind ret]; [intros E; inversion E; subst; exact (Linear_forward_fault _ _ _ E2) |].
  destruct (Linear_forward (o2o net) (oz ++ hz)) as [e3 | o] eqn:E3;
    cbn [bind ret]; [intros E; inversion E; subst; exact (Linear_forward_fault _ _ _ E3) |].
  discriminate.
Qed.

(** The faults of a sampling run: the RuntimeError of a draw torch
    rejects, or the IndexError of an index without a letter. *)
Lemma sample_calls_fault (pol : decoding) (net : RNN T) (cat_t : list T) :
  forall (n : nat) (row hidden : list T) (g : G) (e : exn),
    sample_calls pol net cat_t n row hidden g = raise e ->
    e = RuntimeError \/ e = IndexError.
Proof.
  induction n as [| n IH]; intros row hidden g e E; [discriminate |].
  cbn [sample_calls] in E.
  destruct (forward net cat_t row hidden g) as [e1 | [[out h1] g1]] eqn:Efw;
    cbn [bind] in E.
  { inversion E; subst. left. exact (forward_fault _ _ _ _ _ _ Efw). }
  destruct (draw pol out g1) as [e2 | [topi g2]] eqn:Edraw; cbn [bind] in E.
  { inversion E; subst. left. exact (draw_fault _ _ _ _ Edraw). }
  destruct (topi =? EOS); [discriminate |].
  destruct (topi <? EOS); [| inversion E; now right].
  destruct (sample_calls pol net cat_t n (one_hot n_letters topi) h1 g2)
    as [e3 | [calls g3]] eqn:Erest; cbn [bind] in E; [| discriminate].
  inversion E; subst. exact (IH _ _ _ _ Erest).
Qed.

(** The loop of [sample] against the steps of the specification: it
    returns when they do, with their trace and their generator, or raises
    their fault. *)
Lemma sample_loop_refines (pol : decoding) (net : RNN T) (cat_t : list T) :
  forall (n : nat) (v : sample_vars) (row : list T) (rest : list (list T)),
    s_input v = row :: rest ->
    match sample_calls pol net cat_t n row (s_hidden v) (s_gen v) with
    | inr (calls, g') =>
        exists (v' : sample_vars) (pre : list nat),
          sample_loop pol net cat_t n v = ret v' /\
          s_trace v' = s_trace v ++ calls /\
          s_gen v' = g' /\
          List.length calls <= n /\
          Forall (fun i => i < EOS) pre /\
          (map snd calls = pre /\ List.length calls = n \/ map snd calls = pre ++ [EOS]) /\
          s_name v' = (s_name v ++ letters_of pre)%string
    | inl e => sample_loop pol net cat_t n v = raise e
    end.
Proof.
  induction n as [| n IH]; intros v row rest Ein.
  - cbn [sample_calls sample_loop ret]. exists v, [].
    cbn [map List.length letters_of app]. rewrite app_nil_r, append_empty_r.
    repeat split; auto.
  - cbn [sample_calls sample_loop]. rewrite Ein.
    change 0%Z with (Z.of_nat 0).
    rewrite (tensor_getitem_nat _ (row :: rest) 0 row eq_refl). cbn [bind ret].
    destruct (forward net cat_t row (s_hidden v) (s_gen v)) as [e | [[out h1] g1]];
      cbn [bind]; [reflexivity |].
    destruct (draw pol out g1) as [e | [topi g2]]; cbn [bind]; [reflexivity |].
    fold EOS.
    destruct (Nat.eqb_spec topi EOS) as [-> | Hne].
    + cbn [ret]. eexists _, []. split; [reflexivity |].
      cbn [s_trace s_gen s_name map snd List.length letters_of app].
      rewrite append_empty_r. repeat split; auto. lia.
    + destruct (Nat.ltb_spec topi EOS) as [Hlt | Hge].
      * destruct (fed_back_row topi Hlt) as (letter & Eget & Elet & Erow).
        rewrite Eget. cbn [bind ret]. rewrite Erow. cbn [bind ret].
        match goal with |- context [sample_loop pol net cat_t n ?v2] => set (v2' := v2) end.
        specialize (IH v2' (one_hot n_letters topi) [] eq_refl).
        cbn [v2' s_hidden s_gen] in IH.
        destruct (sample_calls pol net cat_t n (one_hot n_letters topi) h1 g2)
          as [e | [calls g3]]; cbn [bind ret]; [exact IH |].
        destruct IH as (v' & pre & Eloop & Etrace & Eg & Lcalls & Hpre & Hstop & Ename).
        exists v', (topi :: pre).
        split; [exact Eloop |].
        split. { rewrite Etrace. cbn [v2' s_trace]. now rewrite <- app_assoc. }
        split; [exact Eg |].
        split. { simpl. lia. }
        split. { now constructor. }
        split.
        { cbn [map snd List.length app]. destruct Hstop as [[E L] | E]; rewrite E; auto. }
        rewrite Ename. cbn [v2' s_name]. cbn [letters_of] in Elet |- *.
        destruct (String.get topi all_letters) as [c |]; [| discriminate].
        inversion Elet. apply append_snoc.
      * rewrite getitem_beyond by exact Hge. reflexivity.
Qed.

Lemma cell_call_length (net : RNN T) (cat_t out : list T) :
  notebook_model net ->
  List.length cat_t = n_categories ->
  cell_call net cat_t out ->
  List.length out = n_letters.
Proof.
  intros (Hs & Hcs & His & Hos) Hc (input & hidden & g & h' & g' & Lx & Lh & Efw).
  destruct (forward_ok net cat_t input hidden g Hs) as (out' & hz & g1 & E & Lout & _);
    [congruence | exact Lx | exact Lh |].
  rewrite Efw in E. inversion E. congruence.
Qed.

(** When every draw is accepted, the steps of the specification run to
    their end. *)
Lemma sample_calls_return (pol : decoding) (net : RNN T) (cat_t : list T) :
  notebook_model net ->
  List.length cat_t = n_categories ->
  (forall out g0, cell_call net cat_t out ->
     exists i g1, multinomial (map exp out) g0 = Some (i, g1) /\ i < List.length out) ->
  forall (n : nat) (row hidden : list T) (g : G),
    List.length row = n_letters ->
    List.length hidden = hidden_size net ->
    exists calls g', sample_calls pol net cat_t n row hidden g = ret (calls, g').
Proof.
  intros (Hs & Hcs & His & Hos) Hc Hacc.
  induction n as [| n IH]; intros row hidden g Lrow Lh.
  - eexists _, _. reflexivity.
  - cbn [sample_calls].
    destruct (forward_ok net cat_t row hidden g Hs) as (out & hz & g1 & Efw & Lout & Lhz);
      [congruence | congruence | exact Lh |].
    assert (Hcall : cell_call net cat_t out).
    { exists row, hidden, g, hz, g1. repeat split; auto; congruence. }
    rewrite Efw. cbn [bind ret].
    destruct (draw_accepted pol out g1 (Hacc out g1 Hcall)) as (topi & g2 & Edraw & Htopi & _).
    { rewrite Lout, Hos, n_letters_eq. lia. }
    rewrite Edraw. cbn [bind ret].
    rewrite Lout, Hos in Htopi.
    destruct (Nat.eqb_spec topi EOS) as [-> | Hne]; [eexists _, _; reflexivity |].
    destruct (Nat.ltb_spec topi EOS) as [Hlt | Hge]; [| unfold EOS in *; lia].
    destruct (IH (one_hot n_letters topi) hz g2) as (calls & g3 & E).
    { apply one_hot_length. }
    { exact Lhz. }
    rewrite E. cbn [bind ret]. eexists _, _. reflexivity.
Qed.

(** The loop invariant of [sample]: from any state holding a well-sized
    input row and hidden vector, [n] remaining iterations make at most [n]
    cell calls, stop at the first end-of-sequence draw, and extend the
    name by the letters of the indices drawn before it. *)
Lemma sample_loop_runs (pol : decoding) (net : RNN T) (cat_t : list T) :
  notebook_model net ->
  List.length cat_t = n_categories ->
  (forall d g0, d <> [] ->
     exists i g1, multinomial d g0 = Some (i, g1) /\ i < List.length d) ->
  forall (n : nat) (v : sample_vars),
    (exists row rest, s_input v = row :: rest /\ List.length row = n_letters) ->
    List.length (s_hidden v) = hidden_size net ->
    exists (v' : sample_vars) (calls : list (list T * nat)) (pre : list nat),
      sample_loop pol net cat_t n v = ret v' /\
      s_trace v' = s_trace v ++ calls /\
      List.length calls <= n /\
      Forall (fun i => i < EOS) pre /\
      (map snd calls = pre /\ List.length calls = n \/ map snd calls = pre ++ [EOS]) /\
      s_name v' = (s_name v ++ letters_of pre)%string /\
      Forall (cell_call net cat_t) (map fst calls).
Proof.
  intros (Hs & Hcs & His & Hos) Hc Hmulti n.
  induction n as [| n IH]; intros v (row & rest & Ein & Lrow) Lh.
  - exists v, [], []. cbn [sample_loop map List.length letters_of].
    rewrite app_nil_r, append_empty_r. repeat split; auto.
  - cbn [sample_loop]. rewrite Ein.
    change 0%Z with (Z.of_nat 0). rewrite (tensor_getitem_nat _ (row :: rest) 0 row eq_refl).
    cbn [bind ret].
    destruct (forward_ok net cat_t row (s_hidden v) (s_gen v) Hs) as (out & hz & g1 & Efw & Lout & Lhz);
      [congruence | congruence | exact Lh |].
    assert (Hcall : cell_call net cat_t out).
    { exists row, (s_hidden v), (s_gen v), hz, g1. repeat split; auto; congruence. }
    rewrite Efw. cbn [bind ret].
    destruct (draw_in_range pol out g1 Hmulti) as (topi & g2 & Edraw & Htopi & _).
    { rewrite Lout, Hos, n_letters_eq. lia. }
    rewrite Edraw. cbn [bind ret]. fold EOS.
    rewrite Lout, Hos in Htopi.
    destruct (Nat.eqb_spec topi EOS) as [-> | Hne].
    + eexists _, [(out, EOS)], []. split; [reflexivity |].
      cbn [s_trace s_name map snd fst List.length letters_of app].
      rewrite append_empty_r. repeat split; auto. lia.
    + assert (Hlt : topi < EOS) by (unfold EOS in *; lia).
      destruct (get_letter topi Hlt) as (letter & Eget & Hletter).
      unfold str_getitem. rewrite Eget. cbn [bind ret].
      rewrite inputTensor_spec. cbn [bind ret chars map].
      match goal with |- context [sample_loop pol net cat_t n ?v2] => set (v2' := v2) end.
      destruct (IH v2')
        as (v' & calls & pre & Eloop & Etrace & Lcalls & Hpre & Hstop & Ename & Hcalls).
      { eexists _, []. split; [reflexivity |]. apply one_hot_length. }
      { exact Lhz. }
      exists v', ((out, topi) :: calls), (topi :: pre).
      split; [exact Eloop |].
      split. { rewrite Etrace. unfold v2'. cbn [s_trace]. now rewrite <- app_assoc. }
      split. { simpl. lia. }
      split. { now constructor. }
      split.
      { cbn [map snd List.length app]. destruct Hstop as [[E L] | E]; rewrite E; auto. }
      split.
      { rewrite Ename. unfold v2'. cbn [s_name letters_of]. rewrite Eget.
        apply append_snoc. }
      cbn [map fst]. now constructor.
Qed.

End SamplerFacts.

Section SamplerClaims.
Context {T G Opt : Type} `{Scalar T} `{Random T G} `{Optimizer T G Opt} `{Dataset}.

Lemma notebook_rnn_model (theta : Params T) : notebook_model (notebook_rnn theta).
Proof. repeat split. Qed.

Lemma train_keeps_module (nb nb' : notebook) (cat_t : list T)
      (input_t : list (list T)) (target_t : list Z) (out : list T) (loss : T) :
  train nb cat_t input_t target_t = ret (out, loss, nb') ->
  exists theta, rnn nb' = load_parameters (rnn nb) theta.
Proof.
  unfold train. cbv zeta.
  destruct (train_loop _ _ _ _ _ _) as [e | v]; [discriminate |].
  cbn [bind ret]. destruct (t_output v); [| discriminate].
  destruct (adam_step _ _ _ _ _ _) as [opt' theta'].
  intros E. inversion E. exists theta'. reflexivity.
Qed.




(** C4 (amended). For a known category and a start symbol of the alphabet,
    [sample] makes the cell steps the specification describes, at most
    [max_length] of them: the first on the row of the start symbol and the
    zero hidden state, each later one on the one-hot row of the index drawn
    before and the hidden state the step before returned.  If every draw
    succeeds it returns: either some step draws the end-of-sequence index,
    no earlier one did and the loop stops there, or no step draws it and
    the loop stops after [max_length] steps; the name returned is the start
    symbol followed by the letters of the indices drawn before the end
    marker, all below the end-of-sequence index, so the marker is never
    part of it.  A draw can fail: [torch.multinomial] raises RuntimeError on
    weights it rejects, and [sample] then stops at that step with the fault
    and returns nothing (the IndexError is that of an index beyond the end
    marker, which [multinomial] does not return).  Whenever [multinomial]
    accepts the exponentials of every cell output and returns one of their
    indices, [sample] returns. *)
Theorem sample_terminates (pol : decoding) (net : RNN T) (g : G)
        (category : string) (c : ascii) :
  notebook_model net ->
  In category all_categories ->
  in_alphabet c = true ->
  exists cat_t : list T,
    categoryTensor category = ret cat_t /\
    (forall calls g',
       sample_calls pol net cat_t max_length
         (one_hot n_letters (letter_slot c)) (init_hidden net) g = ret (calls, g') ->
       exists (v : sample_vars) (pre : list nat),
         sample_run pol net g category (String c EmptyString) = ret v /\
         sample pol net g category (String c EmptyString) = ret (s_name v, g') /\
         s_trace v = calls /\
         List.length calls <= max_length /\
         Forall (fun i => i < EOS) pre /\
         (map snd calls = pre /\ List.length calls = max_length \/
          map snd calls = pre ++ [EOS]) /\
         s_name v = String c (letters_of pre) /\
         alphabet_string (s_name v) = true /\
         String.length (s_name v) <= 1 + max_length) /\
    (forall e,
       sample_calls pol net cat_t max_length
         (one_hot n_letters (letter_slot c)) (init_hidden net) g = raise e ->
       sample pol net g category (String c EmptyString) = raise e /\
       (e = RuntimeError \/ e = IndexError)) /\
    ((forall out g0, cell_call net cat_t out ->
        exists i g1, multinomial (map exp out) g0 = Some (i, g1) /\
                     i < List.length out) ->
     exists calls g',
       sample_calls pol net cat_t max_length
         (one_hot n_letters (letter_slot c)) (init_hidden net) g = ret (calls, g')).
Proof.
  intros Hm Hin Hc.
  destruct (categoryTensor_known (T:=T) category Hin) as (li & Hlt & Ecat).
  exists (one_hot n_categories li). split; [exact Ecat |].
  set (v0 := {| s_input := [one_hot (T:=T) n_letters (letter_slot c)];
                s_hidden := init_hidden net; s_name := String c EmptyString;
                s_gen := g; s_trace := [] |}).
  assert (Erun : sample_run pol net g category (String c EmptyString)
                 = sample_loop pol net (one_hot n_categories li) max_length v0).
  { unfold sample_run. rewrite Ecat, inputTensor_spec. reflexivity. }
  pose proof (sample_loop_refines pol net (one_hot n_categories li) max_length v0
                (one_hot n_letters (letter_slot c)) [] eq_refl) as Href.
  cbn [v0 s_hidden s_gen] in Href.
  split; [| split].
  - intros calls g' Ecalls. rewrite Ecalls in Href.
    destruct Href as (v & pre & Eloop & Etrace & Eg & Lcalls & Hpre & Hstop & Ename).
    cbn [v0 s_trace s_name app append] in Etrace, Ename.
    assert (Lpre : List.length pre <= List.length calls).
    { destruct Hstop as [[E _] | E];
        apply (f_equal (@List.length nat)) in E; rewrite length_map in E;
        [| rewrite length_app in E]; lia. }
    exists v, pre.
    split. { now rewrite Erun. }
    split. { unfold sample. rewrite Erun, Eloop. cbn [bind ret]. now rewrite Eg. }
    split; [exact Etrace |]. split; [exact Lcalls |]. split; [exact Hpre |].
    split; [exact Hstop |]. split; [exact Ename |]. rewrite Ename. split.
    + unfold alphabet_string. cbn [chars forallb append]. rewrite Hc.
      exact (letters_of_alphabet pre).
    + cbn [String.length append]. rewrite letters_of_length by exact Hpre. lia.
  - intros e Ecalls. rewrite Ecalls in Href. split.
    + unfold sample. rewrite Erun, Href. reflexivity.
    + exact (sample_calls_fault pol net _ _ _ _ _ _ Ecalls).
  - intros Hacc.
    apply (sample_calls_return pol net (one_hot n_categories li) Hm); auto.
    + apply one_hot_length.
    + apply one_hot_length.
    + apply zeros_length.
Qed.



Lemma forward_eval (net : RNN T) (c x h : list T) (g : G) :
  training net = false ->
  forward net c x h g
  = (oh <- cell_affine net c x h ;; ret (LogSoftmax (fst oh), snd oh, g)).
Proof.
  intros Hev. rewrite forward_cell_affine, Hev. reflexivity.
Qed.

(** In evaluation mode the greedy loop never consults the generator. *)
Lemma sample_loop_greedy_eval (net : RNN T) (cat_t : list T) :
  training net = false ->
  forall (n : nat) (v w : sample_vars),
    s_input v = s_input w -> s_hidden v = s_hidden w ->
    s_name v = s_name w -> s_trace v = s_trace w ->
    result_map (fun u => (s_name u, s_trace u)) (sample_loop Greedy net cat_t n v)
    = result_map (fun u => (s_name u, s_trace u)) (sample_loop Greedy net cat_t n w).
Proof.
  intros Hev n. induction n as [| n IH]; intros v w Ei Eh En Et.
  - cbn. now rewrite En, Et.
  - cbn [sample_loop]. rewrite <- Ei, <- Eh, <- En, <- Et.
    destruct (tensor_getitem (s_input v) 0) as [e | row]; [reflexivity |].
    cbn [bind ret]. rewrite !forward_eval by exact Hev.
    destruct (cell_affine net cat_t row (s_hidden v)) as [e | [o hz]]; [reflexivity |].
    cbn [bind ret fst snd draw].
    destruct (topk1 (LogSoftmax o)) as [e | topi]; [reflexivity |].
    cbn [bind ret].
    destruct (topi =? n_letters - 1); [reflexivity |].
    destruct (str_getitem all_letters topi) as [e | letter]; [reflexivity |].
    cbn [bind ret].
    destruct (inputTensor (String letter EmptyString)) as [e | input]; [reflexivity |].
    cbn [bind ret]. apply IH; reflexivity.
Qed.

(** C7 (amended). Greedy decoding is deterministic once the module is in
    evaluation mode: with dropout off, two greedy runs with the same
    weights, category and start symbol return the same string (or the same
    fault) whatever the state of the random generator.  In training mode,
    as the notebook runs it, the string also depends on the dropout masks
    the generator supplies. *)
Theorem greedy_eval_deterministic (net : RNN T) (category start_letter : string)
        (g1 g2 : G) :
  training net = false ->
  result_map fst (sample Greedy net g1 category start_letter)
  = result_map fst (sample Greedy net g2 category start_letter).
Proof.
  intros Hev. unfold sample, sample_run.
  destruct (categoryTensor category) as [e | cat_t]; cbn [bind ret]; [reflexivity |].
  destruct (inputTensor start_letter) as [e | input]; cbn [bind ret]; [reflexivity |].
  match goal with
  | |- result_map fst (bind (sample_loop _ _ _ _ ?v) _)
       = result_map fst (bind (sample_loop _ _ _ _ ?w) _) =>
      pose proof (sample_loop_greedy_eval net cat_t Hev max_length v w
                    eq_refl eq_refl eq_refl eq_refl) as E;
      destruct (sample_loop Greedy net cat_t max_length v) as [e1 | u1];
      destruct (sample_loop Greedy net cat_t max_length w) as [e2 | u2];
      unfold result_map in E |- *; cbn [bind ret fst] in E |- *;
      unfold ret in E |- *; congruence
  end.
Qed.

End SamplerClaims.

(* ------------------------------------------------------------------ *)
(** ** Concrete runs over the reals *)

#[local] Existing Instance R_scalar.
#[local] Existing Instance tape_random.
#[local] Existing Instance still_optimizer.
#[local] Existing Instance names_dataset.

Lemma R_fold_zero (l : list R) :
  Forall (fun y => y = 0%R) l -> forall acc, fold_left Rplus l acc = acc.
Proof.
  induction 1 as [| y l Hy _ IH]; intros acc; simpl; [reflexivity |].
  rewrite IH, Hy. apply Rplus_0_r.
Qed.

Lemma dot_zero_weights (n : nat) (w : nat -> R) (x : list R) :
  (forall i, w i = 0%R) -> dot n w x = 0%R.
Proof.
  intros Hw. unfold dot, sum_list. cbn [add zero mul R_scalar].
  apply R_fold_zero. apply Forall_forall. intros y Hy.
  apply in_map_iff in Hy. destruct Hy as (i & <- & _).
  rewrite Hw. apply Rmult_0_r.
Qed.

Lemma Linear_zero_weights (l : Linear R) (x : list R) :
  (forall j i, weight l j i = 0%R) ->
  List.length x = in_features l ->
  Linear_forward l x = ret (map (bias l) (seq 0 (out_features l))).
Proof.
  intros Hw Hx. unfold Linear_forward. rewrite Hx, Nat.eqb_refl. f_equal.
  apply map_ext. intros j. rewrite dot_zero_weights by apply Hw.
  cbn [add R_scalar]. apply Rplus_0_l.
Qed.

Lemma cell_affine_bias (c x h : list R) :
  List.length c = 18 -> List.length x = 59 -> List.length h = 128 ->
  cell_affine bias_rnn c x h = ret (bias_logits, bias_hidden).
Proof.
  intros Hc Hx Hh. unfold cell_affine.
  assert (Hz : List.length (c ++ x ++ h) = 205) by (rewrite !length_app; lia).
  rewrite (Linear_zero_weights (i2h bias_rnn)); [| reflexivity | exact Hz].
  cbn [bind ret].
  rewrite (Linear_zero_weights (i2o bias_rnn)); [| reflexivity | exact Hz].
  cbn [bind ret].
  rewrite (Linear_zero_weights (o2o bias_rnn)); [reflexivity | reflexivity |].
  rewrite length_app, !length_map, !length_seq. reflexivity.
Qed.

Lemma bias_logits_eq : bias_logits = (1 :: repeat 0 57 ++ [1 / 2])%R.
Proof. reflexivity. Qed.

Lemma forward_bias (c x h : list R) (g : tape) :
  List.length c = 18 -> List.length x = 59 -> List.length h = 128 ->
  forward bias_rnn c x h g
  = ret (LogSoftmax (apply_mask (dropout bias_rnn) bias_logits
                       (fst (bernoulli_mask (dropout bias_rnn) 59 g))),
         bias_hidden,
         snd (bernoulli_mask (dropout bias_rnn) 59 g)).
Proof.
  intros Hc Hx Hh. rewrite forward_cell_affine, cell_affine_bias by assumption.
  cbn [bind ret fst snd]. change (training bias_rnn) with true.
  rewrite Dropout_training. reflexivity.
Qed.

Lemma mask_keep_all :
  bernoulli_mask (dropout bias_rnn) 59 keep_all = (repeat true 59, keep_all).
Proof. reflexivity. Qed.

Lemma mask_drop_first :
  bernoulli_mask (dropout bias_rnn) 59 drop_first = (false :: repeat true 58, keep_all).
Proof. reflexivity. Qed.

Lemma noise_keep : noise (dropout bias_rnn) true = (10 / 9)%R.
Proof.
  unfold noise. change (dropout bias_rnn) with (1 / INR 10)%R.
  cbn [div sub one R_scalar]. replace (INR 10) with 10%R by (simpl; lra). field.
Qed.

Lemma noise_drop : noise (dropout bias_rnn) false = 0%R.
Proof.
  unfold noise. change (dropout bias_rnn) with (1 / INR 10)%R.
  cbn [div sub one zero R_scalar]. replace (INR 10) with 10%R by (simpl; lra). field.
Qed.

Lemma apply_mask_cons (p x : R) (l : list R) (b : bool) (m : list bool) :
  apply_mask p (x :: l) (b :: m) = (x * noise p b)%R :: apply_mask p l m.
Proof. reflexivity. Qed.

Lemma apply_mask_keep (p : R) (l : list R) :
  apply_mask p l (repeat true (List.length l)) = map (fun x => (x * noise p true)%R) l.
Proof.
  induction l as [| x l IH]; [reflexivity |].
  cbn [List.length repeat]. rewrite apply_mask_cons, IH. reflexivity.
Qed.

(** The projected output after dropout, under the two masks. *)
Lemma kept_logits :
  apply_mask (dropout bias_rnn) bias_logits (repeat true 59)
  = (1 * (10 / 9) :: map (fun x => x * (10 / 9)) (repeat 0 57 ++ [1 / 2]))%R.
Proof.
  rewrite (apply_mask_keep (dropout bias_rnn) bias_logits : apply_mask _ _ (repeat true 59) = _).
  rewrite noise_keep. reflexivity.
Qed.

Lemma dropped_logits :
  apply_mask (dropout bias_rnn) bias_logits (false :: repeat true 58)
  = (1 * 0 :: map (fun x => x * (10 / 9)) (repeat 0 57) ++ [1 / 2 * (10 / 9)])%R.
Proof.
  rewrite bias_logits_eq, apply_mask_cons, noise_drop. f_equal.
  rewrite (apply_mask_keep (dropout bias_rnn) (repeat 0 57 ++ [1 / 2])%R
           : apply_mask _ _ (repeat true 58) = _).
  rewrite noise_keep, map_app. reflexivity.
Qed.

Lemma R_ltb_shift (a b c : R) : R_ltb (a - c) (b - c) = R_ltb a b.
Proof.
  unfold R_ltb.
  destruct (Rlt_dec (a - c) (b - c)), (Rlt_dec a b); try reflexivity; exfalso; lra.
Qed.

Lemma R_ltb_false (a b : R) : ~ (a < b)%R -> R_ltb a b = false.
Proof. intros Hn. unfold R_ltb. destruct (Rlt_dec a b); [contradiction | reflexivity]. Qed.

Lemma R_ltb_true (a b : R) : (a < b)%R -> R_ltb a b = true.
Proof. intros Hlt. unfold R_ltb. destruct (Rlt_dec a b); [reflexivity | contradiction]. Qed.

Lemma argmax_from_shift (c : R) (l : list R) :
  forall i best best_v,
    argmax_from (map (fun x => (x - c)%R) l) i best (best_v - c)%R
    = argmax_from l i best best_v.
Proof.
  induction l as [| x l IH]; intros i best best_v; [reflexivity |].
  cbn [map argmax_from ltb R_scalar]. rewrite R_ltb_shift.
  destruct (R_ltb best_v x); apply IH.
Qed.

Lemma topk1_LogSoftmax (v : list R) : topk1 (LogSoftmax v) = topk1 v.
Proof.
  unfold LogSoftmax. cbv zeta. generalize (log (sum_list (map exp v))) as lse.
  intros lse. destruct v as [| x l]; [reflexivity |].
  cbn [map topk1 sub R_scalar]. f_equal. apply argmax_from_shift.
Qed.

Lemma argmax_from_below (l : list R) :
  forall i best best_v,
    Forall (fun y => ~ (best_v < y)%R) l -> argmax_from l i best best_v = best.
Proof.
  induction l as [| x l IH]; intros i best best_v HF; [reflexivity |].
  inversion HF as [| ? ? Hx HF']; subst.
  cbn [argmax_from ltb R_scalar]. rewrite (R_ltb_false _ _ Hx). now apply IH.
Qed.

Lemma argmax_from_last (l : list R) (y : R) :
  forall i best best_v,
    Forall (fun x => ~ (best_v < x)%R) l -> (best_v < y)%R ->
    argmax_from (l ++ [y]) i best best_v = i + List.length l.
Proof.
  induction l as [| x l IH]; intros i best best_v HF Hy.
  - cbn [app argmax_from ltb R_scalar List.length]. rewrite (R_ltb_true _ _ Hy). lia.
  - inversion HF as [| ? ? Hx HF']; subst.
    cbn [app argmax_from ltb R_scalar List.length]. rewrite (R_ltb_false _ _ Hx).
    rewrite IH by assumption. lia.
Qed.

Lemma Forall_repeat (A : Type) (P : A -> Prop) (a : A) (n : nat) :
  P a -> Forall P (repeat a n).
Proof. intros Ha. induction n; simpl; constructor; auto. Qed.

(** With every activation kept the largest logit is the letter a. *)
Lemma topk1_kept :
  topk1 (LogSoftmax (apply_mask (dropout bias_rnn) bias_logits (repeat true 59))) = ret 0.
Proof.
  rewrite topk1_LogSoftmax, kept_logits. cbn [topk1]. f_equal.
  apply argmax_from_below. apply Forall_map, Forall_app. split.
  - apply Forall_repeat. lra.
  - constructor; [lra | constructor].
Qed.

(** With the first activation dropped the largest logit is the end marker. *)
Lemma topk1_dropped :
  topk1 (LogSoftmax (apply_mask (dropout bias_rnn) bias_logits (false :: repeat true 58)))
  = ret EOS.
Proof.
  rewrite topk1_LogSoftmax, dropped_logits. cbn [topk1]. f_equal.
  rewrite argmax_from_last.
  - now rewrite length_map, repeat_length.
  - apply Forall_map, Forall_repeat. lra.
  - lra.
Qed.

Lemma LogSoftmax_gap (x0 x1 : R) (l : list R) :
  (nth 0 (LogSoftmax (x0 :: x1 :: l)) 0 - nth 1 (LogSoftmax (x0 :: x1 :: l)) 0
   = x0 - x1)%R.
Proof.
  unfold LogSoftmax. cbv zeta.
  generalize (log (sum_list (map exp (x0 :: x1 :: l)))) as lse. intros lse.
  cbn [map nth sub R_scalar]. lra.
Qed.

Lemma kept_not_dropped :
  LogSoftmax (apply_mask (dropout bias_rnn) bias_logits (repeat true 59))
  <> LogSoftmax (apply_mask (dropout bias_rnn) bias_logits (false :: repeat true 58)).
Proof.
  rewrite kept_logits, dropped_logits. intros E.
  apply (f_equal (fun l => (nth 0 l 0 - nth 1 l 0)%R)) in E.
  cbn [repeat map app] in E. rewrite !LogSoftmax_gap in E. lra.
Qed.


(** The pairs of the notebook's own example: for ABCD the inputs are A, B,
    C, D and the targets B, C, D, EOS. *)
Example inputTensor_ABCD :
  inputTensor (T:=R) "ABCD"
  = ret [one_hot n_letters 26; one_hot n_letters 27;
         one_hot n_letters 28; one_hot n_letters 29].
Proof. reflexivity. Qed.

Example targetTensor_ABCD : targetTensor "ABCD" = ret [27; 28; 29; 58]%Z.
Proof. reflexivity. Qed.

Example one_hot_row : @one_hot R R_scalar 4 2 = [0; 0; 1; 0]%R.
Proof. reflexivity. Qed.

Lemma russian_tensor : categoryTensor "Russian" = ret russian_t.
Proof. reflexivity. Qed.

Lemma russian_length : List.length russian_t = 18.
Proof. apply one_hot_length. Qed.

Lemma letter_A_tensor : inputTensor "A" = ret [letter_A_t].
Proof. rewrite inputTensor_spec. reflexivity. Qed.

Lemma letter_a_tensor : inputTensor "a" = ret [one_hot n_letters 0].
Proof. rewrite inputTensor_spec. reflexivity. Qed.

Lemma bias_hidden_length : List.length bias_hidden = 128.
Proof. unfold bias_hidden. now rewrite length_map, length_seq. Qed.

(** One greedy iteration while the generator keeps every activation: the
    letter a is appended and the generator is unchanged. *)
Lemma greedy_keep_step (n : nat) (row h : list R) (name : string)
      (trace : list (list R * nat)) :
  List.length row = 59 -> List.length h = 128 ->
  sample_loop Greedy bias_rnn russian_t (S n)
    {| s_input := [row]; s_hidden := h; s_name := name;
       s_gen := keep_all; s_trace := trace |}
  = sample_loop Greedy bias_rnn russian_t n
      {| s_input := [one_hot n_letters 0]; s_hidden := bias_hidden;
         s_name := (name ++ "a")%string; s_gen := keep_all;
         s_trace := trace ++
           [(LogSoftmax (apply_mask (dropout bias_rnn) bias_logits (repeat true 59)), 0)] |}.
Proof.
  intros Lrow Lh. cbn [sample_loop s_input s_hidden s_gen s_name s_trace].
  change (tensor_getitem [row] 0) with (ret row). cbn [bind ret].
  rewrite forward_bias by (auto using russian_length).
  rewrite mask_keep_all. cbn [bind ret fst snd draw].
  rewrite topk1_kept. cbn [bind ret].
  change (0 =? n_letters - 1) with false. cbv iota.
  change (str_getitem all_letters 0) with (ret "a"%char). cbn [bind ret].
  rewrite letter_a_tensor. reflexivity.
Qed.

Lemma greedy_keep_run (n : nat) :
  forall (row h : list R) (name : string) (trace : list (list R * nat)),
    List.length row = 59 -> List.length h = 128 ->
    exists v,
      sample_loop Greedy bias_rnn russian_t n
        {| s_input := [row]; s_hidden := h; s_name := name;
           s_gen := keep_all; s_trace := trace |} = ret v /\
      s_name v = (name ++ letters_of (repeat 0 n))%string /\
      s_gen v = keep_all.
Proof.
  induction n as [| n IH]; intros row h name trace Lrow Lh.
  - eexists. split; [reflexivity |]. cbn [s_name s_gen repeat letters_of].
    now rewrite append_empty_r.
  - rewrite greedy_keep_step by assumption.
    destruct (IH (one_hot n_letters 0) bias_hidden (name ++ "a")%string
                 (trace ++ [(LogSoftmax (apply_mask (dropout bias_rnn) bias_logits
                                           (repeat true 59)), 0)]))
      as (v & E & En & Eg).
    { apply one_hot_length. }
    { apply bias_hidden_length. }
    exists v. split; [exact E |]. split; [| exact Eg].
    rewrite En. apply append_snoc.
Qed.

Lemma greedy_keep_all_name :
  sample Greedy bias_rnn keep_all "Russian" "A"
  = ret ("Aaaaaaaaaaaaaaaaaaaaa"%string, keep_all).
Proof.
  unfold sample, sample_run. rewrite russian_tensor, letter_A_tensor.
  cbn [bind ret].
  destruct (greedy_keep_run max_length letter_A_t (init_hidden bias_rnn) "A" [])
    as (v & E & En & Eg).
  { apply one_hot_length. }
  { apply zeros_length. }
  rewrite E. cbn [bind ret]. rewrite En, Eg. reflexivity.
Qed.

(** The first iteration when the generator drops the first activation:
    the end marker is drawn, by either policy, and the loop stops. *)
Lemma drop_first_step (pol : decoding) (n : nat) :
  sample_loop pol bias_rnn russian_t (S n)
    {| s_input := [letter_A_t]; s_hidden := init_hidden bias_rnn; s_name := "A";
       s_gen := drop_first; s_trace := [] |}
  = ret {| s_input := [letter_A_t]; s_hidden := bias_hidden; s_name := "A";
           s_gen := keep_all;
           s_trace :=
             [(LogSoftmax (apply_mask (dropout bias_rnn) bias_logits
                             (false :: repeat true 58)), EOS)] |}.
Proof.
  cbn [sample_loop s_input s_hidden s_gen s_name s_trace].
  change (tensor_getitem [letter_A_t] 0) with (ret letter_A_t). cbn [bind ret].
  rewrite forward_bias;
    [| apply russian_length | apply one_hot_length | apply zeros_length].
  rewrite mask_drop_first. cbn [bind ret fst snd].
  assert (Edraw : draw pol (LogSoftmax (apply_mask (dropout bias_rnn) bias_logits
                                          (false :: repeat true 58))) keep_all
                  = ret (EOS, keep_all)).
  { destruct pol; cbn [draw].
    - unfold multinomial, tape_random, tape_multinomial. rewrite dropped_logits.
      reflexivity.
    - rewrite topk1_dropped. reflexivity. }
  rewrite Edraw. cbn [bind ret]. fold EOS. rewrite Nat.eqb_refl. reflexivity.
Qed.

Lemma drop_first_run (pol : decoding) :
  sample_run pol bias_rnn drop_first "Russian" "A"
  = ret {| s_input := [letter_A_t]; s_hidden := bias_hidden; s_name := "A";
           s_gen := keep_all;
           s_trace :=
             [(LogSoftmax (apply_mask (dropout bias_rnn) bias_logits
                             (false :: repeat true 58)), EOS)] |}.
Proof.
  unfold sample_run. rewrite russian_tensor, letter_A_tensor.
  cbn [bind ret]. exact (drop_first_step pol 19).
Qed.

(** One stochastic step while the generator keeps every activation: the
    index drawn is the next raw draw of the tape, reduced below 59. *)
Lemma mask_keep_draws (ks : list nat) :
  bernoulli_mask (dropout bias_rnn) 59 ([], ks) = (repeat true 59, ([], ks)).
Proof. reflexivity. Qed.

Lemma stochastic_keep_draw (k : nat) (ks : list nat) :
  draw Stochastic
    (LogSoftmax (apply_mask (dropout bias_rnn) bias_logits (repeat true 59)))
    ([], k :: ks)
  = ret (k mod 59, ([], ks)).
Proof.
  cbn [draw]. unfold multinomial, tape_random, tape_multinomial.
  rewrite kept_logits. reflexivity.
Qed.

Lemma stochastic_keep_step (n : nat) (row h : list R) (k : nat) (ks : list nat) :
  List.length row = 59 -> List.length h = 128 ->
  sample_calls Stochastic bias_rnn russian_t (S n) row h ([], k :: ks)
  = (if k mod 59 =? EOS
     then ret ([(LogSoftmax (apply_mask (dropout bias_rnn) bias_logits (repeat true 59)),
                 k mod 59)], ([], ks))
     else if k mod 59 <? EOS
     then
       ' (calls, g3) <- sample_calls Stochastic bias_rnn russian_t n
                          (one_hot n_letters (k mod 59)) bias_hidden ([], ks) ;;
       ret ((LogSoftmax (apply_mask (dropout bias_rnn) bias_logits (repeat true 59)),
             k mod 59) :: calls, g3)
     else raise IndexError).
Proof.
  intros Lrow Lh. cbn [sample_calls].
  rewrite forward_bias by (auto using russian_length).
  rewrite mask_keep_draws. cbn [bind ret fst snd].
  rewrite stochastic_keep_draw. reflexivity.
Qed.

(** The run on the raw draws 1, 0, 58: the letters b and a, then the end
    marker at the third step. *)
Lemma stochastic_three_steps :
  sample_calls Stochastic bias_rnn russian_t max_length letter_A_t hidden0
    ([], [1; 0; 58])
  = ret ([(LogSoftmax (apply_mask (dropout bias_rnn) bias_logits (repeat true 59)), 1);
          (LogSoftmax (apply_mask (dropout bias_rnn) bias_logits (repeat true 59)), 0);
          (LogSoftmax (apply_mask (dropout bias_rnn) bias_logits (repeat true 59)), EOS)],
         keep_all).
Proof.
  change max_length with (S (S (S 17))).
  rewrite stochastic_keep_step by (apply one_hot_length || apply zeros_length).
  change (1 mod 59 =? EOS) with false. change (1 mod 59 <? EOS) with true. cbv iota.
  rewrite stochastic_keep_step by (apply one_hot_length || apply bias_hidden_length).
  change (0 mod 59 =? EOS) with false. change (0 mod 59 <? EOS) with true. cbv iota.
  rewrite stochastic_keep_step by (apply one_hot_length || apply bias_hidden_length).
  change (58 mod 59 =? EOS) with true. cbv iota. reflexivity.
Qed.

Lemma tape_draw_range (A : Type) (d : list A) (g : tape) :
  d <> [] -> fst (tape_draw d g) < List.length d.
Proof.
  intros Hd. assert (Hlen : 0 < List.length d) by (destruct d; simpl; [congruence | lia]).
  unfold tape_draw. destruct (snd g) as [| k ks]; cbn [fst].
  - lia.
  - apply Nat.mod_upper_bound. lia.
Qed.

Lemma tape_multinomial_range (d : list R) (g : tape) :
  d <> [] ->
  exists i g1, multinomial d g = Some (i, g1) /\ i < List.length d.
Proof.
  intros Hd. pose proof (tape_draw_range R d g Hd) as Hlt.
  unfold multinomial, tape_random, tape_multinomial.
  destruct d as [| w d]; [congruence |].
  destruct (tape_draw (w :: d) g) as [i g1]. eauto.
Qed.

Lemma bias_rnn_model : notebook_model bias_rnn.
Proof. apply notebook_rnn_model. Qed.

Lemma russian_known : In "Russian"%string all_categories.
Proof. simpl. tauto. Qed.

(** *** A model whose parameters are nan *)

#[local] Existing Instance nan_scalar.
#[local] Existing Instance nan_random.

Lemma nan_rnn_model : notebook_model nan_rnn.
Proof. apply notebook_rnn_model. Qed.

Lemma nan_Linear_forward (l : Linear (option R)) (x o : list (option R)) :
  (forall j, bias l j = None) ->
  Linear_forward l x = ret o ->
  Forall (fun y => y = None) o.
Proof.
  intros Hb. unfold Linear_forward.
  destruct (List.length x =? in_features l); [| discriminate].
  intros E. inversion E. apply Forall_forall. intros y Hy.
  apply in_map_iff in Hy. destruct Hy as (j & <- & _). rewrite Hb.
  cbn [add nan_scalar]. now destruct (dot (in_features l) (weight l j) x).
Qed.

Lemma nan_apply_mask (p : option R) (x : list (option R)) (mask : list bool) :
  Forall (fun y => y = None) x -> Forall (fun y => y = None) (apply_mask p x mask).
Proof.
  intros Hx. rewrite Forall_forall in Hx. unfold apply_mask.
  apply Forall_forall. intros y Hy. apply in_map_iff in Hy.
  destruct Hy as ([a b] & <- & Hin). apply in_combine_l in Hin.
  cbn [fst snd]. now rewrite (Hx a Hin).
Qed.

Lemma nan_LogSoftmax (x : list (option R)) :
  Forall (fun y => y = None) x -> Forall (fun y => y = None) (LogSoftmax x).
Proof.
  intros Hx. rewrite Forall_forall in Hx. unfold LogSoftmax. cbv zeta.
  apply Forall_forall. intros y Hy. apply in_map_iff in Hy.
  destruct Hy as (a & <- & Hin). now rewrite (Hx a Hin).
Qed.

(** Whatever goes into the cell, nothing but nan comes out of it. *)
Lemma nan_forward (c x h out h' : list (option R)) (g g' : tape) :
  forward nan_rnn c x h g = ret (out, h', g') ->
  Forall (fun y => y = None) out.
Proof.
  rewrite forward_cell_affine. unfold cell_affine.
  destruct (Linear_forward (i2h nan_rnn) (c ++ x ++ h)) as [e | hz]; [discriminate |].
  cbn [bind ret].
  destruct (Linear_forward (i2o nan_rnn) (c ++ x ++ h)) as [e | oz]; [discriminate |].
  cbn [bind ret].
  destruct (Linear_forward (o2o nan_rnn) (oz ++ hz)) as [e | o] eqn:Eo; [discriminate |].
  cbn [bind ret fst snd]. change (training nan_rnn) with true.
  rewrite Dropout_training. cbn [fst snd]. intros E. unfold ret in E.
  match type of E with
  | inr (?a, _, _) = _ => assert (Eout : a = out) by congruence
  end.
  rewrite <- Eout. apply nan_LogSoftmax, nan_apply_mask.
  exact (nan_Linear_forward (o2o nan_rnn) (oz ++ hz) o (fun j => eq_refl) Eo).
Qed.

(** [torch.multinomial] rejects the exponentials of a nan output. *)
Lemma nan_draw (out : list (option R)) (g : tape) :
  Forall (fun y => y = None) out ->
  draw Stochastic out g = raise RuntimeError.
Proof.
  intros Hout. cbn [draw]. unfold multinomial, nan_random, nan_multinomial.
  destruct out as [| y out]; [reflexivity |].
  inversion Hout as [| ? ? Hy _]; subst. reflexivity.
Qed.

Lemma nan_sample_calls (c x h : list (option R)) (g : tape) (n : nat) :
  List.length c = 18 -> List.length x = 59 -> List.length h = 128 ->
  sample_calls Stochastic nan_rnn c (S n) x h g = raise RuntimeError.
Proof.
  intros Lc Lx Lh. cbn [sample_calls].
  destruct (forward_ok nan_rnn c x h g) as (out & hz & g1 & Efw & _); auto.
  { apply nan_rnn_model. }
  rewrite Efw. cbn [bind ret]. rewrite (nan_draw out g1 (nan_forward _ _ _ _ _ _ _ Efw)).
  reflexivity.
Qed.

Lemma nan_sample (g : tape) :
  sample Stochastic nan_rnn g "Russian" "A" = raise RuntimeError.
Proof.
  unfold sample, sample_run.
  change (categoryTensor "Russian") with (ret (one_hot (T:=option R) 18 6)).
  rewrite inputTensor_spec. cbn [bind ret chars map].
  pose proof (sample_loop_refines Stochastic nan_rnn (one_hot 18 6) max_length
                {| s_input := [one_hot (T:=option R) n_letters (letter_slot "A")];
                   s_hidden := init_hidden nan_rnn; s_name := "A";
                   s_gen := g; s_trace := [] |}
                (one_hot n_letters (letter_slot "A")) [] eq_refl) as Href.
  cbn [s_hidden s_gen] in Href. change max_length with (S 19) in Href.
  rewrite nan_sample_calls in Href
    by (apply one_hot_length || apply zeros_length).
  change (S 19) with max_length in Href. rewrite Href. reflexivity.
Qed.

(* ------------------------------------------------------------------ *)
(** ** Where the specification and the notebook part ways *)

(** C1, as stated, fails on the empty string: it is a string over the
    alphabet, its input matrix has no row, and its target sequence has one
    entry, the end marker. *)
Lemma empty_line_lengths_differ :
  alphabet_string EmptyString = true /\
  inputTensor (T:=R) EmptyString = ret [] /\
  targetTensor EmptyString = ret [Z.of_nat EOS] /\
  List.length [Z.of_nat EOS] <> List.length (@nil (list R)).
Proof. repeat split. discriminate. Qed.

(** C2, as stated, fails on purity: the same weights, category, symbol and
    hidden vector give different log-probabilities under two generator
    states, and the call leaves the generator in another state than it
    found it. *)
Lemma forward_depends_on_generator :
  forward bias_rnn russian_t letter_A_t hidden0 keep_all
  = ret (LogSoftmax (apply_mask (dropout bias_rnn) bias_logits (repeat true 59)),
         bias_hidden, keep_all) /\
  forward bias_rnn russian_t letter_A_t hidden0 drop_first
  = ret (LogSoftmax (apply_mask (dropout bias_rnn) bias_logits (false :: repeat true 58)),
         bias_hidden, keep_all) /\
  LogSoftmax (apply_mask (dropout bias_rnn) bias_logits (repeat true 59))
  <> LogSoftmax (apply_mask (dropout bias_rnn) bias_logits (false :: repeat true 58)) /\
  drop_first <> keep_all.
Proof.
  assert (L1 : List.length russian_t = 18) by apply russian_length.
  assert (L2 : List.length letter_A_t = 59) by apply one_hot_length.
  assert (L3 : List.length hidden0 = 128) by apply zeros_length.
  split; [| split; [| split]].
  - rewrite forward_bias, mask_keep_all by assumption. reflexivity.
  - rewrite forward_bias, mask_drop_first by assumption. reflexivity.
  - exact kept_not_dropped.
  - discriminate.
Qed.


(** C7, as stated, fails: two greedy runs with the same weights, category
    and start symbol return different strings when the generator supplies
    different dropout masks. *)
Lemma greedy_runs_differ :
  sample Greedy bias_rnn keep_all "Russian" "A"
  = ret ("Aaaaaaaaaaaaaaaaaaaaa"%string, keep_all) /\
  sample Greedy bias_rnn drop_first "Russian" "A" = ret ("A"%string, keep_all) /\
  "Aaaaaaaaaaaaaaaaaaaaa"%string <> "A"%string.
Proof.
  split; [exact greedy_keep_all_name |]. split; [| discriminate].
  unfold sample. rewrite drop_first_run. reflexivity.
Qed.

(** C4, as stated, fails on a model whose parameters are nan, as they are
    after a training that diverged: the category is known and the start
    symbol is in the alphabet, the first cell call returns nan for every
    log-probability, [torch.multinomial] rejects their exponentials, and
    [sample] raises the RuntimeError instead of returning a name. *)
Lemma sample_fails_on_nan_weights :
  notebook_model nan_rnn /\
  In "Russian"%string all_categories /\
  in_alphabet "A" = true /\
  sample Stochastic nan_rnn keep_all "Russian" "A" = raise RuntimeError.
Proof.
  split; [exact nan_rnn_model |]. split; [exact russian_known |].
  split; [reflexivity |]. apply nan_sample.
Qed.

(** C8, as stated, fails: the digit 1 is outside the alphabet, and both
    encoders return normally on a string that holds it. *)
Lemma foreign_symbol_accepted :
  alphabet_string "A1" = false /\
  inputTensor (T:=R) "A1" = ret [one_hot n_letters 26; one_hot n_letters EOS] /\
  targetTensor "A1" = ret [(-1)%Z; Z.of_nat EOS].
Proof.
  split; [reflexivity |]. split; [| reflexivity].
  rewrite inputTensor_spec. reflexivity.
Qed.

(* ------------------------------------------------------------------ *)
(** ** The theorems at concrete inputs *)

Lemma target_matches_input_witness :
  alphabet_string "Ann" = true /\
  exists (rows : list (list R)) (targets : list Z),
    inputTensor "Ann" = ret rows /\
    targetTensor "Ann" = ret targets /\
    last targets 0%Z = Z.of_nat EOS /\
    List.length targets = List.length rows.
Proof.
  split; [reflexivity |].
  destruct (target_matches_input (T:=R) "Ann" eq_refl)
    as (rows & targets & E1 & E2 & El & _ & Hlen & _).
  exists rows, targets. repeat split; auto. apply Hlen. discriminate.
Defined.

Lemma forward_step_witness :
  shaped bias_rnn /\
  List.length russian_t = cat_size bias_rnn /\
  List.length letter_A_t = input_size bias_rnn /\
  List.length hidden0 = hidden_size bias_rnn /\
  exists hz o,
    List.length o = output_size bias_rnn /\
    forall g : tape,
      forward bias_rnn russian_t letter_A_t hidden0 g
      = ret (LogSoftmax
               (apply_mask (dropout bias_rnn) o
                  (fst (bernoulli_mask (dropout bias_rnn) (output_size bias_rnn) g))),
             hz,
             snd (bernoulli_mask (dropout bias_rnn) (output_size bias_rnn) g)).
Proof.
  assert (Hs : shaped bias_rnn) by (repeat split).
  assert (L1 : List.length russian_t = cat_size bias_rnn) by reflexivity.
  assert (L2 : List.length letter_A_t = input_size bias_rnn) by reflexivity.
  assert (L3 : List.length hidden0 = hidden_size bias_rnn) by reflexivity.
  repeat (split; [assumption |]).
  destruct (forward_step (G:=tape) bias_rnn russian_t letter_A_t hidden0 Hs L1 L2 L3)
    as (hz & oz & o & _ & _ & _ & Lo & _ & _ & Htr).
  exists hz, o. split; [exact Lo |]. apply Htr. reflexivity.
Defined.

Lemma train_reports_mean_loss_witness :
  notebook_model (rnn (bias_notebook keep_all)) /\
  In "Russian"%string all_categories /\
  "Ann"%string <> EmptyString /\
  alphabet_string "Ann" = true /\
  exists outs targets out nb',
    List.length outs = 3 /\
    List.length targets = 3 /\
    train_step (bias_notebook keep_all) "Russian" "Ann"
    = ret (out, mean_nll outs targets, nb').
Proof.
  assert (H1 : notebook_model (rnn (bias_notebook keep_all))) by exact bias_rnn_model.
  assert (H3 : "Ann"%string <> EmptyString) by discriminate.
  assert (H4 : alphabet_string "Ann" = true) by reflexivity.
  repeat (split; [first [assumption | exact russian_known] |]).
  destruct (train_reports_mean_loss (bias_notebook keep_all) "Russian" "Ann")
    as [Hloss Hret].
  destruct (Hret H1 russian_known H3 H4) as (out & loss & nb' & E).
  destruct (Hloss out loss nb' E)
    as (cat_t & rows & targets & outs & hfin & gfin & Eex & _ & Lo & El).
  exists outs, targets, out, nb'.
  assert (Lt : List.length targets = 3).
  { unfold training_example in Eex. rewrite russian_tensor, inputTensor_spec in Eex.
    cbn [bind ret] in Eex. inversion Eex. reflexivity. }
  split; [congruence |]. split; [exact Lt |]. rewrite E, El. reflexivity.
Defined.

Lemma sample_terminates_witness :
  notebook_model bias_rnn /\
  In "Russian"%string all_categories /\
  in_alphabet "A" = true /\
  exists (calls : list (list R * nat)) (v : sample_vars),
    sample_calls Stochastic bias_rnn russian_t max_length letter_A_t hidden0
      ([], [1; 0; 58]) = ret (calls, keep_all) /\
    map snd calls = [1; 0; EOS] /\
    sample_run Stochastic bias_rnn ([], [1; 0; 58]) "Russian" "A" = ret v /\
    s_trace v = calls /\
    s_name v = "Aba"%string /\
    sample Stochastic bias_rnn ([], [1; 0; 58]) "Russian" "A"
    = ret ("Aba"%string, keep_all).
Proof.
  split; [exact bias_rnn_model |]. split; [exact russian_known |].
  split; [reflexivity |].
  destruct (sample_terminates Stochastic bias_rnn ([], [1; 0; 58]) "Russian" "A"%char
              bias_rnn_model russian_known eq_refl)
    as (cat_t & Ecat & Hret & _ & _).
  rewrite russian_tensor in Ecat. inversion Ecat. subst cat_t.
  destruct (Hret _ _ stochastic_three_steps)
    as (v & pre & Erun & Esample & Etrace & _ & _ & Hstop & Ename & _).
  eexists _, v. split; [exact stochastic_three_steps |].
  split; [reflexivity |]. split; [exact Erun |]. split; [exact Etrace |].
  assert (Epre : pre = [1; 0]).
  { destruct Hstop as [[_ L] | E]; [discriminate L |].
    cbn [map snd] in E. change [1; 0; EOS] with ([1; 0] ++ [EOS]) in E.
    apply app_inj_tail in E. destruct E as [E _]. now symmetry. }
  rewrite Epre in Ename. split; [exact Ename |].
  rewrite Esample, Ename. reflexivity.
Defined.

Lemma categoryTensor_one_hot_witness :
  In "Russian"%string all_categories /\
  ~ In "Klingon"%string all_categories /\
  (exists li (v : list R),
     nth_error all_categories li = Some "Russian"%string /\
     categoryTensor "Russian" = ret v /\
     List.length v = n_categories /\
     forall j, j < n_categories -> (nth j v 0%R = 1%R <-> j = li)) /\
  categoryTensor (T:=R) "Klingon" = raise ValueError.
Proof.
  assert (Hno : ~ In "Klingon"%string all_categories).
  { simpl. intros Hin. repeat (destruct Hin as [Hin | Hin]; [discriminate |]). exact Hin. }
  split; [exact russian_known |]. split; [exact Hno |].
  destruct (categoryTensor_one_hot (T:=R) "Russian") as [Hyes Hnot_R].
  destruct (categoryTensor_one_hot (T:=R) "Klingon") as [_ Hnot].
  split; [| exact (Hnot Hno)].
  destruct (Hyes russian_known) as (li & v & Hn & _ & E & L & _ & Honly).
  exists li, v. repeat split; auto; apply Honly; auto; cbn; lra.
Defined.


Lemma greedy_eval_deterministic_witness :
  training (eval_mode bias_rnn) = false /\
  result_map fst (sample Greedy (eval_mode bias_rnn) keep_all "Russian" "A")
  = result_map fst (sample Greedy (eval_mode bias_rnn) drop_first "Russian" "A").
Proof.
  split; [reflexivity |].
  exact (greedy_eval_deterministic (eval_mode bias_rnn) "Russian" "A"
           keep_all drop_first eq_refl).
Defined.

Lemma foreign_symbol_encoded_witness :
  alphabet_string "A1" = false /\
  notebook_model (rnn (bias_notebook keep_all)) /\
  In "Russian"%string all_categories /\
  (exists (rows : list (list R)) (targets : list Z),
     inputTensor "A1" = ret rows /\
     targetTensor "A1" = ret targets /\
     List.length rows = 2 /\
     List.length targets = 2 /\
     nth_error rows 1 = Some (one_hot n_letters EOS) /\
     nth_error targets 0 = Some (-1)%Z) /\
  train_step (bias_notebook keep_all) "Russian" "A1" = raise RuntimeError.
Proof.
  split; [reflexivity |]. split; [exact bias_rnn_model |].
  split; [exact russian_known |].
  destruct (foreign_symbol_encoded (bias_notebook keep_all) "Russian" "A1" eq_refl)
    as [(rows & targets & E1 & E2 & L1 & L2 & Hsym) Htrain].
  split.
  - destruct (Hsym 1 "1"%char eq_refl eq_refl) as [Hrow Htgt].
    exists rows, targets. repeat split; auto.
  - destruct (Htrain bias_rnn_model russian_known) as [Hfault _].
    apply Hfault. reflexivity.
Defined.

(* ------------------------------------------------------------------ *)
(** ** Loading the data *)

Lemma chars_unchars (cs : list ascii) : chars (unchars cs) = cs.
Proof. induction cs as [| c cs IH]; simpl; [reflexivity | now rewrite IH]. Qed.

Lemma unchars_chars (s : string) : unchars (chars s) = s.
Proof. induction s as [| c s IH]; simpl; [reflexivity | now rewrite IH]. Qed.

Lemma str_split_cons (sep : ascii) (s : string) :
  exists w ws, str_split sep s = w :: ws.
Proof.
  induction s as [| c s (w & ws & IH)]; simpl; [eauto |].
  destruct (Ascii.eqb c sep); [eauto |]. rewrite IH. eauto.
Qed.

Lemma str_split_length (sep : ascii) (s : string) :
  List.length (str_split sep s) = 1 + str_count sep s.
Proof.
  unfold str_count. induction s as [| c s IH]; [reflexivity |].
  cbn [str_split chars filter]. rewrite (Ascii.eqb_sym sep c).
  destruct (Ascii.eqb c sep).
  - cbn [List.length]. now rewrite IH.
  - destruct (str_split_cons sep s) as (w & ws & E). rewrite E in *.
    exact IH.
Qed.

Lemma str_split_pieces (sep : ascii) (s : string) :
  Forall (fun w => str_contains w sep = false) (str_split sep s).
Proof.
  induction s as [| c s IH]; simpl; [repeat constructor |].
  destruct (Ascii.eqb c sep) eqn:Ec; [constructor; [reflexivity | exact IH] |].
  destruct (str_split sep s) as [| w ws]; [repeat constructor; simpl; now rewrite Ec |].
  inversion IH as [| ? ? Hw Hws]; subst. constructor; [| exact Hws].
  simpl. now rewrite Ec, Hw.
Qed.

Lemma str_split_keeps_absent (sep other : ascii) (s : string) :
  str_contains s other = false ->
  Forall (fun w => str_contains w other = false) (str_split sep s).
Proof.
  induction s as [| c s IH]; simpl; [repeat constructor |].
  intros Hs. apply orb_false_iff in Hs. destruct Hs as [Hc Hs].
  specialize (IH Hs).
  destruct (Ascii.eqb c sep); [constructor; [reflexivity | exact IH] |].
  destruct (str_split sep s) as [| w ws]; [repeat constructor; simpl; now rewrite Hc |].
  inversion IH as [| ? ? Hw Hws]; subst. constructor; [| exact Hws].
  simpl. now rewrite Hc, Hw.
Qed.

Lemma str_split_absent (sep : ascii) (s : string) :
  str_contains s sep = false -> str_split sep s = [s].
Proof.
  induction s as [| c s IH]; simpl; [reflexivity |].
  destruct (Ascii.eqb c sep); simpl; [discriminate |].
  intros Hs. now rewrite (IH Hs).
Qed.

Lemma str_split_first (sep : ascii) (a b : string) :
  str_contains a sep = false ->
  str_split sep (a ++ String sep b) = a :: str_split sep b.
Proof.
  induction a as [| c a IH]; simpl.
  - intros _. now rewrite Ascii.eqb_refl.
  - destruct (Ascii.eqb c sep); simpl; [discriminate |].
    intros Ha. now rewrite (IH Ha).
Qed.

Lemma str_split_two (sep : ascii) (a b : string) :
  exists w w' ws, str_split sep (a ++ String sep b) = w :: w' :: ws.
Proof.
  destruct (str_split_cons sep b) as (wb & wsb & Eb).
  induction a as [| c a (w & w' & ws & IH)]; simpl.
  - rewrite Ascii.eqb_refl, Eb. eauto.
  - rewrite IH. destruct (Ascii.eqb c sep); eauto.
Qed.

Lemma str_split_last (sep : ascii) (a b d : string) :
  last (str_split sep (a ++ String sep b)) d = last (str_split sep b) d.
Proof.
  induction a as [| c a IH]; simpl.
  - rewrite Ascii.eqb_refl. destruct (str_split_cons sep b) as (wb & wsb & Eb).
    rewrite Eb. reflexivity.
  - destruct (str_split_two sep a b) as (w & w' & ws & E).
    rewrite E in *. destruct (Ascii.eqb c sep); exact IH.
Qed.

Lemma getitem_last (A : Type) (l : list A) (a d : A) :
  tensor_getitem (a :: l) (-1) = ret (last (a :: l) d).
Proof.
  unfold tensor_getitem. rewrite py_index_minus_one by (simpl; lia).
  cbn [bind ret]. replace (List.length (a :: l) - 1) with (List.length l) by (simpl; lia).
  revert a. induction l as [| b l IH]; intros a; [reflexivity |].
  cbn [List.length nth_error]. rewrite IH. reflexivity.
Qed.

Lemma getitem_first (A : Type) (l : list A) (a : A) :
  tensor_getitem (a :: l) 0 = ret a.
Proof. exact (tensor_getitem_nat A (a :: l) 0 a eq_refl). Qed.

Lemma str_lstrip_blank (s : string) :
  forallb py_isspace (chars s) = true -> str_lstrip s = EmptyString.
Proof.
  induction s as [| c s IH]; simpl; [reflexivity |].
  destruct (py_isspace c); simpl; [exact IH | discriminate].
Qed.

Lemma and_then_done (A B : Type) (m : outcome A) (k : A -> outcome B) (b : B) :
  and_then m k = done b -> exists a, m = done a /\ k a = done b.
Proof. destruct m as [f | a]; simpl; intros E; [discriminate | eauto]. Qed.

Section LoadingFacts.
Context `{Unicode} `{Files}.

Lemma unicode_to_ascii_over_alphabet (s : string) :
  alphabet_string (unicode_to_ascii s) = true.
Proof.
  unfold alphabet_string, unicode_to_ascii. rewrite chars_unchars.
  apply forallb_forall. intros c Hc. apply filter_In in Hc.
  destruct Hc as [_ Hc]. apply andb_true_iff in Hc. tauto.
Qed.

Lemma filter_length_le (A : Type) (f : A -> bool) (l : list A) :
  List.length (filter f l) <= List.length l.
Proof.
  induction l as [| a l IH]; simpl; [lia |]. destruct (f a); simpl; lia.
Qed.

Lemma filter_all (A : Type) (f : A -> bool) (l : list A) :
  forallb f l = true -> filter f l = l.
Proof.
  induction l as [| a l IH]; simpl; [reflexivity |].
  destruct (f a); simpl; [| discriminate]. intros Hl. now rewrite IH.
Qed.

(** X1. Whatever the string and whatever the normal form [unicodedata]
    gives it, [unicode_to_ascii] returns a string over the alphabet, no
    longer than the normal form; and it leaves a string unchanged when the
    string is over the alphabet already, is its own normal form and holds
    no non-spacing mark. *)
Theorem unicode_to_ascii_folds (s : string) :
  alphabet_string (unicode_to_ascii s) = true /\
  String.length (unicode_to_ascii s) <= String.length (normalize_NFD s) /\
  (alphabet_string s = true ->
   normalize_NFD s = s ->
   forallb (fun c => negb (is_Mn c)) (chars s) = true ->
   unicode_to_ascii s = s).
Proof.
  split; [apply unicode_to_ascii_over_alphabet |]. split.
  - unfold unicode_to_ascii. rewrite <- !chars_length, chars_unchars.
    apply filter_length_le.
  - intros Hall Hnfd Hmn. unfold unicode_to_ascii. rewrite Hnfd.
    rewrite filter_all; [apply unchars_chars |].
    unfold alphabet_string in Hall. rewrite forallb_forall in *.
    intros c Hc. now rewrite (Hall c Hc), (Hmn c Hc).
Qed.

(** The lines of a text that was read. *)
Lemma lines_over_alphabet (text : string) :
  Forall (fun line => alphabet_string line = true)
         (map unicode_to_ascii (str_split newline (str_strip text))).
Proof.
  apply Forall_forall. intros line Hl.
  apply in_map_iff in Hl. destruct Hl as (raw & <- & _).
  apply unicode_to_ascii_over_alphabet.
Qed.

Lemma lines_nonempty (text : string) :
  map unicode_to_ascii (str_split newline (str_strip text)) <> [].
Proof.
  destruct (str_split_cons newline (str_strip text)) as (w & ws & E).
  rewrite E. discriminate.
Qed.

Lemma read_lines_read (filename text : string) :
  file_text filename = done text ->
  read_lines filename
  = done (map unicode_to_ascii (str_split newline (str_strip text))).
Proof. intros E. unfold read_lines. now rewrite E. Qed.

Lemma read_lines_fault (filename : string) (f : py_fault) :
  file_text filename = throw f -> read_lines filename = throw f.
Proof. intros E. unfold read_lines. now rewrite E. Qed.

Lemma read_lines_done (filename : string) (lines : list string) :
  read_lines filename = done lines ->
  exists text, file_text filename = done text /\
               lines = map unicode_to_ascii (str_split newline (str_strip text)).
Proof.
  unfold read_lines. destruct (file_text filename) as [f | text]; [discriminate |].
  cbn [and_then]. intros E. inversion E. eauto.
Qed.

(** X2. [read_lines] fails exactly when the file cannot be read, with the
    fault of [open] or [read].  On a file that is read it returns at least
    one line, one more than the stripped text has newlines, and every line
    it returns is over the alphabet; a text of nothing but whitespace
    gives exactly one line, the empty one when the normal form of the empty
    string is empty. *)
Theorem read_lines_lines (filename : string) :
  (forall f, file_text filename = throw f -> read_lines filename = throw f) /\
  (forall text,
     file_text filename = done text ->
     exists lines,
       read_lines filename = done lines /\
       lines <> [] /\
       List.length lines = 1 + str_count newline (str_strip text) /\
       Forall (fun line => alphabet_string line = true) lines /\
       (forallb py_isspace (chars text) = true ->
        lines = [unicode_to_ascii EmptyString] /\
        (normalize_NFD EmptyString = EmptyString -> lines = [EmptyString]))).
Proof.
  split; [apply read_lines_fault |].
  intros text E. eexists. split; [exact (read_lines_read filename text E) |].
  split; [apply lines_nonempty |]. split.
  - rewrite length_map. apply str_split_length.
  - split; [apply lines_over_alphabet |].
    intros Hblank. unfold str_strip.
    rewrite (str_lstrip_blank _ Hblank). split; [reflexivity |].
    intros Hnfd. cbn [str_rstrip str_split map]. unfold unicode_to_ascii.
    now rewrite Hnfd.
Qed.

Lemma category_of_total (filename : string) :
  exists category,
    category_of filename = ret category /\
    str_contains category "/" = false /\
    str_contains category "." = false.
Proof.
  unfold category_of.
  destruct (str_split_cons "/" filename) as (w & ws & E). rewrite E.
  rewrite (getitem_last _ ws w EmptyString). cbn [bind ret].
  set (base := last (w :: ws) EmptyString).
  assert (Hbase : str_contains base "/" = false).
  { pose proof (str_split_pieces "/" filename) as HF. rewrite E in HF.
    rewrite Forall_forall in HF. apply HF. unfold base.
    clear. revert w. induction ws as [| x ws IH]; intros w; [now left |].
    right. apply (IH x). }
  destruct (str_split_cons "." base) as (c & cs & Ec). rewrite Ec.
  rewrite getitem_first. exists c. split; [reflexivity |].
  pose proof (str_split_pieces "." base) as HF. rewrite Ec in HF.
  inversion HF as [| ? ? Hc _]; subst. split; [| exact Hc].
  pose proof (str_split_keeps_absent "." "/" base Hbase) as HF'.
  rewrite Ec in HF'. now inversion HF'.
Qed.

(** X3. The category of a file name is always defined and holds neither a
    slash nor a dot; for a name [dir/stem.ext], where the stem holds
    neither and the extension no slash, it is the stem, whatever the
    directory part holds. *)
Theorem category_of_stem (filename : string) :
  exists category,
    category_of filename = ret category /\
    str_contains category "/" = false /\
    str_contains category "." = false /\
    forall dir stem ext : string,
      filename = (dir ++ String "/" (stem ++ String "." ext))%string ->
      str_contains stem "/" = false ->
      str_contains stem "." = false ->
      str_contains ext "/" = false ->
      category = stem.
Proof.
  destruct (category_of_total filename) as (category & E & Hs & Hd).
  exists category. repeat split; auto.
  intros dir stem ext -> Hstem_s Hstem_d Hext.
  unfold category_of in E.
  destruct (str_split_cons "/" (dir ++ String "/" (stem ++ String "." ext)))
    as (w & ws & Ew).
  rewrite Ew, (getitem_last _ ws w EmptyString) in E. cbn [bind ret] in E.
  rewrite <- Ew, str_split_last in E.
  rewrite (str_split_absent "/" (stem ++ String "." ext)) in E.
  - cbn [last] in E. rewrite (str_split_first "." stem ext Hstem_d) in E.
    rewrite getitem_first in E. now inversion E.
  - clear - Hstem_s Hext. induction stem as [| c stem IH]; simpl in *.
    + exact Hext.
    + apply orb_false_iff in Hstem_s. destruct Hstem_s as [Hc Hs].
      rewrite Hc. exact (IH Hs).
Qed.

End LoadingFacts.

Lemma dict_get_set_same (d : dict) (k : string) (v : list string) :
  dict_get (dict_set d k v) k = done v.
Proof.
  induction d as [| [k' v'] d IH]; simpl.
  - now rewrite String.eqb_refl.
  - destruct (String.eqb k' k) eqn:E; simpl.
    + now rewrite String.eqb_refl.
    + now rewrite E.
Qed.

Lemma dict_get_set_other (d : dict) (k k' : string) (v : list string) :
  k <> k' -> dict_get (dict_set d k v) k' = dict_get d k'.
Proof.
  intros Hne. induction d as [| [k0 v0] d IH]; simpl.
  - destruct (String.eqb_spec k k'); [contradiction | reflexivity].
  - destruct (String.eqb_spec k0 k) as [-> | Hk0]; simpl.
    + destruct (String.eqb_spec k k'); [contradiction | reflexivity].
    + destruct (String.eqb k0 k'); [reflexivity | exact IH].
Qed.

Section LoaderFacts.
Context `{Unicode} `{Files}.

Lemma load_loop_total (filenames : list string) :
  (forall f, In f filenames -> exists text, file_text f = done text) ->
  forall st, exists st',
    load_loop filenames st = done st' /\
    Forall2 (fun f c => category_of f = ret c) filenames
            (skipn (List.length (corpus_categories st)) (corpus_categories st')) /\
    firstn (List.length (corpus_categories st)) (corpus_categories st')
    = corpus_categories st.
Proof.
  induction filenames as [| f rest IH]; intros Hread st.
  - exists st. cbn [load_loop]. rewrite skipn_all, firstn_all. repeat split. constructor.
  - destruct (category_of_total f) as (c & Ec & _).
    destruct (Hread f (or_introl eq_refl)) as (text & Et).
    cbn [load_loop]. rewrite Ec. cbn [lift and_then ret].
    rewrite (read_lines_read f text Et). cbn [and_then done].
    match goal with
    | |- context [load_loop rest ?s] =>
        destruct (IH (fun f' Hf' => Hread f' (or_intror Hf')) s) as (st' & E & HF & Hpre)
    end.
    cbn [corpus_categories] in HF, Hpre. rewrite length_app in HF, Hpre.
    cbn [List.length] in HF, Hpre.
    exists st'. split; [exact E |].
    assert (Hcat : corpus_categories st'
                   = (corpus_categories st ++ [c])
                       ++ skipn (List.length (corpus_categories st) + 1) (corpus_categories st')).
    { rewrite <- Hpre at 1. symmetry. apply firstn_skipn. }
    split.
    + rewrite Hcat at 1. rewrite <- app_assoc, skipn_app, skipn_all, Nat.sub_diag.
      cbn [app skipn]. constructor; [exact Ec | exact HF].
    + rewrite Hcat. rewrite <- app_assoc, firstn_app, firstn_all, Nat.sub_diag.
      cbn [firstn]. apply app_nil_r.
Qed.

(** The loop stops at the first file that cannot be read, with its
    fault. *)
Lemma load_loop_fault (pre : list string) :
  forall (f : string) (post : list string) (e : py_fault) (st : corpus),
    (forall f', In f' pre -> exists text, file_text f' = done text) ->
    file_text f = throw e ->
    load_loop (pre ++ f :: post) st = throw e.
Proof.
  induction pre as [| f0 pre IH]; intros f post e st Hread Ef.
  - destruct (category_of_total f) as (c & Ec & _).
    cbn [app load_loop]. rewrite Ec. cbn [lift and_then ret].
    now rewrite (read_lines_fault f e Ef).
  - destruct (category_of_total f0) as (c & Ec & _).
    destruct (Hread f0 (or_introl eq_refl)) as (text & Et).
    cbn [app load_loop]. rewrite Ec. cbn [lift and_then ret].
    rewrite (read_lines_read f0 text Et). cbn [and_then done].
    apply IH; [| exact Ef]. intros f' Hf'. apply Hread. now right.
Qed.

(** Where an entry of the dictionary comes from: it is untouched when no
    file of the list has its category, and holds the lines of the last
    such file otherwise. *)
Lemma load_loop_get (filenames : list string) :
  forall st st' c,
    load_loop filenames st = done st' ->
    ((forall f, In f filenames -> category_of f <> ret c) /\
     dict_get (category_lines st') c = dict_get (category_lines st) c)
    \/
    (exists pre f post,
       filenames = pre ++ f :: post /\
       category_of f = ret c /\
       (forall f', In f' post -> category_of f' <> ret c) /\
       dict_get (category_lines st') c = read_lines f /\
       exists lines, read_lines f = done lines).
Proof.
  induction filenames as [| f rest IH]; intros st st' c E.
  - inversion E. left. split; [intros f [] | reflexivity].
  - cbn [load_loop] in E. apply and_then_done in E. destruct E as (cf & Ecf & E).
    apply and_then_done in E. destruct E as (lines & Elines & E).
    assert (Ecf' : category_of f = ret cf).
    { destruct (category_of f) as [e | cf']; [discriminate |]. now inversion Ecf. }
    destruct (IH _ _ c E)
      as [[Hnone Hget] | (pre & f0 & post & -> & Ef0 & Hlast & Hget & Hsome)].
    + cbn [category_lines] in Hget.
      destruct (String.eqb_spec cf c) as [-> | Hne].
      * right. exists [], f, rest. repeat split; auto.
        -- now rewrite Hget, dict_get_set_same, Elines.
        -- eauto.
      * left. split.
        -- intros f' [<- | Hin]; [| now apply Hnone].
           rewrite Ecf'. intros Heq. inversion Heq. contradiction.
        -- now rewrite Hget, dict_get_set_other.
    + right. exists (f :: pre), f0, post. repeat split; auto.
Qed.

(** X4. The loading loop finishes if every globbed file can be read, and
    otherwise stops at the first file that cannot, with the fault of
    [open] or [read].  When it finishes it has listed one category per
    file, in the order of the files, so [n_categories] is the number of
    files; every listed category has an entry in [category_lines]; every
    entry is the non-empty list of alphabet lines read from the last file
    of its category (an earlier file of the same category is
    overwritten). *)
Theorem load_corpus_loaded :
  ((forall f, In f glob_names -> exists text, file_text f = done text) ->
   exists st,
     load_corpus = done st /\
     Forall2 (fun f c => category_of f = ret c) glob_names (corpus_categories st) /\
     well_loaded st /\
     forall c lines,
       dict_get (category_lines st) c = done lines ->
       exists pre f post,
         glob_names = pre ++ f :: post /\
         category_of f = ret c /\
         (forall f', In f' post -> category_of f' <> ret c) /\
         read_lines f = done lines) /\
  (forall pre f post e,
     glob_names = pre ++ f :: post ->
     (forall f', In f' pre -> exists text, file_text f' = done text) ->
     file_text f = throw e ->
     load_corpus = throw e) /\
  (forall st, load_corpus = done st ->
              forall f, In f glob_names -> exists text, file_text f = done text).
Proof.
  split; [| split].
  - intros Hread. unfold load_corpus.
    destruct (load_loop_total glob_names Hread
                {| category_lines := []; corpus_categories := [] |})
      as (st & E & HF & _).
    cbn [corpus_categories List.length skipn] in HF.
    assert (Hsrc : forall c lines,
               dict_get (category_lines st) c = done lines ->
               exists pre f post,
                 glob_names = pre ++ f :: post /\
                 category_of f = ret c /\
                 (forall f', In f' post -> category_of f' <> ret c) /\
                 read_lines f = done lines).
    { intros c lines Hget.
      destruct (load_loop_get glob_names _ st c E)
        as [[_ Hsame] | (pre & f & post & Eg & Ef & Hlast & Hlines & _)].
      - rewrite Hget in Hsame. discriminate.
      - exists pre, f, post. repeat split; auto. now rewrite <- Hlines. }
    exists st. split; [exact E |]. split; [exact HF |]. split; [| exact Hsrc].
    split.
    + intros c Hin.
      destruct (load_loop_get glob_names _ st c E)
        as [[Hnone _] | (pre & f & post & _ & _ & _ & Hlines & lines & Hsome)].
      * exfalso. clear - HF Hin Hnone.
        induction HF as [| f c' fs cs Hfc HF IH]; [inversion Hin |].
        destruct Hin as [-> | Hin].
        -- apply (Hnone f); [now left | exact Hfc].
        -- apply IH; [exact Hin |]. intros f' Hf'. apply Hnone. now right.
      * exists lines. now rewrite Hlines.
    + intros c lines Hget.
      destruct (Hsrc c lines Hget) as (pre & f & post & _ & _ & _ & Hlines).
      destruct (read_lines_done f lines Hlines) as (text & _ & ->).
      split; [apply lines_nonempty | apply lines_over_alphabet].
  - intros pre f post e Eg Hread Ef. unfold load_corpus. rewrite Eg.
    now apply load_loop_fault.
  - intros st E f Hin. unfold load_corpus in E.
    destruct (file_text f) as [e | text] eqn:Ef; [| eauto]. exfalso.
    assert (Hfirst : exists pre f0 post e0,
               glob_names = pre ++ f0 :: post /\
               (forall f', In f' pre -> exists text, file_text f' = done text) /\
               file_text f0 = throw e0).
    { clear E. revert Hin. generalize glob_names as l.
      induction l as [| f1 l IH]; intros Hin; [inversion Hin |].
      destruct (file_text f1) as [e1 | t1] eqn:E1.
      - exists [], f1, l, e1. repeat split; auto. intros f' [].
      - destruct Hin as [-> | Hin]; [unfold throw, done in *; congruence |].
        destruct (IH Hin) as (pre & f0 & post & e0 & -> & Hpre & Ef0).
        exists (f1 :: pre), f0, post, e0. repeat split; auto.
        intros f' [<- | Hf']; [eauto | now apply Hpre]. }
    destruct Hfirst as (pre & f0 & post & e0 & Eg & Hpre & Ef0).
    rewrite Eg in E.
    rewrite (load_loop_fault pre f0 post e0 _ Hpre Ef0) in E. discriminate.
Qed.

End LoaderFacts.

Example load_two_files : @load_corpus ascii_unicode two_files = done two_corpus.
Proof. reflexivity. Qed.

Lemma load_corpus_loaded_witness :
  (exists st,
     @load_corpus ascii_unicode two_files = done st /\
     corpus_categories st = ["Russian"; "Irish"]%string /\
     well_loaded st) /\
  @load_corpus ascii_unicode undecodable_files = throw UnicodeDecodeError.
Proof.
  split.
  - destruct (@load_corpus_loaded ascii_unicode two_files) as [Hok _].
    destruct Hok as (st & E & _ & Hwl & _).
    { intros f [<- | [<- | []]]; eexists; reflexivity. }
    exists st. split; [exact E |]. split; [| exact Hwl].
    rewrite load_two_files in E. inversion E. reflexivity.
  - destruct (@load_corpus_loaded ascii_unicode undecodable_files) as (_ & Hfault & _).
    apply (Hfault ["../data/names/Russian.txt"%string] "../data/names/Irish.txt"%string
             [] UnicodeDecodeError eq_refl).
    + intros f [<- | []]. eexists. reflexivity.
    + reflexivity.
Defined.

Example str_split_slashes :
  str_split "/" "a//b" = ["a"; EmptyString; "b"]%string.
Proof. reflexivity. Qed.

Example category_of_Russian :
  @category_of "../data/names/Russian.txt" = ret "Russian"%string.
Proof. reflexivity. Qed.

(* ------------------------------------------------------------------ *)
(** ** Drawing training examples *)

Section ExampleFacts.
Context {T G Opt P : Type} `{Scalar T} `{Random T G} `{Optimizer T G Opt}
        `{PyRandom P}.

Lemma choice_in (A : Type) (l : list A) (p : P) :
  (forall n p0, 0 < n -> fst (randbelow n p0) < n) ->
  l <> [] ->
  exists x p', choice l p = ret (x, p') /\ In x l.
Proof.
  intros Hr Hl. destruct l as [| a l]; [congruence |]. unfold choice.
  specialize (Hr (List.length (a :: l)) p).
  destruct (randbelow (List.length (a :: l)) p) as [i p'].
  cbn [fst] in Hr. assert (Hi : i < List.length (a :: l)) by (apply Hr; simpl; lia).
  destruct (nth_error (a :: l) i) as [x |] eqn:Ex;
    [| apply nth_error_None in Ex; lia].
  exists x, p'. rewrite (tensor_getitem_nat _ _ _ _ Ex). split; [reflexivity |].
  exact (nth_error_In _ _ Ex).
Qed.

Lemma random_training_pair_drawn (st : corpus) (p : P) :
  well_loaded st ->
  (forall n p0, 0 < n -> fst (randbelow n p0) < n) ->
  corpus_categories st <> [] ->
  exists category lines line p',
    random_training_pair st p = done (category, line, p') /\
    In category (corpus_categories st) /\
    dict_get (category_lines st) category = done lines /\
    In line lines /\
    alphabet_string line = true.
Proof.
  intros [Hentry Hlines] Hr Hne.
  destruct (choice_in _ (corpus_categories st) p Hr Hne) as (category & p1 & Ec & Hin).
  destruct (Hentry category Hin) as (lines & Eget).
  destruct (Hlines category lines Eget) as [Hl Hall].
  destruct (choice_in _ lines p1 Hr Hl) as (line & p2 & El & Hline).
  exists category, lines, line, p2. unfold random_training_pair.
  rewrite Ec. cbn [lift and_then ret]. rewrite Eget. cbn [done and_then].
  rewrite El. cbn [lift and_then ret]. repeat split; auto.
  rewrite Forall_forall in Hall. auto.
Qed.

Lemma notebook_model_load (D : Dataset) (net : RNN T) (theta : Params T) :
  notebook_model net -> notebook_model (load_parameters net theta).
Proof. intros Hm. exact Hm. Qed.

(** What one pass of the main loop does with a drawn pair. *)
Lemma drawn_pair_trains (st : corpus) (nb : notebook) (category line : string) :
  notebook_model (H2 := corpus_dataset st) (rnn nb) ->
  In category (corpus_categories st) ->
  alphabet_string line = true ->
  exists cat_t rows targets,
    training_example (H2 := corpus_dataset st) category line
    = ret (cat_t, rows, targets) /\
    List.length rows = String.length line /\
    (line = EmptyString -> train nb cat_t rows targets = raise IndexError) /\
    (line <> EmptyString ->
     exists out loss nb',
       train nb cat_t rows targets = ret (out, loss, nb') /\
       notebook_model (H2 := corpus_dataset st) (rnn nb')).
Proof.
  intros Hm Hin Hall.
  destruct (training_example_known (H2 := corpus_dataset st) category line Hin)
    as (li & _ & Eex).
  eexists _, _, _. split; [exact Eex |].
  split; [now rewrite length_map, chars_length |]. split.
  - intros ->. reflexivity.
  - intros Hne.
    destruct (train_step_valid (H2 := corpus_dataset st) nb category line Hm Hin Hne
                (alphabet_string_tail line Hall))
      as (cat_t & rows & targets & outs & hfin & gfin & nb' & Eex' & _ & _ & _ & E & _).
    unfold train_step in E. rewrite Eex' in E. cbn [bind ret] in E.
    rewrite Eex in Eex'. inversion Eex'; subst.
    eexists _, _, nb'. split; [exact E |].
    destruct (train_keeps_module _ _ _ _ _ _ _ E) as (theta & ->).
    now apply notebook_model_load.
Qed.

(** X5. On data as the loading cell leaves it, drawing a training example
    cannot fail on the dictionary: with no category at all
    [random.choice] raises IndexError, otherwise a listed category and one
    of its lines, over the alphabet, are drawn and encoded.  The training
    step on the drawn example then faults exactly when the line is empty
    (with IndexError) and otherwise returns, leaving a model of the same
    sizes.  ([randbelow n] is taken to return an index below [n].) *)
Theorem random_example_trains (st : corpus) (nb : notebook) (p : P) :
  well_loaded st ->
  (forall n p0, 0 < n -> fst (randbelow n p0) < n) ->
  notebook_model (H2 := corpus_dataset st) (rnn nb) ->
  (corpus_categories st = [] ->
   random_training_example (T:=T) st p = throw (Raised IndexError)) /\
  (corpus_categories st <> [] ->
   exists category line p' cat_t rows targets,
     random_training_pair st p = done (category, line, p') /\
     In category (corpus_categories st) /\
     alphabet_string line = true /\
     random_training_example st p = done (cat_t, rows, targets, p') /\
     List.length rows = String.length line /\
     (line = EmptyString -> train nb cat_t rows targets = raise IndexError) /\
     (line <> EmptyString ->
      exists out loss nb',
        train nb cat_t rows targets = ret (out, loss, nb') /\
        notebook_model (H2 := corpus_dataset st) (rnn nb'))).
Proof.
  intros Hst Hr Hm. split.
  - intros Hnone. unfold random_training_example, random_training_pair.
    rewrite Hnone. reflexivity.
  - intros Hsome.
    destruct (random_training_pair_drawn st p Hst Hr Hsome)
      as (category & lines & line & p' & Epair & Hin & _ & _ & Hall).
    destruct (drawn_pair_trains st nb category line Hm Hin Hall)
      as (cat_t & rows & targets & Eex & Lrows & Hempty & Hfull).
    exists category, line, p', cat_t, rows, targets.
    repeat (split; [assumption |]). split; [| auto].
    unfold random_training_example. rewrite Epair. cbn [and_then done].
    unfold training_example in Eex.
    destruct (categoryTensor (H0 := corpus_dataset st) category) as [e | c0];
      [discriminate |].
    cbn [bind ret lift and_then] in Eex |- *.
    destruct (inputTensor line) as [e | r0]; [discriminate |].
    cbn [bind ret lift and_then] in Eex |- *.
    destruct (targetTensor line) as [e | t0]; [discriminate |].
    cbn [bind ret lift and_then] in Eex |- *.
    inversion Eex. reflexivity.
Qed.

End ExampleFacts.

(* ------------------------------------------------------------------ *)
(** ** The main loop *)

Lemma succ_div_full (k p : nat) :
  p <> 0 -> S k mod p = 0 ->
  S k / p = S (k / p) /\ k / p * p + p = S k.
Proof.
  intros Hp Hm.
  pose proof (Nat.div_mod_eq (S k) p) as E1. rewrite Hm in E1.
  pose proof (Nat.div_mod_eq k p) as E2.
  pose proof (Nat.mod_upper_bound k p Hp) as Hlt.
  assert (Hq : S k / p = S (k / p)) by nia.
  split; [exact Hq |]. rewrite Hq in E1. nia.
Qed.

Lemma succ_div_part (k p : nat) :
  p <> 0 -> S k mod p <> 0 ->
  S k / p = k / p /\ k / p * p <= k.
Proof.
  intros Hp Hm.
  pose proof (Nat.div_mod_eq (S k) p) as E1.
  pose proof (Nat.div_mod_eq k p) as E2.
  pose proof (Nat.mod_upper_bound k p Hp) as Hlt.
  pose proof (Nat.mod_upper_bound (S k) p Hp) as Hlt'.
  split; nia.
Qed.

Section LoopFacts.
Context {T G Opt P : Type} `{Scalar T} `{Random T G} `{Optimizer T G Opt}
        `{PyRandom P} `{Settings}.

Lemma sum_list_snoc (l : list T) (x : T) :
  sum_list (l ++ [x]) = add (sum_list l) x.
Proof. unfold sum_list. now rewrite fold_left_app. Qed.

Lemma window_snoc (losses : list T) (x : T) (j p : nat) :
  j * p + p <= List.length losses ->
  window j p (losses ++ [x]) = window j p losses.
Proof.
  intros Hj. unfold window. rewrite skipn_app.
  replace (j * p - List.length losses) with 0 by lia. cbn [skipn].
  rewrite firstn_app. rewrite length_skipn.
  replace (p - (List.length losses - j * p)) with 0 by lia.
  cbn [firstn]. apply app_nil_r.
Qed.

Lemma window_means_snoc (losses : list T) (x : T) (q : nat) :
  q * plot_every <= List.length losses ->
  map (window_mean (losses ++ [x])) (seq 0 q) = map (window_mean losses) (seq 0 q).
Proof.
  intros Hq. apply map_ext_in. intros j Hj. apply in_seq in Hj.
  unfold window_mean. rewrite window_snoc; [reflexivity | nia].
Qed.

Lemma py_mod_done (a b r : nat) :
  py_mod a b = done r -> b <> 0 /\ r = a mod b.
Proof.
  unfold py_mod. destruct (Nat.eqb_spec b 0); [discriminate |].
  intros E. inversion E. auto.
Qed.

(** One pass keeps the bookkeeping in step with the ghost list of
    losses. *)
Lemma loop_invariant_step (k : nat) (v : @loop_vars T G Opt P) (loss : T)
      (nb : @notebook T G Opt) (py : P) :
  print_every <> 0 -> plot_every <> 0 ->
  loop_invariant k v ->
  loop_invariant (S k)
    {| l_nb := nb; l_py := py;
       l_loss_avg := if S k mod plot_every =? 0 then zero
                     else add (l_loss_avg v) loss;
       l_all_losses := if S k mod plot_every =? 0
                       then l_all_losses v
                              ++ [div (add (l_loss_avg v) loss) (of_nat plot_every)]
                       else l_all_losses v;
       l_printed := if S k mod print_every =? 0
                    then l_printed v ++ [(S k, loss)] else l_printed v;
       l_losses := l_losses v ++ [loss] |}.
Proof.
  intros Hprint Hplot (Hlen & Hall & Havg & Hpr).
  unfold loop_invariant. cbn [l_losses l_all_losses l_loss_avg l_printed].
  split; [rewrite length_app; simpl; lia |].
  assert (Hpr' : map fst (if S k mod print_every =? 0
                          then l_printed v ++ [(S k, loss)] else l_printed v)
                 = filter (fun s => s mod print_every =? 0) (seq 1 (S k))).
  { rewrite seq_S, filter_app. cbn [filter Nat.add].
    destruct (S k mod print_every =? 0).
    - rewrite map_app, Hpr. reflexivity.
    - rewrite Hpr. symmetry. apply app_nil_r. }
  destruct (Nat.eqb_spec (S k mod plot_every) 0) as [Hm | Hm].
  - destruct (succ_div_full k plot_every Hplot Hm) as [Hq Hk].
    rewrite Hq. repeat split; [| | exact Hpr'].
    + rewrite seq_S, map_app. cbn [Nat.add map].
      rewrite window_means_snoc by lia. rewrite <- Hall. f_equal. f_equal.
      unfold window_mean. f_equal. rewrite Havg, <- sum_list_snoc. f_equal.
      unfold window. rewrite skipn_app.
      replace (k / plot_every * plot_every - List.length (l_losses v)) with 0 by lia.
      cbn [skipn]. symmetry. apply firstn_all2.
      rewrite length_app, length_skipn. simpl. lia.
    + rewrite skipn_all2; [reflexivity |]. rewrite length_app. simpl. lia.
  - destruct (succ_div_part k plot_every Hplot Hm) as [Hq Hk].
    rewrite Hq. repeat split; [| | exact Hpr'].
    + rewrite window_means_snoc by lia. exact Hall.
    + rewrite Havg, <- sum_list_snoc. f_equal. rewrite skipn_app.
      replace (k / plot_every * plot_every - List.length (l_losses v)) with 0 by lia.
      reflexivity.
Qed.

Lemma training_loop_invariant (st : corpus) (m : nat) :
  forall k (v v' : @loop_vars T G Opt P),
    training_loop st (seq (S k) m) v = done v' ->
    loop_invariant k v -> loop_invariant (k + m) v'.
Proof.
  induction m as [| m IH]; intros k v v' E Hinv.
  - inversion E. subst. now rewrite Nat.add_0_r.
  - cbn [seq training_loop] in E.
    apply and_then_done in E. destruct E as ([[[cat_t input_t] target_t] py] & _ & E).
    apply and_then_done in E. destruct E as ([[output loss] nb] & _ & E).
    apply and_then_done in E. destruct E as (r & Er & E).
    apply and_then_done in E. destruct E as (r' & Er' & E).
    apply py_mod_done in Er. destruct Er as [Hprint ->].
    apply py_mod_done in Er'. destruct Er' as [Hplot ->].
    replace (k + S m) with (S k + m) by lia.
    apply (IH (S k) _ v' E).
    now apply loop_invariant_step.
Qed.

(** X6. If the main loop runs to its end, [all_losses] has one entry for
    every full stretch of [plot_every] steps, [n_steps // plot_every] of
    them, and the entry of a stretch is the sum, from 0 and in step order,
    of the losses the training steps of that stretch reported, divided by
    [plot_every]; [loss_avg] is left with the sum of the losses after the
    last full stretch; a line was printed at the multiples of
    [print_every] and at no other step. *)
Theorem training_loop_windows (st : corpus) (nb : @notebook T G Opt) (p : P)
      (v : @loop_vars T G Opt P) :
  run_training st nb p = done v ->
  List.length (l_losses v) = n_steps /\
  List.length (l_all_losses v) = n_steps / plot_every /\
  l_all_losses v
  = map (fun k => div (sum_list (window k plot_every (l_losses v))) (of_nat plot_every))
        (seq 0 (n_steps / plot_every)) /\
  l_loss_avg v = sum_list (skipn (n_steps / plot_every * plot_every) (l_losses v)) /\
  map fst (l_printed v) = filter (fun s => s mod print_every =? 0) (seq 1 n_steps).
Proof.
  intros E. unfold run_training in E.
  apply training_loop_invariant with (k := 0) in E.
  - destruct E as (Hlen & Hall & Havg & Hpr). cbn [Nat.add] in *.
    repeat split; auto.
    rewrite Hall, length_map, length_seq. reflexivity.
  - unfold loop_invariant. cbn [l_losses l_all_losses l_loss_avg l_printed].
    assert (E0 : 0 / plot_every = 0) by (destruct plot_every; reflexivity).
    rewrite E0. repeat split.
Qed.

End LoopFacts.

Section LoopRuns.
Context {T G Opt P : Type} `{Scalar T} `{Random T G} `{Optimizer T G Opt}
        `{PyRandom P} `{Settings}.

Lemma example_of_pair (st : corpus) (p p' : P) (category line : string)
      (cat_t : list T) (rows : list (list T)) (targets : list Z) :
  random_training_pair st p = done (category, line, p') ->
  training_example (H2 := corpus_dataset st) category line
  = ret (cat_t, rows, targets) ->
  random_training_example st p = done (cat_t, rows, targets, p').
Proof.
  intros Epair Eex. unfold random_training_example. rewrite Epair.
  cbn [and_then done]. unfold training_example in Eex.
  destruct (categoryTensor (H0 := corpus_dataset st) category) as [e | c0];
    [discriminate |].
  cbn [bind ret lift and_then] in Eex |- *.
  destruct (inputTensor line) as [e | r0]; [discriminate |].
  cbn [bind ret lift and_then] in Eex |- *.
  destruct (targetTensor line) as [e | t0]; [discriminate |].
  cbn [bind ret lift and_then] in Eex |- *.
  inversion Eex. reflexivity.
Qed.

(** One pass over data without an empty line: an example is drawn and the
    training step returns. *)
Lemma loop_pass (st : corpus) (nb : @notebook T G Opt) (p : P) :
  well_loaded st ->
  (forall category lines,
     dict_get (category_lines st) category = done lines -> ~ In EmptyString lines) ->
  corpus_categories st <> [] ->
  (forall n p0, 0 < n -> fst (randbelow n p0) < n) ->
  notebook_model (H2 := corpus_dataset st) (rnn nb) ->
  exists cat_t rows targets p' out loss nb',
    random_training_example st p = done (cat_t, rows, targets, p') /\
    train nb cat_t rows targets = ret (out, loss, nb') /\
    notebook_model (H2 := corpus_dataset st) (rnn nb').
Proof.
  intros Hst Hfull Hsome Hr Hm.
  destruct (random_training_pair_drawn st p Hst Hr Hsome)
    as (category & lines & line & p' & Epair & Hin & Eget & Hline & Hall).
  destruct (drawn_pair_trains st nb category line Hm Hin Hall)
    as (cat_t & rows & targets & Eex & _ & _ & Htrain).
  assert (Hne : line <> EmptyString).
  { intros ->. exact (Hfull category lines Eget Hline). }
  destruct (Htrain Hne) as (out & loss & nb' & E & Hm').
  exists cat_t, rows, targets, p', out, loss, nb'.
  split; [exact (example_of_pair st p p' category line _ _ _ Epair Eex) | auto].
Qed.

Lemma training_loop_returns (st : corpus) :
  well_loaded st ->
  (forall category lines,
     dict_get (category_lines st) category = done lines -> ~ In EmptyString lines) ->
  corpus_categories st <> [] ->
  (forall n p0, 0 < n -> fst (randbelow n p0) < n) ->
  print_every <> 0 -> plot_every <> 0 ->
  forall steps (v : @loop_vars T G Opt P),
    notebook_model (H2 := corpus_dataset st) (rnn (l_nb v)) ->
    exists v', training_loop st steps v = done v' /\
               notebook_model (H2 := corpus_dataset st) (rnn (l_nb v')).
Proof.
  intros Hst Hfull Hsome Hr Hprint Hplot.
  induction steps as [| step rest IH]; intros v Hm.
  - exists v. split; [reflexivity | exact Hm].
  - destruct (loop_pass st (l_nb v) (l_py v) Hst Hfull Hsome Hr Hm)
      as (cat_t & rows & targets & p' & out & loss & nb' & Eex & E & Hm').
    cbn [training_loop]. rewrite Eex. cbn [and_then done]. rewrite E.
    cbn [lift and_then ret]. unfold py_mod.
    destruct (Nat.eqb_spec print_every 0) as [| _]; [contradiction |].
    destruct (Nat.eqb_spec plot_every 0) as [| _]; [contradiction |].
    cbn [and_then done]. apply IH. exact Hm'.
Qed.

Lemma training_loop_zero_modulus (st : corpus) :
  well_loaded st ->
  (forall category lines,
     dict_get (category_lines st) category = done lines -> ~ In EmptyString lines) ->
  corpus_categories st <> [] ->
  (forall n p0, 0 < n -> fst (randbelow n p0) < n) ->
  print_every = 0 \/ plot_every = 0 ->
  forall step rest (v : @loop_vars T G Opt P),
    notebook_model (H2 := corpus_dataset st) (rnn (l_nb v)) ->
    training_loop st (step :: rest) v = throw ZeroDivisionError.
Proof.
  intros Hst Hfull Hsome Hr Hzero step rest v Hm.
  destruct (loop_pass st (l_nb v) (l_py v) Hst Hfull Hsome Hr Hm)
    as (cat_t & rows & targets & p' & out & loss & nb' & Eex & E & Hm').
  cbn [training_loop]. rewrite Eex. cbn [and_then done]. rewrite E.
  cbn [lift and_then ret]. unfold py_mod.
  destruct (Nat.eqb_spec print_every 0) as [| Hp]; [reflexivity |].
  destruct Hzero as [| Hq]; [contradiction |]. rewrite Hq. reflexivity.
Qed.

(** X7. On loaded data with at least one category and no empty line, and
    with a model of the notebook's sizes, the main loop cannot fail on an
    example: with non-zero [print_every] and [plot_every] it runs all its
    steps and returns, the model keeping its sizes; if [print_every] or
    [plot_every] is 0 and there is at least one step, the first pass
    draws an example and trains on it, and then raises ZeroDivisionError at
    the modulus.  ([randbelow n] is taken to return an index below [n].) *)
Theorem training_loop_completes (st : corpus) (nb : @notebook T G Opt) (p : P) :
  well_loaded st ->
  (forall category lines,
     dict_get (category_lines st) category = done lines -> ~ In EmptyString lines) ->
  corpus_categories st <> [] ->
  (forall n p0, 0 < n -> fst (randbelow n p0) < n) ->
  notebook_model (H2 := corpus_dataset st) (rnn nb) ->
  (print_every <> 0 -> plot_every <> 0 ->
   exists v, run_training st nb p = done v /\
             List.length (l_losses v) = n_steps /\
             notebook_model (H2 := corpus_dataset st) (rnn (l_nb v))) /\
  (n_steps <> 0 -> print_every = 0 \/ plot_every = 0 ->
   run_training st nb p = throw ZeroDivisionError).
Proof.
  intros Hst Hfull Hsome Hr Hm. split.
  - intros Hprint Hplot.
    destruct (training_loop_returns st Hst Hfull Hsome Hr Hprint Hplot
                (seq 1 n_steps)
                {| l_nb := nb; l_py := p; l_loss_avg := zero; l_all_losses := [];
                   l_printed := []; l_losses := [] |} Hm) as (v & E & Hm').
    exists v. split; [exact E |]. split; [| exact Hm'].
    apply training_loop_invariant with (k := 0) in E.
    + destruct E as [Hlen _]. exact Hlen.
    + unfold loop_invariant. cbn [l_losses l_all_losses l_loss_avg l_printed].
      assert (E0 : 0 / plot_every = 0) by (destruct plot_every; reflexivity).
      rewrite E0. repeat split.
  - intros Hsteps Hzero. unfold run_training.
    destruct n_steps as [| n]; [congruence |]. cbn [seq].
    now apply training_loop_zero_modulus.
Qed.

End LoopRuns.

(** *** The two-file corpus as a run-time *)

Lemma two_corpus_well_loaded : well_loaded two_corpus.
Proof.
  split.
  - intros category [<- | [<- | []]]; eexists; reflexivity.
  - intros category lines E. unfold two_corpus in E.
    cbn [category_lines dict_get] in E.
    destruct (String.eqb "Russian" category).
    + inversion E. subst. split; [discriminate |]. repeat constructor.
    + destruct (String.eqb "Irish" category); [| discriminate].
      inversion E. subst. split; [discriminate |]. repeat constructor.
Qed.

Lemma two_corpus_no_empty_line (category : string) (lines : list string) :
  dict_get (category_lines two_corpus) category = done lines ->
  ~ In EmptyString lines.
Proof.
  intros E. unfold two_corpus in E. cbn [category_lines dict_get] in E.
  destruct (String.eqb "Russian" category).
  - inversion E. subst. intros [D | [D | []]]; discriminate.
  - destruct (String.eqb "Irish" category); [| discriminate].
    inversion E. subst. intros [D | []]; discriminate.
Qed.

Lemma tape_randbelow_range (n : nat) (p0 : list nat) :
  0 < n -> fst (tape_randbelow n p0) < n.
Proof.
  intros Hn. destruct p0 as [| k ks]; cbn [tape_randbelow fst]; [exact Hn |].
  apply Nat.mod_upper_bound. lia.
Qed.

Lemma two_rnn_model : notebook_model (H2 := corpus_dataset two_corpus) two_rnn.
Proof. apply notebook_rnn_model. Qed.

Lemma random_example_trains_witness :
  well_loaded two_corpus /\
  (forall n p0, 0 < n -> fst (tape_randbelow n p0) < n) /\
  notebook_model (H2 := corpus_dataset two_corpus) (rnn (two_notebook keep_all)) /\
  exists category line p' cat_t rows targets,
    @random_training_pair (list nat) tape_pyrandom two_corpus [0; 1]
    = done (category, line, p') /\
    In category (corpus_categories two_corpus) /\
    alphabet_string line = true /\
    @random_training_example R (list nat) R_scalar tape_pyrandom two_corpus [0; 1]
    = done (cat_t, rows, targets, p') /\
    List.length rows = String.length line /\
    (line = EmptyString ->
     train (two_notebook keep_all) cat_t rows targets = raise IndexError) /\
    (line <> EmptyString ->
     exists out loss nb',
       train (two_notebook keep_all) cat_t rows targets = ret (out, loss, nb') /\
       notebook_model (H2 := corpus_dataset two_corpus) (rnn nb')).
Proof.
  split; [exact two_corpus_well_loaded |].
  split; [exact tape_randbelow_range |].
  split; [exact two_rnn_model |].
  apply (@random_example_trains R tape unit (list nat) R_scalar tape_random
           still_optimizer tape_pyrandom two_corpus (two_notebook keep_all) [0; 1]
           two_corpus_well_loaded tape_randbelow_range two_rnn_model).
  discriminate.
Defined.

Lemma training_loop_windows_witness :
  exists v,
    @run_training R tape unit (list nat) R_scalar tape_random still_optimizer
      tape_pyrandom small_settings two_corpus (two_notebook keep_all) [0; 1; 1; 0]
    = done v /\
    List.length (l_losses v) = 4 /\
    List.length (l_all_losses v) = 2 /\
    l_all_losses v
    = map (fun k => (sum_list (window k 2 (l_losses v)) / INR 2)%R) [0; 1] /\
    l_loss_avg v = sum_list (skipn 4 (l_losses v)) /\
    map fst (l_printed v) = [2; 4].
Proof.
  destruct (@training_loop_returns R tape unit (list nat) R_scalar tape_random
              still_optimizer tape_pyrandom small_settings two_corpus
              two_corpus_well_loaded two_corpus_no_empty_line
              ltac:(discriminate) tape_randbelow_range
              ltac:(discriminate) ltac:(discriminate)
              (seq 1 4)
              {| l_nb := two_notebook keep_all; l_py := [0; 1; 1; 0];
                 l_loss_avg := 0%R; l_all_losses := [];
                 l_printed := []; l_losses := [] |} two_rnn_model)
    as (v & E & _).
  exists v. split; [exact E |].
  exact (@training_loop_windows R tape unit (list nat) R_scalar tape_random
           still_optimizer tape_pyrandom small_settings two_corpus
           (two_notebook keep_all) [0; 1; 1; 0] v E).
Defined.

Lemma training_loop_completes_witness :
  well_loaded two_corpus /\
  corpus_categories two_corpus <> [] /\
  (exists v,
     @run_training R tape unit (list nat) R_scalar tape_random still_optimizer
       tape_pyrandom small_settings two_corpus (two_notebook keep_all) [0; 1; 1; 0]
     = done v /\
     List.length (l_losses v) = 4 /\
     notebook_model (H2 := corpus_dataset two_corpus) (rnn (l_nb v))).
Proof.
  split; [exact two_corpus_well_loaded |]. split; [discriminate |].
  apply (@training_loop_completes R tape unit (list nat) R_scalar tape_random
           still_optimizer tape_pyrandom small_settings two_corpus
           (two_notebook keep_all) [0; 1; 1; 0]
           two_corpus_well_loaded two_corpus_no_empty_line
           ltac:(discriminate) tape_randbelow_range two_rnn_model);
    discriminate.
Defined.

(* ------------------------------------------------------------------ *)
(** ** Sampling several names *)

Section SamplesFacts.
Context {T G : Type} `{Scalar T} `{Random T G} `{Dataset}.

(** [sample] returns for every start symbol, of the alphabet or not. *)
Lemma sample_any_start (pol : decoding) (net : RNN T) (g : G)
      (category : string) (c : ascii) :
  notebook_model net ->
  (forall d g0, d <> [] ->
     exists i g1, multinomial d g0 = Some (i, g1) /\ i < List.length d) ->
  In category all_categories ->
  exists name g',
    sample pol net g category (String c EmptyString) = ret (name, g') /\
    sampled_from c name.
Proof.
  intros Hm Hmulti Hin.
  destruct (categoryTensor_known (T:=T) category Hin) as (li & Hlt & Ecat).
  set (v0 := {| s_input := [one_hot (T:=T) n_letters (letter_slot c)];
                s_hidden := init_hidden net; s_name := String c EmptyString;
                s_gen := g; s_trace := [] |}).
  destruct (sample_loop_runs pol net (one_hot n_categories li) Hm) with
    (n := max_length) (v := v0)
    as (v & calls & pre & Eloop & _ & Lcalls & Hpre & Hstop & Ename & _); auto.
  { apply one_hot_length. }
  { eexists _, []. split; [reflexivity |]. apply one_hot_length. }
  { apply zeros_length. }
  cbn [v0 s_name append] in Ename.
  exists (s_name v), (s_gen v). split.
  - unfold sample, sample_run. rewrite Ecat, inputTensor_spec.
    cbn [bind ret chars map]. fold v0. rewrite Eloop. reflexivity.
  - exists pre. split; [exact Hpre |]. split; [| exact Ename].
    destruct Hstop as [[E _] | E];
      apply (f_equal (@List.length nat)) in E; rewrite length_map in E;
      [| rewrite length_app in E]; lia.
Qed.

Lemma sample_unknown_category (pol : decoding) (net : RNN T) (g : G)
      (category start_letter : string) :
  ~ In category all_categories ->
  sample pol net g category start_letter = raise ValueError.
Proof.
  intros Hnin. unfold sample, sample_run, categoryTensor.
  now rewrite list_index_not_In.
Qed.

Lemma samples_loop_runs (pol : decoding) (net : RNN T) (category : string) :
  notebook_model net ->
  (forall d g0, d <> [] ->
     exists i g1, multinomial d g0 = Some (i, g1) /\ i < List.length d) ->
  In category all_categories ->
  forall (letters : list ascii) (g : G) (printed : list string),
    exists names g',
      samples_loop pol net category letters g printed = ret (printed ++ names, g') /\
      Forall2 sampled_from letters names.
Proof.
  intros Hm Hmulti Hin. induction letters as [| c rest IH]; intros g printed.
  - exists [], g. rewrite app_nil_r. split; [reflexivity | constructor].
  - destruct (sample_any_start pol net g category c Hm Hmulti Hin)
      as (name & g1 & E & Hname).
    destruct (IH g1 (printed ++ [name])) as (names & g' & Eloop & Hall).
    exists (name :: names), g'. cbn [samples_loop]. rewrite E. cbn [bind ret].
    rewrite Eloop, <- app_assoc. split; [reflexivity |]. now constructor.
Qed.

(** X8. [samples] on a known category returns one name per start symbol,
    in their order, whatever the start symbols are (a symbol outside the
    alphabet is sampled from as well): the [k]-th name is the [k]-th start
    symbol followed by at most [max_length] alphabet letters.  On a category
    that is not listed it raises ValueError at the first start symbol, and
    with no start symbol at all it returns no name and never looks at the
    category.  ([multinomial] is taken to return an index of the
    distribution it is given.) *)
Theorem samples_one_name_per_letter (pol : decoding) (net : RNN T) (g : G)
        (category start_letters : string) :
  notebook_model net ->
  (forall d g0, d <> [] ->
     exists i g1, multinomial d g0 = Some (i, g1) /\ i < List.length d) ->
  (In category all_categories ->
   exists names g',
     samples pol net g category start_letters = ret (names, g') /\
     List.length names = String.length start_letters /\
     Forall2 (fun c name =>
                exists rest, name = String c rest /\
                             alphabet_string rest = true /\
                             String.length rest <= max_length)
             (chars start_letters) names) /\
  (~ In category all_categories ->
   samples pol net g category start_letters
   = match start_letters with
     | EmptyString => ret ([], g)
     | String _ _ => raise ValueError
     end).
Proof.
  intros Hm Hmulti. split.
  - intros Hin.
    destruct (samples_loop_runs pol net category Hm Hmulti Hin
                (chars start_letters) g []) as (names & g' & E & Hall).
    exists names, g'. split; [exact E |]. split.
    + rewrite <- (Forall2_length Hall). apply chars_length.
    + clear E. induction Hall as [| c name cs names (pre & Hpre & Lpre & ->) _ IH];
        constructor; [| exact IH].
      exists (letters_of pre). split; [reflexivity |].
      split; [apply letters_of_alphabet |].
      now rewrite letters_of_length.
  - intros Hnin. unfold samples. destruct start_letters as [| c rest]; [reflexivity |].
    cbn [chars samples_loop]. now rewrite sample_unknown_category.
Qed.

End SamplesFacts.

Lemma samples_one_name_per_letter_witness :
  notebook_model bias_rnn /\
  In "Russian"%string all_categories /\
  exists names g',
    samples Stochastic bias_rnn drop_first "Russian" "RUS" = ret (names, g') /\
    List.length names = 3 /\
    Forall2 (fun c name =>
               exists rest, name = String c rest /\
                            alphabet_string rest = true /\
                            String.length rest <= max_length)
            ["R"; "U"; "S"]%char names.
Proof.
  split; [exact bias_rnn_model |]. split; [exact russian_known |].
  apply (@samples_one_name_per_letter R tape R_scalar tape_random names_dataset
           Stochastic bias_rnn drop_first "Russian" "RUS"
           bias_rnn_model tape_multinomial_range).
  exact russian_known.
Defined.

(* ------------------------------------------------------------------ *)
(** ** Letters and indices *)

Lemma letters_of_slots (s : string) :
  alphabet_string s = true ->
  letters_of (map (fun c => Z.to_nat (str_find all_letters c)) (chars s)) = s.
Proof.
  unfold alphabet_string. induction s as [| c s IH]; intros Hall; [reflexivity |].
  cbn [chars forallb] in Hall. apply andb_true_iff in Hall. destruct Hall as [Hc Hs].
  cbn [chars map letters_of].
  destruct (find_in_alphabet c Hc) as [_ Eget]. rewrite Eget. now rewrite IH.
Qed.

Section LetterFacts.
Context {T : Type} `{Scalar T}.

(** X9. The sampler turns a drawn index into a letter and the letter back
    into an input row, and nothing is lost on the way: for an index [i]
    below the end marker, [all_letters[i]] is a symbol whose [find] is [i]
    again, so the row fed to the next cell call is the one-hot row of the
    index drawn.  At the end marker or beyond, [all_letters[i]] raises
    IndexError: the [break] on the end marker is what keeps the
    subscription in range. *)
Theorem drawn_letter_fed_back (i : nat) :
  (i < EOS ->
   exists c,
     str_getitem all_letters i = ret c /\
     in_alphabet c = true /\
     str_find all_letters c = Z.of_nat i /\
     inputTensor (T:=T) (String c EmptyString) = ret [one_hot n_letters i] /\
     letters_of [i] = String c EmptyString) /\
  (EOS <= i -> str_getitem all_letters i = raise IndexError).
Proof.
  split.
  - intros Hi. destruct (get_letter i Hi) as (c & Eget & Hc).
    exists c. unfold str_getitem. rewrite Eget.
    pose proof (find_get i c Eget) as Efind.
    repeat split; auto.
    + rewrite inputTensor_spec. cbn [chars map].
      rewrite (letter_slot_alphabet c Hc), Efind, Nat2Z.id. reflexivity.
    + cbn [letters_of]. now rewrite Eget.
  - intros Hi. unfold str_getitem.
    destruct (String.get i all_letters) as [c |] eqn:E; [| reflexivity].
    exfalso. rewrite get_chars in E.
    assert (Hn : nth_error (chars all_letters) i <> None) by congruence.
    apply nth_error_Some in Hn. rewrite chars_length in Hn.
    change (String.length all_letters) with EOS in Hn. lia.
Qed.

(** X10. Input and target of a training line are the same letters shifted
    by one: for a line whose symbols after the first are in the alphabet,
    the target sequence is the indices of the symbols from the second on
    followed by the end marker, input row [k + 1] is the one-hot row of
    target [k], and the sampler's decoding of the targets before the end
    marker spells the line without its first symbol. *)
Theorem targets_spell_line (c0 : ascii) (rest : string) :
  alphabet_string rest = true ->
  exists idxs : list nat,
    Forall (fun i => i < EOS) idxs /\
    targetTensor (String c0 rest) = ret (map Z.of_nat (idxs ++ [EOS])) /\
    inputTensor (T:=T) (String c0 rest)
    = ret (one_hot n_letters (letter_slot c0) :: map (one_hot n_letters) idxs) /\
    letters_of idxs = rest.
Proof.
  intros Hall.
  exists (map (fun c => Z.to_nat (str_find all_letters c)) (chars rest)).
  assert (Hin : forall c, In c (chars rest) -> in_alphabet c = true).
  { unfold alphabet_string in Hall. rewrite forallb_forall in Hall. exact Hall. }
  split; [| split; [| split]].
  - apply Forall_forall. intros i Hi. apply in_map_iff in Hi.
    destruct Hi as (c & <- & Hc).
    destruct (find_in_alphabet c (Hin c Hc)) as [Hr _].
    rewrite EOS_eq. rewrite n_letters_eq in Hr. lia.
  - rewrite targetTensor_spec. cbn [chars tl]. f_equal.
    rewrite map_app, map_map. f_equal.
    apply map_ext_in. intros c Hc.
    destruct (find_in_alphabet c (Hin c Hc)) as [Hr _]. lia.
  - rewrite inputTensor_spec. cbn [chars map]. do 2 f_equal.
    rewrite map_map. apply map_ext_in. intros c Hc.
    now rewrite (letter_slot_alphabet c (Hin c Hc)).
  - now apply letters_of_slots.
Qed.

End LetterFacts.

Lemma targets_spell_line_witness :
  alphabet_string "van" = true /\
  exists idxs : list nat,
    Forall (fun i => i < EOS) idxs /\
    targetTensor "Ivan" = ret (map Z.of_nat (idxs ++ [EOS])) /\
    inputTensor (T:=R) "Ivan"
    = ret (one_hot n_letters (letter_slot "I") :: map (one_hot n_letters) idxs) /\
    letters_of idxs = "van"%string.
Proof.
  split; [reflexivity |].
  apply (@targets_spell_line R R_scalar "I" "van"). reflexivity.
Defined.

(* ------------------------------------------------------------------ *)
(** ** The outputs as log-probabilities, in exact real arithmetic *)

Section OutputFacts.
Context {T G : Type} `{Scalar T} `{Random T G}.

Lemma forward_LogSoftmax (net : RNN T) (c x h out h' : list T) (g g' : G) :
  forward net c x h g = ret (out, h', g') -> exists y, out = LogSoftmax y.
Proof.
  rewrite forward_cell_affine. intros E.
  destruct (cell_affine net c x h) as [e | oh]; [discriminate |].
  cbn [bind ret] in E. inversion E. eauto.
Qed.

Lemma unroll_LogSoftmax (net : RNN T) (cat_t : list T) (rows : list (list T)) :
  forall (h : list T) (g : G) outs hf gf,
    unroll net cat_t rows h g = ret (outs, hf, gf) ->
    Forall (fun out => exists y, out = LogSoftmax y) outs.
Proof.
  induction rows as [| row rows IH]; intros h g outs hf gf E.
  - inversion E. constructor.
  - cbn [unroll] in E. apply bind_inr_inv in E.
    destruct E as ([[out h1] g1] & Efw & E).
    apply bind_inr_inv in E. destruct E as ([[outs' h2] g2] & Eun & E).
    inversion E. subst. constructor.
    + eapply forward_LogSoftmax. exact Efw.
    + eapply IH. exact Eun.
Qed.

End OutputFacts.

Lemma R_fold_shift (l : list R) (acc : R) :
  fold_left Rplus l acc = (acc + fold_left Rplus l 0)%R.
Proof.
  revert acc. induction l as [| y l IH]; intros acc; cbn [fold_left].
  - lra.
  - rewrite (IH (acc + y)%R), (IH (0 + y)%R). lra.
Qed.

Lemma R_sum_cons (y : R) (l : list R) : sum_list (y :: l) = (y + sum_list l)%R.
Proof.
  unfold sum_list. cbn [fold_left add zero R_scalar].
  rewrite R_fold_shift. lra.
Qed.

Lemma R_sum_nonneg (l : list R) :
  Forall (fun y => (0 <= y)%R) l -> (0 <= sum_list l)%R.
Proof.
  induction 1 as [| y l Hy _ IH].
  - unfold sum_list. cbn. lra.
  - rewrite R_sum_cons. lra.
Qed.

Lemma R_sum_exp (x : list R) :
  (0 <= sum_list (map exp x))%R /\
  Forall (fun xi => (0 < exp xi <= sum_list (map exp x))%R) x.
Proof.
  induction x as [| xi x [IH0 IH]].
  - split; [unfold sum_list; cbn; lra | constructor].
  - cbn [map]. rewrite R_sum_cons.
    pose proof (exp_pos xi) as Hpos. cbn [exp R_scalar] in *.
    split; [lra |]. constructor; [lra |].
    eapply Forall_impl; [| exact IH]. cbn beta. intros a Ha. lra.
Qed.

Lemma R_sum_scale (l : list R) (s : R) :
  sum_list (map (fun y => (y / s)%R) l) = (sum_list l / s)%R.
Proof.
  induction l as [| y l IH].
  - unfold sum_list. cbn. lra.
  - cbn [map]. rewrite !R_sum_cons, IH. lra.
Qed.

Lemma LogSoftmax_nonpositive (x : list R) :
  Forall (fun y => (y <= 0)%R) (LogSoftmax x).
Proof.
  unfold LogSoftmax. cbv zeta. apply Forall_forall. intros y Hy.
  apply in_map_iff in Hy. destruct Hy as (xi & <- & Hxi).
  destruct (R_sum_exp x) as [_ Hall]. rewrite Forall_forall in Hall.
  destruct (Hall xi Hxi) as [Hpos Hle]. cbn [sub log exp R_scalar] in *.
  assert (Hln : (ln (Rtrigo_def.exp xi) <= ln (sum_list (map Rtrigo_def.exp x)))%R).
  { destruct Hle as [Hlt | Heq].
    - left. apply ln_increasing; assumption.
    - right. now rewrite Heq. }
  rewrite ln_exp in Hln. lra.
Qed.

Lemma LogSoftmax_sums_to_one (x : list R) :
  x <> [] -> sum_list (map exp (LogSoftmax x)) = 1%R.
Proof.
  intros Hx. unfold LogSoftmax. cbv zeta. rewrite map_map.
  destruct (R_sum_exp x) as [_ Hall].
  assert (Hs : (0 < sum_list (map exp x))%R).
  { destruct x as [| xi x]; [congruence |].
    inversion Hall as [| ? ? Hxi _]. lra. }
  set (s := sum_list (map exp x)) in *.
  rewrite (map_ext _ (fun xi => (exp xi / s)%R)).
  - rewrite <- (map_map exp (fun y => (y / s)%R)), R_sum_scale. fold s.
    field. lra.
  - intros xi. cbn [sub log exp R_scalar].
    unfold Rminus. rewrite exp_plus, exp_Ropp, exp_ln by exact Hs. reflexivity.
Qed.

(** X11. Read in exact real arithmetic, what one call of the cell returns
    is a vector of log-probabilities whatever the weights, the inputs and
    the dropout mask: no entry is positive, and the weights
    [output.exp()] the sampler hands to [multinomial] lie in (0, 1] and
    sum to 1. *)
Theorem cell_output_log_probabilities (net : RNN R) (c x h out h' : list R)
        (g g' : tape) :
  forward net c x h g = ret (out, h', g') ->
  out <> [] ->
  Forall (fun y => (y <= 0)%R) out /\
  Forall (fun w => (0 < w <= 1)%R) (map exp out) /\
  sum_list (map exp out) = 1%R.
Proof.
  intros E Hout.
  assert (Hy : exists y, out = LogSoftmax y) by (eapply forward_LogSoftmax; exact E).
  destruct Hy as (y & ->).
  pose proof (LogSoftmax_nonpositive y) as Hle.
  split; [exact Hle |]. split.
  - apply Forall_forall. intros w Hw. apply in_map_iff in Hw.
    destruct Hw as (o & <- & Ho). rewrite Forall_forall in Hle.
    specialize (Hle o Ho). cbn [exp R_scalar].
    split; [apply exp_pos |].
    rewrite <- exp_0. destruct Hle as [Hlt | ->]; [left; now apply exp_increasing | right; reflexivity].
  - apply LogSoftmax_sums_to_one. intros ->. now apply Hout.
Qed.

Lemma nll_nonneg (y : list R) (k : nat) : (0 <= nll (LogSoftmax y) k)%R.
Proof.
  unfold nll. cbn [neg zero R_scalar].
  destruct (nth_in_or_default k (LogSoftmax y) 0%R) as [Hin | ->]; [| lra].
  pose proof (LogSoftmax_nonpositive y) as Hle. rewrite Forall_forall in Hle.
  specialize (Hle _ Hin). lra.
Qed.

Lemma summed_nll_nonneg (outs : list (list R)) (targets : list Z) :
  Forall (fun out => exists y, out = LogSoftmax y) outs ->
  (0 <= summed_nll outs targets)%R.
Proof.
  intros Hall. unfold summed_nll. apply R_sum_nonneg.
  apply Forall_forall. intros v Hv. apply in_map_iff in Hv.
  destruct Hv as ([out t] & <- & Hin). apply in_combine_l in Hin.
  rewrite Forall_forall in Hall. destruct (Hall out Hin) as (y & ->).
  cbn [fst snd]. apply nll_nonneg.
Qed.

Section LossFacts.
Context (D : Dataset).

(** X12. Read in exact real arithmetic, the loss a training step reports is
    never negative, whatever the weights and the dropout masks: it is a
    mean of negated log-probabilities. *)
Theorem reported_loss_nonnegative (nb nb' : @notebook R tape unit)
        (category line : string) (out : list R) (loss : R) :
  train_step (H2 := D) nb category line = ret (out, loss, nb') ->
  (0 <= loss)%R.
Proof.
  intros E.
  destruct (train_step_reported (H2 := D) nb nb' category line out loss E)
    as (cat_t & rows & targets & outs & hfin & gfin & Eex & Eun & Lo & _ & ->).
  assert (Lt : 0 < List.length targets).
  { unfold training_example in Eex.
    destruct (categoryTensor (H0 := D) category) as [e | c0]; [discriminate |].
    rewrite inputTensor_spec, targetTensor_spec in Eex. cbn [bind ret] in Eex.
    inversion Eex. rewrite length_app. simpl. lia. }
  unfold mean_nll. cbn [div of_nat R_scalar].
  apply Rmult_le_pos.
  - apply summed_nll_nonneg. eapply unroll_LogSoftmax. exact Eun.
  - left. apply Rinv_0_lt_compat. apply lt_0_INR. exact Lt.
Qed.

End LossFacts.

Lemma cell_output_log_probabilities_witness :
  exists out h' g',
    forward bias_rnn russian_t letter_A_t hidden0 drop_first = ret (out, h', g') /\
    out <> [] /\
    Forall (fun y => (y <= 0)%R) out /\
    Forall (fun w => (0 < w <= 1)%R) (map exp out) /\
    sum_list (map exp out) = 1%R.
Proof.
  assert (E : forward bias_rnn russian_t letter_A_t hidden0 drop_first
              = ret (LogSoftmax (apply_mask (dropout bias_rnn) bias_logits
                                   (fst (bernoulli_mask (dropout bias_rnn) 59 drop_first))),
                     bias_hidden,
                     snd (bernoulli_mask (dropout bias_rnn) 59 drop_first))).
  { apply forward_bias; [apply one_hot_length | apply one_hot_length | apply zeros_length]. }
  assert (Hne : LogSoftmax (apply_mask (dropout bias_rnn) bias_logits
                              (fst (bernoulli_mask (dropout bias_rnn) 59 drop_first)))
                <> []).
  { intros Hnil. apply (f_equal (@List.length R)) in Hnil.
    rewrite LogSoftmax_length in Hnil. unfold apply_mask in Hnil.
    rewrite length_map, length_combine, bernoulli_mask_length in Hnil.
    unfold bias_logits in Hnil. rewrite length_map, length_seq in Hnil.
    discriminate Hnil. }
  eexists _, _, _. split; [exact E |]. split; [exact Hne |].
  eapply cell_output_log_probabilities; [exact E | exact Hne].
Defined.

Lemma reported_loss_nonnegative_witness :
  exists out loss nb',
    train_step (bias_notebook keep_all) "Russian" "Ann" = ret (out, loss, nb') /\
    (0 <= loss)%R.
Proof.
  destruct (train_step_valid (bias_notebook keep_all) "Russian" "Ann"
              bias_rnn_model russian_known ltac:(discriminate) eq_refl)
    as (cat_t & rows & targets & outs & hfin & gfin & nb' & _ & _ & _ & _ & E & _).
  eexists _, _, nb'. split; [exact E |].
  eapply reported_loss_nonnegative. exact E.
Defined.
